(** * n-ble: HCI command engine, ATT codecs, advertising-data parser

    A shallow embedding of the parts of the n-ble host driver that the
    specification talks about, and the properties of the specification
    stated and settled on that embedding.

    - [Hci.ts]            : [HciOpcode], [Hci.send], [Hci.buildBuffer],
                            [Hci.onData], [Hci.reset], [Hci.buildBitfield],
                            [Hci.sendLeCommand],
                            [Hci.leSetExtendedAdvertisingData]
    - ATT codec file      : [AttErrorRsp], [AttExchangeMtuReq],
                            [AttExchangeMtuRsp], [AttFindInformationReq],
                            [AttFindInformationRsp]
    - [AdvDataParser.ts]  : [AdvDataParser.parse], [parseField]
    - [HciLeController.ts]: [LeEncrypt], [LeAllowedStates],
                            [LeSupportedStates], [LeReadBufferSizeV2],
                            [LeSetAdvertisingScanResponseData],
                            [LeReadChannelMap], [LeEnableEncryption],
                            [LeExtAdvEventTypeParser]

    Part I is the embedding, Part II the properties of the
    specification, Part III further properties of the embedded code.

    Conventions.  A JavaScript [number] that holds an integer is a [Z];
    a [bigint] is a [Z] too.  The elements of a Node [Buffer] are
    [Byte.byte] (constructors [x00] .. [xff]), so a buffer literal reads
    like the hex dump of the packet.  A function that can [throw] returns
    a [result]; a function that can return [null] returns an [option]
    inside it.  A [while] or [for] loop is a function recursive on a
    fuel counter; where the loop's exit is what a property is about, the
    function says [OutOfFuel] when the counter runs out. *)

From Stdlib Require Import ZArith Lia Init.Byte Strings.Byte Ascii String.
From stdpp Require Import base option list list_numbers sorting strings gmap.

Local Open Scope Z_scope.

(** * Part I: the embedding *)

(** ** Results of functions that may throw *)

Inductive HciParserError := InvalidPayloadSize | Busy | Timeout.

(** The errors the modelled code raises.  [RangeError] stands for Node's
    [ERR_OUT_OF_RANGE], raised by the [Buffer] read and write methods. *)
Inductive Error :=
  | ParserError (code : HciParserError)   (* makeError, makeParserError *)
  | HciError (code : Z)                   (* makeHciError *)
  | RangeError.

Inductive result (A : Type) :=
  | Ok (a : A)
  | Throw (e : Error).
Arguments Ok {A} a.
Arguments Throw {A} e.

(** Sequencing of calls that may throw: stdpp's [x ← r; k]. *)
#[global] Instance result_bind : MBind result := fun A B k r =>
  match r with
  | Ok a => k a
  | Throw e => Throw e
  end.

(** The run of a loop of the model. *)
Inductive run (A : Type) :=
  | Done (a : A)
  | IndexOutOfBounds (o : nat)   (* [buf[o]] with [o] outside the buffer *)
  | OutOfFuel.
Arguments Done {A} a.
Arguments IndexOutOfBounds {A} o.
Arguments OutOfFuel {A}.

Definition run_map {A B : Type} (f : A -> B) (r : run A) : run B :=
  match r with
  | Done a => Done (f a)
  | IndexOutOfBounds o => IndexOutOfBounds o
  | OutOfFuel => OutOfFuel
  end.

(** ** Bytes and Node's [Buffer] *)

Definition u8 (b : byte) : Z := Z.of_N (Byte.to_N b).

(** The byte with unsigned value [z mod 256]. *)
Definition byte_of_Z (z : Z) : byte :=
  match Byte.of_N (Z.to_N (z mod 256)) with
  | Some b => b
  | None => x00
  end.

Module Buffer.

(** [Buffer.alloc(n)]: [n] zero bytes.  [Buffer.allocUnsafe(n)] is
    modelled by the same value: every use below overwrites all [n]
    bytes before the buffer is returned. *)
Definition alloc (n : nat) : list byte := replicate n x00.

(** [buf.slice(a, b)]: positions [a] (inclusive) to [b] (exclusive),
    both clamped to the length of [buf]. *)
Definition slice (buf : list byte) (a b : nat) : list byte :=
  take (b - a) (drop a buf).

(** Little-endian value of a list of bytes. *)
Fixpoint le_value (bs : list byte) : Z :=
  match bs with
  | [] => 0
  | b :: bs' => u8 b + 256 * le_value bs'
  end.

(** The [n] little-endian bytes of [v]. *)
Fixpoint le_bytes (n : nat) (v : Z) : list byte :=
  match n with
  | O => []
  | S n' => byte_of_Z v :: le_bytes n' (v / 256)
  end.

(** [buf.readUIntLE(o, n)]: throws when the [n] bytes at [o] are not
    all inside the buffer. *)
Definition readUIntLE (buf : list byte) (o n : nat) : result Z :=
  if decide (o + n <= length buf)%nat
  then Ok (le_value (slice buf o (o + n)))
  else Throw RangeError.

Definition readUInt8 (buf : list byte) (o : nat) : result Z :=
  readUIntLE buf o 1.

Definition readUInt16LE (buf : list byte) (o : nat) : result Z :=
  readUIntLE buf o 2.

(** [buf.readInt8(o)]: the signed value of the byte at [o]. *)
Definition readInt8 (buf : list byte) (o : nat) : result Z :=
  v ← readUInt8 buf o;
  Ok (if decide (v < 128) then v else v - 256).

(** [src.copy(target, targetStart)], on the contents of the source and
    of the target: the bytes of the source that fit are written into
    the target from [targetStart] on. *)
Definition copy (src target : list byte) (targetStart : nat) : list byte :=
  take targetStart target
    ++ take (length target - targetStart) src
    ++ drop (targetStart + length src) target.

(** [buf.writeUIntLE(v, o, n)]: throws when [v] does not fit [n] bytes
    or the [n] bytes at [o] are not all inside the buffer; returns the
    buffer after the write and the offset after the written bytes. *)
Definition writeUIntLE (buf : list byte) (v : Z) (o n : nat)
  : result (list byte * nat) :=
  if decide (0 <= v < 256 ^ Z.of_nat n) then
    if decide (o + n <= length buf)%nat
    then Ok (copy (le_bytes n v) buf o, (o + n)%nat)
    else Throw RangeError
  else Throw RangeError.

Definition writeUInt8 (buf : list byte) (v : Z) (o : nat) :=
  writeUIntLE buf v o 1.

Definition writeUInt16LE (buf : list byte) (v : Z) (o : nat) :=
  writeUIntLE buf v o 2.

(** [buf.toString('hex')]. *)
Definition hexDigit (n : N) : ascii :=
  match n with
  | 0 => "0" | 1 => "1" | 2 => "2" | 3 => "3" | 4 => "4" | 5 => "5"
  | 6 => "6" | 7 => "7" | 8 => "8" | 9 => "9" | 10 => "a" | 11 => "b"
  | 12 => "c" | 13 => "d" | 14 => "e" | _ => "f"
  end%N%char.

Fixpoint toHex (buf : list byte) : string :=
  match buf with
  | [] => EmptyString
  | b :: buf' =>
      String (hexDigit (Byte.to_N b / 16))
        (String (hexDigit (Byte.to_N b mod 16)) (toHex buf'))
  end.

(** [buf.toString('utf8')].  The decoded string is represented by its
    UTF-8 bytes; the replacement of ill-formed sequences by U+FFFD is
    not modelled.  The empty buffer, and only it, gives the empty
    string. *)
Definition toUtf8 (buf : list byte) : string := string_of_list_byte buf.

(** [buf.readBigUInt64LE(o)]: the eight bytes at [o] as one unsigned
    integer, a [bigint]. *)
Definition readBigUInt64LE (buf : list byte) (o : nat) : result Z :=
  readUIntLE buf o 8.

End Buffer.

(** ** JavaScript's 32-bit integer operators *)

(** [ToInt32]: wrap an integer into the signed 32-bit range. *)
Definition int32 (z : Z) : Z := (z + 2 ^ 31) mod 2 ^ 32 - 2 ^ 31.

(** [a << n], [a >> n], [a | b], [a & b] on numbers. *)
Definition js_shl (a n : Z) : Z := int32 (Z.shiftl (int32 a) (n mod 32)).
Definition js_sar (a n : Z) : Z := Z.shiftr (int32 a) (n mod 32).
Definition js_or (a b : Z) : Z := Z.lor (int32 a) (int32 b).
Definition js_and (a b : Z) : Z := Z.land (int32 a) (int32 b).

(** ** [Hci.ts]: the opcode *)

Module HciOpcode.

Record t := { ogf : Z; ocf : Z }.

(** [return opcode.ogf << 10 | opcode.ocf;] *)
Definition build (opcode : t) : Z :=
  js_or (js_shl (ogf opcode) 10) (ocf opcode).

(** [const ogf = opcode >> 10; const ocf = opcode & 1023;] *)
Definition expand (opcode : Z) : t :=
  {| ogf := js_sar opcode 10; ocf := js_and opcode 1023 |}.

End HciOpcode.

(** ** [Hci.ts]: the command engine *)

(** Modelled from the spec: the enums of [HciOgfOcf.ts] and [HciError.ts]
    are not among the sources.  The specification gives Reset as
    OGF = 0x03, OCF = 0x0003 and the Success status as 0x00. *)
Definition HciOgf_ControlAndBasebandCommands : Z := 0x03.
Definition HciOcfControlAndBasebandCommands_Reset : Z := 0x0003.
Definition HciErrorCode_Success : Z := 0x00.

(** [enum HciEventCode { HCI_EVT_CMD_COMPLETE = 0x0e }] *)
Definition HCI_EVT_CMD_COMPLETE : Z := 0x0e.

Module HciCommand.
(** [params?: Buffer]: an absent parameter block is [None]. *)
Record t := { opcode : Z; params : option (list byte) }.
End HciCommand.

Module HciEvtCmdComplete.
Record t := {
  numHciPackets : Z;
  opcode : Z;
  status : Z;
  returnParameters : list byte;
}.
End HciEvtCmdComplete.

(** The promise returned by [send]. *)
Inductive Promise :=
  | Pending
  | Resolved (evt : HciEvtCmdComplete.t)
  | Rejected (err : Error).

(** [resolve] and [reject] act on a pending promise only. *)
Definition settle (outcome : Promise) (p : Promise) : Promise :=
  match p with
  | Pending => outcome
  | _ => p
  end.

(** The two ['parser-error'] diagnostics [onData] emits. *)
Inductive Diagnostic :=
  | EvtInvalidPayloadSize (declared actual : Z)
  | CmdCompleteInvalidPayloadSize (actual : Z).

Module Hci.

(** A timer armed by [setTimeout]: its delay and the promise whose
    [complete] its callback calls. *)
Record Timer := { delay : Z; owner : nat }.

(** What the closures [complete] and [this.onCmdComplete] built by one
    call of [send] capture: [timeoutId] and the promise's
    [resolve]/[reject]. *)
Record Closure := { timeoutId : nat; promiseId : nat }.

(** The engine ([cmdTimeout], [cmdOpcode], [onCmdComplete]) together
    with what it acts on: the timers of the event loop (indexed by
    timer id, [None] once cleared or fired), the promises handed out
    (indexed by promise id), the buffers handed to [sendRaw], and the
    ['parser-error'] events emitted.  [console.log] and [debug] output
    is not part of the state. *)
Record t := {
  cmdTimeout : Z;
  cmdOpcode : Z;
  onCmdComplete : option Closure;
  timers : list (option Timer);
  promises : list Promise;
  sent : list (list byte);
  emitted : list Diagnostic;
}.

(** [constructor(init)]: [this.cmdTimeout = init.cmdTimeout ?? 2000]. *)
Definition new (init_cmdTimeout : option Z) : t :=
  {| cmdTimeout := default 2000 init_cmdTimeout;
     cmdOpcode := 0;
     onCmdComplete := None;
     timers := []; promises := []; sent := []; emitted := [] |}.

Definition emit (d : Diagnostic) (s : t) : t :=
  {| cmdTimeout := cmdTimeout s; cmdOpcode := cmdOpcode s;
     onCmdComplete := onCmdComplete s; timers := timers s;
     promises := promises s; sent := sent s;
     emitted := emitted s ++ [d] |}.

(** [reject(err)] / [resolve(evt)] of promise [p]. *)
Definition settlePromise (p : nat) (outcome : Promise) (s : t) : t :=
  {| cmdTimeout := cmdTimeout s; cmdOpcode := cmdOpcode s;
     onCmdComplete := onCmdComplete s; timers := timers s;
     promises := alter (settle outcome) p (promises s); sent := sent s;
     emitted := emitted s |}.

(** [[
    const complete = (err?: Error, evt?: HciEvtCmdComplete) => {
      clearTimeout(timeoutId);
      this.onCmdComplete = null;
      err ? reject(err) : resolve(evt!);
    };
    ]] *)
Definition complete (c : Closure) (outcome : Promise) (s : t) : t :=
  {| cmdTimeout := cmdTimeout s; cmdOpcode := cmdOpcode s;
     onCmdComplete := None;
     timers := <[timeoutId c := None]> (timers s);
     promises := alter (settle outcome) (promiseId c) (promises s);
     sent := sent s; emitted := emitted s |}.

(** [[
    const payloadLength = cmd.params?.length ?? 0;
    const buffer = Buffer.alloc(3 + payloadLength);
    buffer.writeUInt16LE(cmd.opcode, 0);
    buffer.writeUInt8(payloadLength, 2);
    if (cmd.params && payloadLength > 0) { cmd.params.copy(buffer, 3); }
    return buffer;
    ]] *)
Definition buildBuffer (cmd : HciCommand.t) : result (list byte) :=
  let payloadLength :=
    match HciCommand.params cmd with
    | Some p => length p
    | None => 0%nat
    end in
  let buffer := Buffer.alloc (3 + payloadLength) in
  '(buffer, _) ← Buffer.writeUInt16LE buffer (HciCommand.opcode cmd) 0;
  '(buffer, _) ← Buffer.writeUInt8 buffer (Z.of_nat payloadLength) 2;
  match HciCommand.params cmd with
  | Some p =>
      if decide (0 < payloadLength)%nat
      then Ok (Buffer.copy p buffer 3)
      else Ok buffer
  | None => Ok buffer
  end.

(** The body of the executor of [send]'s promise.  The promise is
    created first; a [throw] inside the executor (from [buildBuffer])
    rejects it.  [sendRaw] is the transport's callback: the buffer is
    appended to [sent].  Returns the new state and the promise. *)
Definition send (cmd : HciCommand.t) (s : t) : t * nat :=
  let p := length (promises s) in
  let s := {| cmdTimeout := cmdTimeout s; cmdOpcode := cmdOpcode s;
              onCmdComplete := onCmdComplete s; timers := timers s;
              promises := promises s ++ [Pending]; sent := sent s;
              emitted := emitted s |} in
  match onCmdComplete s with
  | Some _ =>
      (* if (this.onCmdComplete !== null) return reject(Busy) *)
      (settlePromise p (Rejected (ParserError Busy)) s, p)
  | None =>
      (* const timeoutId = setTimeout(() => complete(Timeout), this.cmdTimeout) *)
      let id := length (timers s) in
      let tm := {| delay := cmdTimeout s; owner := p |} in
      (* this.onCmdComplete = (evt) => { ... }; this.cmdOpcode = cmd.opcode *)
      let s := {| cmdTimeout := cmdTimeout s;
                  cmdOpcode := HciCommand.opcode cmd;
                  onCmdComplete := Some {| timeoutId := id; promiseId := p |};
                  timers := timers s ++ [Some tm];
                  promises := promises s; sent := sent s;
                  emitted := emitted s |} in
      (* this.sendRaw(this.buildBuffer(cmd)) *)
      match buildBuffer cmd with
      | Ok buffer =>
          ({| cmdTimeout := cmdTimeout s; cmdOpcode := cmdOpcode s;
              onCmdComplete := onCmdComplete s; timers := timers s;
              promises := promises s; sent := sent s ++ [buffer];
              emitted := emitted s |}, p)
      | Throw e => (settlePromise p (Rejected e) s, p)
      end
  end.

(** The closure stored in [this.onCmdComplete]:
    [[
    if (this.cmdOpcode !== evt.opcode) { return; }
    if (evt.status === HciErrorCode.Success) { complete(undefined, evt); }
    else { complete(this.makeHciError(evt.status)); }
    ]] *)
Definition handler (c : Closure) (evt : HciEvtCmdComplete.t) (s : t) : t :=
  if decide (cmdOpcode s ≠ HciEvtCmdComplete.opcode evt) then s
  else if decide (HciEvtCmdComplete.status evt = HciErrorCode_Success)
  then complete c (Resolved evt) s
  else complete c (Rejected (HciError (HciEvtCmdComplete.status evt))) s.

(** [onData(data)], called by the transport with an event packet. *)
Definition onData (data : list byte) (s : t) : t :=
  match data with
  | eventCode :: payloadLength :: payload =>
      (* eventCode = data[0]; payloadLength = data[1]; payload = data.slice(2) *)
      if decide (u8 payloadLength ≠ Z.of_nat (length payload)) then
        emit (EvtInvalidPayloadSize (u8 payloadLength)
                (Z.of_nat (length payload))) s
      else if decide (u8 eventCode = HCI_EVT_CMD_COMPLETE) then
        match payload with
        | n :: op_lo :: op_hi :: st :: returnParameters =>
            match onCmdComplete s with
            | Some c =>
                handler c
                  {| HciEvtCmdComplete.numHciPackets := u8 n;
                     (* payload.readUInt16LE(1) *)
                     HciEvtCmdComplete.opcode :=
                       Buffer.le_value [op_lo; op_hi];
                     HciEvtCmdComplete.status := u8 st;
                     HciEvtCmdComplete.returnParameters :=
                       returnParameters |} s
            | None => s
            end
        | _ =>
            (* payload.length < 4 *)
            emit (CmdCompleteInvalidPayloadSize
                    (Z.of_nat (length payload))) s
        end
      else s
  | _ => s  (* data.length < 2 *)
  end.

(** The event loop runs the callback of timer [id], if it is still
    armed: [() => complete(this.makeError(HciParserError.Timeout))]. *)
Definition expire (id : nat) (s : t) : t :=
  match timers s !! id with
  | Some (Some tm) =>
      complete {| timeoutId := id; promiseId := owner tm |}
        (Rejected (ParserError Timeout)) s
  | _ => s
  end.

(** [reset()]: [await this.send({ opcode: HciOpcode.build({...}) })]. *)
Definition resetCommand : HciCommand.t :=
  {| HciCommand.opcode :=
       HciOpcode.build
         {| HciOpcode.ogf := HciOgf_ControlAndBasebandCommands;
            HciOpcode.ocf := HciOcfControlAndBasebandCommands_Reset |};
     HciCommand.params := None |}.

Definition reset (s : t) : t * nat := send resetCommand s.

(** The promise of [reset()] follows the promise of its [send]: it
    resolves (to nothing) when that one resolves and rejects with the
    same error. *)
Definition resetOutcome (p : Promise) : option (result unit) :=
  match p with
  | Pending => None
  | Resolved _ => Some (Ok tt)
  | Rejected e => Some (Throw e)
  end.

(** A command is pending and its caller is still waiting: the slot
    holds the closure [c], the promise of [c] is unsettled and the
    timer of [c] is armed for that promise. *)
Definition awaiting (s : t) (c : Closure) : Prop :=
  onCmdComplete s = Some c
  /\ promises s !! promiseId c = Some Pending
  /\ timers s !! timeoutId c
     = Some (Some {| delay := cmdTimeout s; owner := promiseId c |}).

(** [[
    private buildBitfield(bits: number[]): number {
      let bitfield = 0;
      for (const bit of bits) { bitfield |= 1 << bit; }
      return bitfield;
    }
    ]] *)
Definition buildBitfield (bits : list Z) : Z :=
  foldl (fun bitfield bit => js_or bitfield (js_shl 1 bit)) 0 bits.

(** [sendLeCommand(ocf, payload?)].  [HciOgf.LeControllerCommands] is a
    member of an enum that is not among the sources: its value is the
    first parameter. *)
Definition sendLeCommand (LeControllerCommands : Z) (ocf : Z)
    (payload : option (list byte)) (s : t) : t * nat :=
  send {| HciCommand.opcode :=
            HciOpcode.build {| HciOpcode.ogf := LeControllerCommands;
                               HciOpcode.ocf := ocf |};
          HciCommand.params := payload |} s.

(** The payload of [leSetExtendedAdvertisingData] and of
    [leSetExtendedScanResponseData] (the two bodies are the same):
    [[
    const payload = Buffer.alloc(4 + params.data.length);
    s = 1; payload.writeUIntLE(params.advertisingHandle,  o, s); o += s;
    s = 1; payload.writeUIntLE(params.operation,          o, s); o += s;
    s = 1; payload.writeUIntLE(params.fragment ? 0 : 1,   o, s); o += s;
    s = 1; payload.writeUIntLE(params.data.length,        o, s); o += s;
    params.data.copy(payload, o);
    ]] *)
Definition extendedDataPayload (advertisingHandle operation : Z)
    (fragment : bool) (data : list byte) : result (list byte) :=
  let payload := Buffer.alloc (4 + length data) in
  '(payload, o) ← Buffer.writeUIntLE payload advertisingHandle 0 1;
  '(payload, o) ← Buffer.writeUIntLE payload operation o 1;
  '(payload, o) ← Buffer.writeUIntLE payload (if fragment then 0 else 1) o 1;
  '(payload, o) ← Buffer.writeUIntLE payload (Z.of_nat (length data)) o 1;
  Ok (Buffer.copy data payload o).

(** [leSetExtendedAdvertisingData(params)]: the payload is built, then
    [await this.sendLeCommand(ocf, payload)].  A [throw] while the
    payload is built rejects the promise of the method before the engine
    is touched ([Throw]); otherwise the result is the engine after the
    submission and the promise the method awaits.  The opcode fields are
    members of enums that are not among the sources: parameters. *)
Definition leSetExtendedAdvertisingData (LeControllerCommands ocf : Z)
    (advertisingHandle operation : Z) (fragment : bool) (data : list byte)
    (s : t) : result (t * nat) :=
  payload ← extendedDataPayload advertisingHandle operation fragment data;
  Ok (sendLeCommand LeControllerCommands ocf (Some payload) s).

(** What happens to an engine: a command is submitted, the transport
    delivers a packet, or the event loop runs the callback of a timer. *)
Inductive Action :=
  | Submit (cmd : HciCommand.t)
  | Deliver (data : list byte)
  | Expire (id : nat).

Definition act (s : t) (a : Action) : t :=
  match a with
  | Submit cmd => (send cmd s).1
  | Deliver data => onData data s
  | Expire id => expire id s
  end.

(** The states an engine built by [new] can be in. *)
Definition reachable (s : t) : Prop :=
  exists init_cmdTimeout actions, s = foldl act (new init_cmdTimeout) actions.

(** The timers that are armed. *)
Definition armed (s : t) (id : nat) : Prop :=
  exists tm, timers s !! id = Some (Some tm).


(** What every reachable state satisfies: the command in the slot has
    its timer armed, for [cmdTimeout] and for its own promise; an armed
    timer is the timer of the command in the slot; a promise that is
    still pending is the promise of the command in the slot. *)
Definition invariant (s : t) : Prop :=
  (forall c, onCmdComplete s = Some c ->
     timers s !! timeoutId c
     = Some (Some {| delay := cmdTimeout s; owner := promiseId c |}))
  /\ (forall id tm, timers s !! id = Some (Some tm) ->
        onCmdComplete s = Some {| timeoutId := id; promiseId := owner tm |})
  /\ (forall p, promises s !! p = Some Pending ->
        exists c, onCmdComplete s = Some c /\ promiseId c = p).

End Hci.

(** The Command Complete event a well-formed event packet carries
    (event code 0x0E, declared length equal to the number of parameter
    bytes, at least four of them), as the wire format defines it. *)
Definition cmdCompleteEvent (data : list byte) : option HciEvtCmdComplete.t :=
  match data with
  | eventCode :: payloadLength :: n :: op_lo :: op_hi :: st :: ret =>
      if decide (u8 eventCode = 0x0e
                 /\ u8 payloadLength = Z.of_nat (4 + length ret))
      then Some {| HciEvtCmdComplete.numHciPackets := u8 n;
                   HciEvtCmdComplete.opcode := u8 op_lo + 256 * u8 op_hi;
                   HciEvtCmdComplete.status := u8 st;
                   HciEvtCmdComplete.returnParameters := ret |}
      else None
  | _ => None
  end.


(** [quiet s s']: nothing but the emitted diagnostics differs. *)
Definition quiet (s s' : Hci.t) : Prop :=
  Hci.cmdTimeout s' = Hci.cmdTimeout s
  /\ Hci.cmdOpcode s' = Hci.cmdOpcode s
  /\ Hci.onCmdComplete s' = Hci.onCmdComplete s
  /\ Hci.timers s' = Hci.timers s
  /\ Hci.promises s' = Hci.promises s
  /\ Hci.sent s' = Hci.sent s.

(** The packets that are not a Command Complete event for opcode [op]:
    anything malformed, any other event, and a Command Complete that
    carries another opcode. *)
Definition notCompleting (op : Z) (data : list byte) : Prop :=
  forall evt, cmdCompleteEvent data = Some evt -> HciEvtCmdComplete.opcode evt ≠ op.

(** The actions that cannot take a command with opcode [op] out of the
    slot: a submission, and the delivery of a packet that is not a
    Command Complete event for [op].  The expiry of a timer is none of
    them. *)
Definition notFreeing (op : Z) (a : Hci.Action) : Prop :=
  match a with
  | Hci.Submit _ => True
  | Hci.Deliver data => notCompleting op data
  | Hci.Expire _ => False
  end.

(** The commands submitted by a list of actions, in order. *)
Definition submitted (actions : list Hci.Action) : list HciCommand.t :=
  omap (fun a => match a with Hci.Submit cmd => Some cmd | _ => None end)
    actions.

(** The command packets of the wire format: an opcode of 16 bits,
    little-endian, the number of parameter bytes, at most 255, and the
    parameters. *)
Definition commandPacket (packet : list byte) : Prop :=
  exists opcode (parameters : list byte),
    0 <= opcode < 65536 /\ (length parameters <= 255)%nat
    /\ packet = byte_of_Z opcode :: byte_of_Z (opcode / 256)
                :: byte_of_Z (Z.of_nat (length parameters)) :: parameters.

(** ** The ATT codecs *)

(** Modelled from the spec: [AttOpcode.ts] is not among the sources.  The
    scenarios of the specification give the Error Response opcode as
    0x01 and the Find Information Response opcode as 0x05. *)
Definition AttOpcode_ErrorRsp : Z := 0x01.
Definition AttOpcode_FindInformationRsp : Z := 0x05.

Module AttErrorRsp.

Record Msg := {
  requestOpcodeInError : Z;
  attributeHandleInError : Z;
  errorCode : Z;
}.

Definition size : nat := 5.

(** [[
    const buffer = Buffer.allocUnsafe(this.size);
    let o = 0;
    o = buffer.writeUIntLE(AttOpcode.ErrorRsp,          o, 1);
    o = buffer.writeUIntLE(data.requestOpcodeInError,   o, 1);
    o = buffer.writeUIntLE(data.attributeHandleInError, o, 2);
    o = buffer.writeUIntLE(data.errorCode,              o, 1);
    return buffer;
    ]] *)
Definition serialize (data : Msg) : result (list byte) :=
  let buffer := Buffer.alloc size in
  let o := 0%nat in
  '(buffer, o) ← Buffer.writeUIntLE buffer AttOpcode_ErrorRsp o 1;
  '(buffer, o) ← Buffer.writeUIntLE buffer (requestOpcodeInError data) o 1;
  '(buffer, o) ← Buffer.writeUIntLE buffer (attributeHandleInError data) o 2;
  '(buffer, o) ← Buffer.writeUIntLE buffer (errorCode data) o 1;
  Ok buffer.

(** [[
    if (buffer.readUInt8(0) !== AttOpcode.ErrorRsp ||
        buffer.length       !== this.size) { return null; }
    return {
       requestOpcodeInError:   buffer.readUIntLE(0, 1),
       attributeHandleInError: buffer.readUIntLE(1, 2),
       errorCode:              buffer.readUIntLE(3, 1),
    };
    ]] *)
Definition deserialize (buffer : list byte) : result (option Msg) :=
  op ← Buffer.readUInt8 buffer 0;
  if decide (op ≠ AttOpcode_ErrorRsp \/ length buffer ≠ size) then Ok None
  else
    r ← Buffer.readUIntLE buffer 0 1;
    h ← Buffer.readUIntLE buffer 1 2;
    e ← Buffer.readUIntLE buffer 3 1;
    Ok (Some {| requestOpcodeInError := r;
                attributeHandleInError := h;
                errorCode := e |}).

End AttErrorRsp.

Module AttFindInformationRsp.

Record Entry := { handle : Z; uuid : list byte }.

Definition minSize : nat := 6.

(** [uuidFormatToSize: Record<number, number> = { 1: 2, 2: 16 }];
    any other key reads [undefined]. *)
Definition uuidFormatToSize (format : Z) : option nat :=
  if decide (format = 1) then Some 2%nat
  else if decide (format = 2) then Some 16%nat
  else None.

(** [[
    while (o < buffer.length) {
      const handle = buffer.readUIntLE(o, 2);       o += 2;
      const uuid   = buffer.slice(o, o + uuidSize); o += uuidSize;
      result.push({ handle, uuid: uuid.reverse(), });
    }
    ]]
    [uuid] is a view of [buffer] and [reverse] works in place: the loop
    carries the content of the buffer, in which the bytes of the view
    end up reversed.  [res] is the source's [result]. *)
Fixpoint entries (fuel : nat) (uuidSize : nat) (buffer : list byte) (o : nat)
    (res : list Entry) : run (result (list byte * list Entry)) :=
  match fuel with
  | O => OutOfFuel
  | S fuel' =>
      if decide (o < length buffer)%nat then
        match Buffer.readUIntLE buffer o 2 with
        | Throw e => Done (Throw e)
        | Ok handle =>
            let o := (o + 2)%nat in
            let uuid := reverse (Buffer.slice buffer o (o + uuidSize)) in
            let buffer := Buffer.copy uuid buffer o in
            let o := (o + uuidSize)%nat in
            entries fuel' uuidSize buffer o
              (res ++ [{| handle := handle; uuid := uuid |}])
        end
      else Done (Ok (buffer, res))
  end.

(** [[
    if (buffer.readUInt8(0) !== AttOpcode.FindInformationRsp ||
        buffer.length        <  this.minSize) { return null; }
    const format = buffer.readUInt8(1);
    const uuidSize = this.uuidFormatToSize[format];
    if (!uuidSize) { return null; }
    if (((buffer.length - 2) % uuidSize) !== 0) { return null; }
    ]]
    followed by the loop.  The result is the content of the caller's
    buffer after the call and the decoded message, or [null]. *)
Definition deserialize (buffer : list byte)
  : run (result (list byte * option (list Entry))) :=
  match Buffer.readUInt8 buffer 0 with
  | Throw e => Done (Throw e)
  | Ok op =>
      if decide (op ≠ AttOpcode_FindInformationRsp
                 \/ (length buffer < minSize)%nat)
      then Done (Ok (buffer, None))
      else
        match Buffer.readUInt8 buffer 1 with
        | Throw e => Done (Throw e)
        | Ok format =>
            match uuidFormatToSize format with
            | None => Done (Ok (buffer, None))
            | Some uuidSize =>
                if decide ((length buffer - 2) mod uuidSize ≠ 0)%nat
                then Done (Ok (buffer, None))
                else
                  match entries (length buffer) uuidSize buffer 2 [] with
                  | Done (Ok (buffer', res)) =>
                      Done (Ok (buffer', Some res))
                  | Done (Throw e) => Done (Throw e)
                  | IndexOutOfBounds o => IndexOutOfBounds o
                  | OutOfFuel => OutOfFuel
                  end
            end
        end
  end.

(** [uuidSizeToFormat: Record<number, number> = { 2: 1, 16: 2 }]. *)
Definition uuidSizeToFormat (uuidSize : nat) : option Z :=
  if decide (uuidSize = 2%nat) then Some 1
  else if decide (uuidSize = 16%nat) then Some 2
  else None.

(** The loop of [getUuidSize], from the value [uuidSize] has before an
    entry; [None] is [null], as a value of [uuidSize] and as the result:
    [[
    for (const entry of data) {
      const length = entry.uuid.length;
      if (uuidSize === null) {
        uuidSize = length;
        if (uuidSize !== 2 && uuidSize !== 16) { return null; }
      }
      if (uuidSize !== length) { return null; }
    }
    return uuidSize;
    ]] *)
Fixpoint getUuidSizeFrom (uuidSize : option nat) (data : list Entry)
  : option nat :=
  match data with
  | [] => uuidSize
  | entry :: data' =>
      let length := length (uuid entry) in
      match uuidSize with
      | None =>
          if decide (length ≠ 2%nat /\ length ≠ 16%nat) then None
          else getUuidSizeFrom (Some length) data'
      | Some n =>
          if decide (n ≠ length) then None
          else getUuidSizeFrom (Some n) data'
      end
  end.

Definition getUuidSize (data : list Entry) : option nat :=
  getUuidSizeFrom None data.

(** How [serialize] can fail: with its own
    [new Error('Invalid ATT response data')], or with an error of a
    buffer write. *)
Inductive SerializeError :=
  | InvalidAttResponseData
  | WriteError (e : Error).

(** The loop of [serialize]:
    [[
    for (const entry of data) {
      o  = buffer.writeUIntLE(entry.handle, o, 2);
      o += entry.uuid.copy(buffer, o);
    }
    ]]
    [copy] returns the number of bytes copied. *)
Fixpoint writeEntries (data : list Entry) (buffer : list byte) (o : nat)
  : result (list byte) :=
  match data with
  | [] => Ok buffer
  | entry :: data' =>
      '(buffer, o) ← Buffer.writeUIntLE buffer (handle entry) o 2;
      let copied := min (length (uuid entry)) (length buffer - o) in
      let buffer := Buffer.copy (uuid entry) buffer o in
      writeEntries data' buffer (o + copied)
  end.

(** [[
    const uuidSize = this.getUuidSize(data);
    if (uuidSize === null) { throw new Error('Invalid ATT response data'); }
    const format = this.uuidSizeToFormat[uuidSize];
    if (!format) { throw new Error('Invalid ATT response data'); }
    const buffer = Buffer.allocUnsafe(2 + (2 + uuidSize) * data.length);
    let o = 0;
    o = buffer.writeUIntLE(AttOpcode.FindInformationRsp,  o, 1);
    o = buffer.writeUIntLE(format,                        o, 1);
    ]]
    followed by the loop. *)
Definition serialize (data : list Entry) : SerializeError + list byte :=
  match getUuidSize data with
  | None => inl InvalidAttResponseData
  | Some uuidSize =>
      match uuidSizeToFormat uuidSize with
      | None => inl InvalidAttResponseData
      | Some format =>
          let buffer := Buffer.alloc (2 + (2 + uuidSize) * length data) in
          let written :=
            '(buffer, o) ← Buffer.writeUIntLE buffer
                             AttOpcode_FindInformationRsp 0 1;
            '(buffer, o) ← Buffer.writeUIntLE buffer format o 1;
            writeEntries data buffer o in
          match written with
          | Ok buffer => inr buffer
          | Throw e => inl (WriteError e)
          end
      end
  end.

(** An entry as it lies in the PDU: the handle, little-endian, and the
    bytes of the UUID. *)
Definition entryBytes (entry : Entry) : list byte :=
  Buffer.le_bytes 2 (handle entry) ++ uuid entry.

(** The entry with the bytes of its UUID in reverse order. *)
Definition reversed (entry : Entry) : Entry :=
  {| handle := handle entry; uuid := reverse (uuid entry) |}.

End AttFindInformationRsp.

(** The Exchange MTU and Find Information requests.  [AttOpcode.ts] is
    not among the sources and the specification does not give these
    opcodes: the opcode is the first parameter of each function. *)
Module AttExchangeMtuReq.

Record Msg := { mtu : Z }.

Definition size : nat := 3.

(** [[
    const buffer = Buffer.allocUnsafe(this.size);
    let o = 0;
    o = buffer.writeUIntLE(AttOpcode.ExchangeMtuReq, o, 1);
    o = buffer.writeUIntLE(req.mtu,                  o, 2);
    return buffer;
    ]] *)
Definition serialize (ExchangeMtuReq : Z) (req : Msg) : result (list byte) :=
  let buffer := Buffer.alloc size in
  let o := 0%nat in
  '(buffer, o) ← Buffer.writeUIntLE buffer ExchangeMtuReq o 1;
  '(buffer, o) ← Buffer.writeUIntLE buffer (mtu req) o 2;
  Ok buffer.

(** [[
    if (buffer.readUInt8(0) !== AttOpcode.ExchangeMtuReq ||
        buffer.length       !== this.size) { return null; }
    return { mtu: buffer.readUIntLE(1, 2) };
    ]] *)
Definition deserialize (ExchangeMtuReq : Z) (buffer : list byte)
  : result (option Msg) :=
  op ← Buffer.readUInt8 buffer 0;
  if decide (op ≠ ExchangeMtuReq \/ length buffer ≠ size) then Ok None
  else
    m ← Buffer.readUIntLE buffer 1 2;
    Ok (Some {| mtu := m |}).

End AttExchangeMtuReq.

Module AttExchangeMtuRsp.

Record Msg := { mtu : Z }.

Definition size : nat := 3.

(** As [AttExchangeMtuReq.serialize], with [AttOpcode.ExchangeMtuRsp]. *)
Definition serialize (ExchangeMtuRsp : Z) (req : Msg) : result (list byte) :=
  let buffer := Buffer.alloc size in
  let o := 0%nat in
  '(buffer, o) ← Buffer.writeUIntLE buffer ExchangeMtuRsp o 1;
  '(buffer, o) ← Buffer.writeUIntLE buffer (mtu req) o 2;
  Ok buffer.

(** As [AttExchangeMtuReq.deserialize], with [AttOpcode.ExchangeMtuRsp]. *)
Definition deserialize (ExchangeMtuRsp : Z) (buffer : list byte)
  : result (option Msg) :=
  op ← Buffer.readUInt8 buffer 0;
  if decide (op ≠ ExchangeMtuRsp \/ length buffer ≠ size) then Ok None
  else
    m ← Buffer.readUIntLE buffer 1 2;
    Ok (Some {| mtu := m |}).

End AttExchangeMtuRsp.

Module AttFindInformationReq.

Record Msg := { startingHandle : Z; endingHandle : Z }.

Definition size : nat := 5.

(** [[
    const buffer = Buffer.allocUnsafe(this.size);
    let o = 0;
    o = buffer.writeUIntLE(AttOpcode.FindInformationReq,  o, 1);
    o = buffer.writeUIntLE(req.startingHandle,            o, 2);
    o = buffer.writeUIntLE(req.endingHandle,              o, 2);
    return buffer;
    ]] *)
Definition serialize (FindInformationReq : Z) (req : Msg) : result (list byte) :=
  let buffer := Buffer.alloc size in
  let o := 0%nat in
  '(buffer, o) ← Buffer.writeUIntLE buffer FindInformationReq o 1;
  '(buffer, o) ← Buffer.writeUIntLE buffer (startingHandle req) o 2;
  '(buffer, o) ← Buffer.writeUIntLE buffer (endingHandle req) o 2;
  Ok buffer.

(** [[
    if (buffer.readUInt8(0) !== AttOpcode.FindInformationReq ||
        buffer.length       !== this.size) { return null; }
    return {
      startingHandle: buffer.readUIntLE(1, 2),
      endingHandle:   buffer.readUIntLE(3, 2),
    };
    ]] *)
Definition deserialize (FindInformationReq : Z) (buffer : list byte)
  : result (option Msg) :=
  op ← Buffer.readUInt8 buffer 0;
  if decide (op ≠ FindInformationReq \/ length buffer ≠ size) then Ok None
  else
    a ← Buffer.readUIntLE buffer 1 2;
    b ← Buffer.readUIntLE buffer 3 2;
    Ok (Some {| startingHandle := a; endingHandle := b |}).

End AttFindInformationReq.

(** ** [AdvDataParser.ts] *)

Module AdvDataField.
Record t := { type : byte; data : list byte }.
End AdvDataField.

Module AdvData.

Record ManufacturerData := { ident : Z; md_data : list byte }.
Record ServiceData := { uuid : string; sd_data : list byte }.

(** [interface AdvData]: every member is optional.  [flags] is
    [undefined] both when it was never assigned and when [field.data[0]]
    was read from an empty value. *)
Record t := {
  flags : option Z;
  serviceUuids : option (list string);
  serviceSolicitationUuids : option (list string);
  localName : option string;
  shortenedLocalName : option string;
  completeLocalName : option string;
  txPowerLevel : option Z;
  manufacturerData : option ManufacturerData;
  serviceData : option (list ServiceData);
}.

(** [const ad: AdvData = {};] *)
Definition empty : t :=
  {| flags := None; serviceUuids := None; serviceSolicitationUuids := None;
     localName := None; shortenedLocalName := None; completeLocalName := None;
     txPowerLevel := None; manufacturerData := None; serviceData := None |}.

Definition set_flags (v : option Z) (ad : t) : t :=
  {| flags := v; serviceUuids := serviceUuids ad;
     serviceSolicitationUuids := serviceSolicitationUuids ad;
     localName := localName ad; shortenedLocalName := shortenedLocalName ad;
     completeLocalName := completeLocalName ad; txPowerLevel := txPowerLevel ad;
     manufacturerData := manufacturerData ad; serviceData := serviceData ad |}.

Definition set_serviceUuids (v : option (list string)) (ad : t) : t :=
  {| flags := flags ad; serviceUuids := v;
     serviceSolicitationUuids := serviceSolicitationUuids ad;
     localName := localName ad; shortenedLocalName := shortenedLocalName ad;
     completeLocalName := completeLocalName ad; txPowerLevel := txPowerLevel ad;
     manufacturerData := manufacturerData ad; serviceData := serviceData ad |}.

Definition set_serviceSolicitationUuids (v : option (list string)) (ad : t) : t :=
  {| flags := flags ad; serviceUuids := serviceUuids ad;
     serviceSolicitationUuids := v;
     localName := localName ad; shortenedLocalName := shortenedLocalName ad;
     completeLocalName := completeLocalName ad; txPowerLevel := txPowerLevel ad;
     manufacturerData := manufacturerData ad; serviceData := serviceData ad |}.

Definition set_localName (v : option string) (ad : t) : t :=
  {| flags := flags ad; serviceUuids := serviceUuids ad;
     serviceSolicitationUuids := serviceSolicitationUuids ad;
     localName := v; shortenedLocalName := shortenedLocalName ad;
     completeLocalName := completeLocalName ad; txPowerLevel := txPowerLevel ad;
     manufacturerData := manufacturerData ad; serviceData := serviceData ad |}.

Definition set_shortenedLocalName (v : option string) (ad : t) : t :=
  {| flags := flags ad; serviceUuids := serviceUuids ad;
     serviceSolicitationUuids := serviceSolicitationUuids ad;
     localName := localName ad; shortenedLocalName := v;
     completeLocalName := completeLocalName ad; txPowerLevel := txPowerLevel ad;
     manufacturerData := manufacturerData ad; serviceData := serviceData ad |}.

Definition set_completeLocalName (v : option string) (ad : t) : t :=
  {| flags := flags ad; serviceUuids := serviceUuids ad;
     serviceSolicitationUuids := serviceSolicitationUuids ad;
     localName := localName ad; shortenedLocalName := shortenedLocalName ad;
     completeLocalName := v; txPowerLevel := txPowerLevel ad;
     manufacturerData := manufacturerData ad; serviceData := serviceData ad |}.

Definition set_txPowerLevel (v : option Z) (ad : t) : t :=
  {| flags := flags ad; serviceUuids := serviceUuids ad;
     serviceSolicitationUuids := serviceSolicitationUuids ad;
     localName := localName ad; shortenedLocalName := shortenedLocalName ad;
     completeLocalName := completeLocalName ad; txPowerLevel := v;
     manufacturerData := manufacturerData ad; serviceData := serviceData ad |}.

Definition set_manufacturerData (v : option ManufacturerData) (ad : t) : t :=
  {| flags := flags ad; serviceUuids := serviceUuids ad;
     serviceSolicitationUuids := serviceSolicitationUuids ad;
     localName := localName ad; shortenedLocalName := shortenedLocalName ad;
     completeLocalName := completeLocalName ad; txPowerLevel := txPowerLevel ad;
     manufacturerData := v; serviceData := serviceData ad |}.

Definition set_serviceData (v : option (list ServiceData)) (ad : t) : t :=
  {| flags := flags ad; serviceUuids := serviceUuids ad;
     serviceSolicitationUuids := serviceSolicitationUuids ad;
     localName := localName ad; shortenedLocalName := shortenedLocalName ad;
     completeLocalName := completeLocalName ad; txPowerLevel := txPowerLevel ad;
     manufacturerData := manufacturerData ad; serviceData := v |}.

End AdvData.

Module AdvDataParser.

(** The first loop of [parse]:
    [[
    let o = 0;
    while (o < adBuffer.length) {
      const len = adBuffer[o++];
      if (len === 0 || o >= adBuffer.length) { continue; }
      const type = adBuffer[o++];
      const data = adBuffer.slice(o, o + (len - 1));
      o += len - 1;
      fields.push({ type, data });
    }
    ]]
    An indexed read [adBuffer[o]] outside the buffer stops the model
    with [IndexOutOfBounds o]. *)
Fixpoint splitFields (fuel : nat) (adBuffer : list byte) (o : nat)
    (fields : list AdvDataField.t) : run (list AdvDataField.t) :=
  match fuel with
  | O => OutOfFuel
  | S fuel' =>
      if decide (o < length adBuffer)%nat then
        match adBuffer !! o with
        | None => IndexOutOfBounds o
        | Some len =>
            let o := S o in
            if decide (u8 len = 0 \/ (length adBuffer <= o)%nat)
            then splitFields fuel' adBuffer o fields
            else
              match adBuffer !! o with
              | None => IndexOutOfBounds o
              | Some type =>
                  let o := S o in
                  let data :=
                    Buffer.slice adBuffer o (o + (Z.to_nat (u8 len) - 1)) in
                  splitFields fuel' adBuffer (o + (Z.to_nat (u8 len) - 1))
                    (fields ++ [{| AdvDataField.type := type;
                                   AdvDataField.data := data |}])
              end
        end
      else Done fields
  end.

(** The UUID-list loops of [parseField], for elements of [size] bytes:
    [[
    for (let j = 0; j < field.data.length; j += size) {
      const uuid = field.data.slice(j, j + size).reverse().toString('hex');
      list = list ?? [];
      if (list.indexOf(uuid) === -1) { list.push(uuid); }
    }
    ]]
    The loop for 128-bit service class UUIDs also has
    [if (!uuid) { continue; }] after the first line ([skipEmpty]).  The
    loop runs at most [length data] times, because [size] is 2, 4 or 16:
    [uuidLoop] is called with that much fuel. *)
Fixpoint uuidLoop (fuel size : nat) (skipEmpty : bool) (data : list byte)
    (j : nat) (uuids : option (list string)) : option (list string) :=
  match fuel with
  | O => uuids
  | S fuel' =>
      if decide (j < length data)%nat then
        let uuid := Buffer.toHex (reverse (Buffer.slice data j (j + size))) in
        if skipEmpty && bool_decide (uuid = EmptyString)
        then uuidLoop fuel' size skipEmpty data (j + size) uuids
        else
          let l := default [] uuids in
          let l := if bool_decide (uuid ∈ l) then l else l ++ [uuid] in
          uuidLoop fuel' size skipEmpty data (j + size) (Some l)
      else uuids
  end.

Definition serviceUuidLoop (size : nat) (skipEmpty : bool)
    (advData : AdvData.t) (data : list byte) : AdvData.t :=
  AdvData.set_serviceUuids
    (uuidLoop (length data) size skipEmpty data 0 (AdvData.serviceUuids advData))
    advData.

Definition solicitationUuidLoop (size : nat)
    (advData : AdvData.t) (data : list byte) : AdvData.t :=
  AdvData.set_serviceSolicitationUuids
    (uuidLoop (length data) size false data 0
       (AdvData.serviceSolicitationUuids advData))
    advData.

(** [[
    advData.serviceData = advData.serviceData ?? [];
    advData.serviceData.push({
      uuid: field.data.slice(0, size).reverse().toString('hex'),
      data: field.data.slice(size, field.data.length),
    });
    ]] *)
Definition pushServiceData (size : nat) (advData : AdvData.t)
    (data : list byte) : AdvData.t :=
  AdvData.set_serviceData
    (Some (default [] (AdvData.serviceData advData)
           ++ [{| AdvData.uuid :=
                    Buffer.toHex (reverse (Buffer.slice data 0 size));
                  AdvData.sd_data := Buffer.slice data size (length data) |}]))
    advData.

(** [!advData.localName]: [undefined] or the empty string. *)
Definition falsy (s : option string) : bool :=
  match s with
  | None => true
  | Some s => bool_decide (s = EmptyString)
  end.

(** [parseField(advData, field)]: the [switch] on [field.type]; the
    cases are the members of [enum AdvDataType] the source handles. *)
Definition parseField (advData : AdvData.t) (field : AdvDataField.t)
  : result AdvData.t :=
  let data := AdvDataField.data field in
  match AdvDataField.type field with
  | x01 => (* Flags: advData.flags = field.data[0] *)
      Ok (AdvData.set_flags (u8 <$> data !! 0%nat) advData)
  | x02 | x03 => (* Incomplete / Complete list of 16-bit service class UUIDs *)
      Ok (serviceUuidLoop 2 false advData data)
  | x04 | x05 => (* ... of 32-bit service class UUIDs *)
      Ok (serviceUuidLoop 4 false advData data)
  | x06 | x07 => (* ... of 128-bit service class UUIDs *)
      Ok (serviceUuidLoop 16 true advData data)
  | x08 => (* ShortenedLocalName *)
      let advData :=
        AdvData.set_shortenedLocalName (Some (Buffer.toUtf8 data)) advData in
      Ok (if falsy (AdvData.localName advData)
          then AdvData.set_localName (AdvData.shortenedLocalName advData) advData
          else advData)
  | x09 => (* CompleteLocalName *)
      let advData :=
        AdvData.set_completeLocalName (Some (Buffer.toUtf8 data)) advData in
      Ok (AdvData.set_localName (AdvData.completeLocalName advData) advData)
  | x0a => (* TxPowerLevel: field.data.readInt8(0) *)
      v ← Buffer.readInt8 data 0;
      Ok (AdvData.set_txPowerLevel (Some v) advData)
  | x14 => Ok (solicitationUuidLoop 2 advData data)
  | x1f => Ok (solicitationUuidLoop 4 advData data)
  | x15 => Ok (solicitationUuidLoop 16 advData data)
  | x16 => Ok (pushServiceData 2 advData data)
  | x20 => Ok (pushServiceData 4 advData data)
  | x21 => Ok (pushServiceData 16 advData data)
  | xff => (* ManufacturerSpecificData *)
      ident ← Buffer.readUInt16LE data 0;
      Ok (AdvData.set_manufacturerData
            (Some {| AdvData.ident := ident;
                     AdvData.md_data := Buffer.slice data 2 (length data) |})
            advData)
  | _ => Ok advData
  end.

(** [for (const field of fields) { this.parseField(ad, field); }] *)
Fixpoint parseFields (ad : AdvData.t) (fields : list AdvDataField.t)
  : result AdvData.t :=
  match fields with
  | [] => Ok ad
  | field :: fields' => ad' ← parseField ad field; parseFields ad' fields'
  end.

(** The fields [parse] finds in a buffer. *)
Definition fieldsOf (adBuffer : list byte) : run (list AdvDataField.t) :=
  splitFields (S (length adBuffer)) adBuffer 0 [].

(** [parse(advReport)], on [advReport.data]; an absent buffer gives the
    empty [AdvData]. *)
Definition parse (advReport_data : option (list byte))
  : run (result AdvData.t) :=
  match advReport_data with
  | None => Done (Ok AdvData.empty)
  | Some adBuffer =>
      match fieldsOf adBuffer with
      | Done fields => Done (parseFields AdvData.empty fields)
      | IndexOutOfBounds o => IndexOutOfBounds o
      | OutOfFuel => OutOfFuel
      end
  end.

End AdvDataParser.

(** A record as the advertising-data format lays it out: the length
    byte counts the type byte and the value.  A value of at most 254
    bytes fits. *)
Definition encodeRecord (f : AdvDataField.t) : list byte :=
  byte_of_Z (Z.of_nat (S (length (AdvDataField.data f))))
    :: AdvDataField.type f :: AdvDataField.data f.

Definition encodeRecords (fs : list AdvDataField.t) : list byte :=
  concat (encodeRecord <$> fs).

Definition fits (f : AdvDataField.t) : Prop :=
  (length (AdvDataField.data f) <= 254)%nat.

(** The prefixes of a buffer after which the scan of [parse] stands at
    the start of a record: any sequence of complete records and of bytes
    00. *)
Inductive aligned : list byte -> Prop :=
  | aligned_nil : aligned []
  | aligned_zero pre : aligned pre -> aligned (x00 :: pre)
  | aligned_record f pre :
      fits f -> aligned pre -> aligned (encodeRecord f ++ pre).

(** A buffer made of complete records and of bytes 00 between them:
    [Some f] is the record [f], [None] a byte 00 where a record would
    start. *)
Definition encodeItem (item : option AdvDataField.t) : list byte :=
  match item with
  | Some f => encodeRecord f
  | None => [x00]
  end.

Definition encodeItems (items : list (option AdvDataField.t)) : list byte :=
  concat (encodeItem <$> items).

(** The records among the items, in order. *)
Definition recordsOf (items : list (option AdvDataField.t))
  : list AdvDataField.t :=
  omap id items.

(** Predicates on the records and results of the parser, for the
    properties of Part III. *)

(** The records [parseField] throws on. *)
Definition unreadable (f : AdvDataField.t) : Prop :=
  (AdvDataField.type f = x0a /\ AdvDataField.data f = [])
  \/ (AdvDataField.type f = xff /\ (length (AdvDataField.data f) < 2)%nat).

(** What [parseField] keeps of the two UUID lists. *)
Definition extends (ad ad' : AdvData.t) : Prop :=
  default [] (AdvData.serviceUuids ad)
    `prefix_of` default [] (AdvData.serviceUuids ad')
  /\ default [] (AdvData.serviceSolicitationUuids ad)
       `prefix_of` default [] (AdvData.serviceSolicitationUuids ad')
  /\ (NoDup (default [] (AdvData.serviceUuids ad)) ->
      NoDup (default [] (AdvData.serviceUuids ad')))
  /\ (NoDup (default [] (AdvData.serviceSolicitationUuids ad)) ->
      NoDup (default [] (AdvData.serviceSolicitationUuids ad'))).

(** What [parseField] keeps of the local name. *)
Definition nameInvariant (ad : AdvData.t) : Prop :=
  (forall name, AdvData.completeLocalName ad = Some name ->
                name ≠ EmptyString -> AdvData.localName ad = Some name)
  /\ (AdvData.localName ad = None
      <-> AdvData.shortenedLocalName ad = None
          /\ AdvData.completeLocalName ad = None).

(** ** [HciLeController.ts]: LE Encrypt *)

(** Buffers are objects: a call receives references, and
    [Buffer.prototype.reverse] works in place.  The store maps a
    reference to the content of its buffer; two references are the same
    buffer exactly when they are equal. *)
Module Store.

(** [Buffer.allocUnsafe(n)]: a buffer no existing reference points to. *)
Definition allocUnsafe (n : nat) (h : gmap nat (list byte))
  : gmap nat (list byte) * nat :=
  let r := fresh (dom h) in (<[r := Buffer.alloc n]> h, r).

(** [buf.reverse()]: reverses [buf] in place (and returns [buf]). *)
Definition reverse (r : nat) (h : gmap nat (list byte)) : gmap nat (list byte) :=
  alter reverse r h.

(** [src.copy(target, targetStart)]. *)
Definition copy (src target : nat) (targetStart : nat)
    (h : gmap nat (list byte)) : gmap nat (list byte) :=
  match h !! src, h !! target with
  | Some s, Some t => <[target := Buffer.copy s t targetStart]> h
  | _, _ => h
  end.

Definition length (r : nat) (h : gmap nat (list byte)) : nat :=
  List.length (default [] (h !! r)).

(** [buf.writeUIntLE(v, o, n)] on the buffer behind a reference; returns
    the offset after the written bytes. *)
Definition writeUIntLE (r : nat) (v : Z) (o n : nat)
    (h : gmap nat (list byte)) : gmap nat (list byte) * result nat :=
  match Buffer.writeUIntLE (default [] (h !! r)) v o n with
  | Ok (buf, o') => (<[r := buf]> h, Ok o')
  | Throw e => (h, Throw e)
  end.

End Store.

Module LeEncrypt.

(** [[
    if (key.length !== 16 || plaintextData.length !== 16) {
      throw makeHciError(HciErrorCode.InvalidCommandParameter);
    }
    const payload = Buffer.allocUnsafe(32);
    key.reverse().copy(payload, 0);
    plaintextData.reverse().copy(payload, 16);
    return payload;
    ]]
    [HciError.ts] is not among the sources: the value of
    [HciErrorCode.InvalidCommandParameter] is the first parameter.
    Returns the store after the call and the reference of the payload. *)
Definition inParams (InvalidCommandParameter : Z) (key plaintextData : nat)
    (h : gmap nat (list byte)) : gmap nat (list byte) * result nat :=
  if decide (Store.length key h ≠ 16%nat
             \/ Store.length plaintextData h ≠ 16%nat)
  then (h, Throw (HciError InvalidCommandParameter))
  else
    let '(h, payload) := Store.allocUnsafe 32 h in
    let h := Store.reverse key h in
    let h := Store.copy key payload 0 h in
    let h := Store.reverse plaintextData h in
    let h := Store.copy plaintextData payload 16 h in
    (h, Ok payload).

End LeEncrypt.

(** ** [HciLeController.ts]: LE supported states *)

Inductive LeState :=
  | ScanUndirectAdv
  | ConnScanUndirectAdv
  | NonConnNonScanUndirectAdv
  | HighDutyConnDirectAdv
  | LowDutyConnDirectAdv
  | ActiveScanning
  | PassiveScanning
  | Initiating
  | ConnectionMasterRole
  | ConnectionSlaveRole.

Definition LeAllowedStates : list (list LeState) := [
  [NonConnNonScanUndirectAdv                      ]; (* bit0 *)
  [ScanUndirectAdv                                ]; (* bit1 *)
  [ConnScanUndirectAdv                            ]; (* bit2 *)
  [HighDutyConnDirectAdv                          ]; (* bit3 *)
  [PassiveScanning                                ]; (* bit4 *)
  [ActiveScanning                                 ]; (* bit5 *)
  [Initiating                                     ]; (* bit6 *)
  [ConnectionSlaveRole                            ]; (* bit7 *)
  [NonConnNonScanUndirectAdv; PassiveScanning     ]; (* bit8 *)
  [ScanUndirectAdv;           PassiveScanning     ]; (* bit9 *)
  [ConnScanUndirectAdv;       PassiveScanning     ]; (* bit10 *)
  [HighDutyConnDirectAdv;     PassiveScanning     ]; (* bit11 *)
  [NonConnNonScanUndirectAdv; ActiveScanning      ]; (* bit12 *)
  [ScanUndirectAdv;           ActiveScanning      ]; (* bit13 *)
  [ConnScanUndirectAdv;       ActiveScanning      ]; (* bit14 *)
  [HighDutyConnDirectAdv;     ActiveScanning      ]; (* bit15 *)
  [NonConnNonScanUndirectAdv; Initiating          ]; (* bit16 *)
  [ScanUndirectAdv;           Initiating          ]; (* bit17 *)
  [NonConnNonScanUndirectAdv; ConnectionMasterRole]; (* bit18 *)
  [ScanUndirectAdv;           ConnectionMasterRole]; (* bit19 *)
  [NonConnNonScanUndirectAdv; ConnectionSlaveRole ]; (* bit20 *)
  [ScanUndirectAdv;           ConnectionSlaveRole ]; (* bit21 *)
  [PassiveScanning;           Initiating          ]; (* bit22 *)
  [ActiveScanning;            Initiating          ]; (* bit23 *)
  [PassiveScanning;           ConnectionMasterRole]; (* bit24 *)
  [ActiveScanning;            ConnectionMasterRole]; (* bit25 *)
  [PassiveScanning;           ConnectionSlaveRole ]; (* bit26 *)
  [ActiveScanning;            ConnectionSlaveRole ]; (* bit27 *)
  [Initiating;                ConnectionMasterRole]; (* bit28 *)
  [LowDutyConnDirectAdv                           ]; (* bit29 *)
  [LowDutyConnDirectAdv;      PassiveScanning     ]; (* bit30 *)
  [LowDutyConnDirectAdv;      ActiveScanning      ]; (* bit31 *)
  [ConnScanUndirectAdv;       Initiating          ]; (* bit32 *)
  [HighDutyConnDirectAdv;     Initiating          ]; (* bit33 *)
  [LowDutyConnDirectAdv;      Initiating          ]; (* bit34 *)
  [ConnScanUndirectAdv;       ConnectionMasterRole]; (* bit35 *)
  [HighDutyConnDirectAdv;     ConnectionMasterRole]; (* bit36 *)
  [LowDutyConnDirectAdv;      ConnectionMasterRole]; (* bit37 *)
  [ConnScanUndirectAdv;       ConnectionSlaveRole ]; (* bit38 *)
  [HighDutyConnDirectAdv;     ConnectionSlaveRole ]; (* bit39 *)
  [LowDutyConnDirectAdv;      ConnectionSlaveRole ]; (* bit40 *)
  [Initiating;                ConnectionSlaveRole ]  (* bit41 *)
].

Module LeSupportedStates.

(** One turn of the loop of [fromBitmask]:
    [[
    if ((bitmask & (1n << b)) !== 0n) {
      states.push(LeAllowedStates[Number(b)]);
    }
    ]]
    [bigint] operators are those of [Z].  The table has an entry for
    every [b] the loop visits (lemma [LeAllowedStates_length]). *)
Definition step (bitmask : Z) (states : list (list LeState)) (b : Z)
  : list (list LeState) :=
  if decide (Z.land bitmask (Z.shiftl 1 b) ≠ 0)
  then states ++ [default [] (LeAllowedStates !! Z.to_nat b)]
  else states.

(** [for (let b = 0n; b <= 41n; b++) { ... }]; the result is the
    [states] member of the object returned. *)
Definition fromBitmask (bitmask : Z) : list (list LeState) :=
  foldl (step bitmask) [] (seqZ 0 42).

(** [[
    if (!params || params.length < (64/8)) {
      throw makeParserError(HciParserError.InvalidPayloadSize);
    }
    const bitmask = params.readBigUInt64LE(0);
    return LeSupportedStates.fromBitmask(bitmask);
    ]]
    [None] is an absent [params]. *)
Definition outParams (params : option (list byte))
  : result (list (list LeState)) :=
  match params with
  | None => Throw (ParserError InvalidPayloadSize)
  | Some params =>
      if decide (length params < 8)%nat
      then Throw (ParserError InvalidPayloadSize)
      else
        bitmask ← Buffer.readBigUInt64LE params 0;
        Ok (fromBitmask bitmask)
  end.

End LeSupportedStates.

(** The bits of [bitmask] among [0 .. 41] that are set, in increasing
    order. *)
Definition setBits (bitmask : Z) : list Z :=
  filter (fun b => Z.testbit bitmask b = true) (seqZ 0 42).

(** ** [HciLeController.ts]: parameters of further commands *)

Module LeReadBufferSizeV2.

Record LeBufferSizeV2 := {
  leAclDataPacketLength : Z;
  totalNumLeAclDataPackets : Z;
  isoDataPacketLength : Z;
  totalNumIsoDataPackets : Z;
}.

(** [[
    if (!params || params.length < 6) {
      throw makeParserError(HciParserError.InvalidPayloadSize);
    }
    return {
      leAclDataPacketLength:    params.readUInt16LE(0),
      totalNumLeAclDataPackets: params.readUInt8(2),
      isoDataPacketLength:      params.readUInt16LE(3),
      totalNumIsoDataPackets:   params.readUInt8(5),
    };
    ]] *)
Definition outParams (params : option (list byte)) : result LeBufferSizeV2 :=
  match params with
  | None => Throw (ParserError InvalidPayloadSize)
  | Some params =>
      if decide (length params < 6)%nat
      then Throw (ParserError InvalidPayloadSize)
      else
        aclLength ← Buffer.readUInt16LE params 0;
        aclPackets ← Buffer.readUInt8 params 2;
        isoLength ← Buffer.readUInt16LE params 3;
        isoPackets ← Buffer.readUInt8 params 5;
        Ok {| leAclDataPacketLength := aclLength;
              totalNumLeAclDataPackets := aclPackets;
              isoDataPacketLength := isoLength;
              totalNumIsoDataPackets := isoPackets |}
  end.

End LeReadBufferSizeV2.

Module LeSetAdvertisingScanResponseData.

(** [[
    if (data.length > 31) {
      throw makeHciError(HciErrorCode.InvalidCommandParameter);
    }
    const payload = Buffer.alloc(1+31, 0);
    payload.writeUInt8(data.length, 0);
    data.copy(payload, 1);
    return payload;
    ]]
    The value of [HciErrorCode.InvalidCommandParameter] is the first
    parameter, as for [LeEncrypt.inParams]. *)
Definition inParams (InvalidCommandParameter : Z) (data : list byte)
  : result (list byte) :=
  if decide (31 < length data)%nat
  then Throw (HciError InvalidCommandParameter)
  else
    let payload := Buffer.alloc (1 + 31) in
    '(payload, _) ← Buffer.writeUInt8 payload (Z.of_nat (length data)) 0;
    Ok (Buffer.copy data payload 1).

End LeSetAdvertisingScanResponseData.

Module LeReadChannelMap.

(** [[
    const payload = Buffer.allocUnsafe(2);
    payload.writeUIntLE(connHandle, 0, 2);
    return payload;
    ]] *)
Definition inParams (connHandle : Z) : result (list byte) :=
  let payload := Buffer.alloc 2 in
  '(payload, _) ← Buffer.writeUIntLE payload connHandle 0 2;
  Ok payload.

(** [[
    if (!params || params.length < 7) {
      throw makeParserError(HciParserError.InvalidPayloadSize);
    }
    return params.readUIntLE(2, 5);
    ]] *)
Definition outParams (params : option (list byte)) : result Z :=
  match params with
  | None => Throw (ParserError InvalidPayloadSize)
  | Some params =>
      if decide (length params < 7)%nat
      then Throw (ParserError InvalidPayloadSize)
      else Buffer.readUIntLE params 2 5
  end.

End LeReadChannelMap.

Module LeEnableEncryption.

(** [interface LeEnableEncryption]; the two buffers are references into
    the store. *)
Record t := {
  randomNumber : nat;
  encryptedDiversifier : Z;
  longTermKey : nat;
}.

(** [[
    if (params.randomNumber.length !== 8 || params.longTermKey.length !== 16) {
      throw makeHciError(HciErrorCode.InvalidCommandParameter);
    }
    const payload = Buffer.allocUnsafe(2+8+2+16);
    let o = 0;
    o  = payload.writeUIntLE(connHandle, o, 2);
    o += params.randomNumber.reverse().copy(payload, o);
    o  = payload.writeUIntLE(params.encryptedDiversifier, o, 2);
    o += params.longTermKey.reverse().copy(payload, o);
    return payload;
    ]]
    [copy] returns the number of bytes copied.  Returns the store after
    the call and the reference of the payload, or what was thrown. *)
Definition inParams (InvalidCommandParameter : Z) (connHandle : Z) (params : t)
    (h : gmap nat (list byte)) : gmap nat (list byte) * result nat :=
  if decide (Store.length (randomNumber params) h ≠ 8%nat
             \/ Store.length (longTermKey params) h ≠ 16%nat)
  then (h, Throw (HciError InvalidCommandParameter))
  else
    let '(h, payload) := Store.allocUnsafe (2 + 8 + 2 + 16) h in
    match Store.writeUIntLE payload connHandle 0 2 h with
    | (h, Throw e) => (h, Throw e)
    | (h, Ok o) =>
        let h := Store.reverse (randomNumber params) h in
        let copied := min (Store.length (randomNumber params) h)
                          (Store.length payload h - o) in
        let h := Store.copy (randomNumber params) payload o h in
        let o := (o + copied)%nat in
        match Store.writeUIntLE payload (encryptedDiversifier params) o 2 h with
        | (h, Throw e) => (h, Throw e)
        | (h, Ok o) =>
            let h := Store.reverse (longTermKey params) h in
            let h := Store.copy (longTermKey params) payload o h in
            (h, Ok payload)
        end
    end.

End LeEnableEncryption.

Module LeExtAdvEventTypeParser.

(** [interface LeExtAdvEventType]; [DataStatus] is a member of
    [enum LeExtAdvEventTypeDataStatus], a number. *)
Record LeExtAdvEventType := {
  ConnectableAdvertising : bool;
  ScannableAdvertising : bool;
  DirectedAdvertising : bool;
  ScanResponse : bool;
  LegacyAdvertisingPDUs : bool;
  DataStatus : option Z;
}.

Definition offsets : list Z := [0; 1; 2; 3; 4; 5].
Definition masks   : list Z := [1; 1; 1; 1; 1; 3].

(** [[
    const fields = [];
    for (let i = 0; i < this.offsets.length; i++) {
      fields.push((type >> this.offsets[i]) & this.masks[i]);
    }
    ]] *)
Definition fields (type : Z) : list Z :=
  (fun i => js_and (js_sar type (default 0 (offsets !! i)))
                   (default 0 (masks !! i)))
    <$> seq 0 (length offsets).

(** [fields[i] ? true : false]; [None] is [undefined]. *)
Definition truthy (v : option Z) : bool :=
  match v with
  | Some v => bool_decide (v ≠ 0)
  | None => false
  end.

Definition parse (type : Z) : LeExtAdvEventType :=
  let fields := fields type in
  {| ConnectableAdvertising := truthy (fields !! 0%nat);
     ScannableAdvertising   := truthy (fields !! 1%nat);
     DirectedAdvertising    := truthy (fields !! 2%nat);
     ScanResponse           := truthy (fields !! 3%nat);
     LegacyAdvertisingPDUs  := truthy (fields !! 4%nat);
     DataStatus             := fields !! 5%nat |}.

End LeExtAdvEventTypeParser.

(** * Part II: properties *)
(** ** Bytes *)

Lemma u8_range b : 0 <= u8 b < 256.
Proof.
  unfold u8. pose proof (Byte.to_N_bounded b). lia.
Qed.

Lemma byte_of_Z_u8 b : byte_of_Z (u8 b) = b.
Proof.
  unfold byte_of_Z. rewrite Z.mod_small by apply u8_range.
  unfold u8. rewrite N2Z.id, Byte.of_to_N. reflexivity.
Qed.

Lemma u8_byte_of_Z z : 0 <= z < 256 -> u8 (byte_of_Z z) = z.
Proof.
  intros Hz. unfold byte_of_Z. rewrite Z.mod_small by lia.
  destruct (Byte.of_N (Z.to_N z)) as [b|] eqn:E.
  - apply Byte.to_of_N in E. unfold u8. rewrite E. lia.
  - apply Byte.of_N_None_iff in E. lia.
Qed.


(** ** The opcode *)

Lemma int32_small z : - 2 ^ 31 <= z < 2 ^ 31 -> int32 z = z.
Proof.
  intros Hz. unfold int32. rewrite Z.mod_small; lia.
Qed.


(** For in-range fields the packed opcode is [ogf * 1024 + ocf]. *)
Lemma build_value g c :
  0 <= g < 64 -> 0 <= c < 1024 ->
  HciOpcode.build {| HciOpcode.ogf := g; HciOpcode.ocf := c |} = g * 1024 + c.
Proof.
  intros Hg Hc. unfold HciOpcode.build, js_or, js_shl.
  cbn [HciOpcode.ogf HciOpcode.ocf].
  change (10 mod 32) with 10.
  rewrite (int32_small g) by lia.
  rewrite Z.shiftl_mul_pow2 by lia. change (2 ^ 10) with 1024.
  rewrite !(int32_small (g * 1024)) by lia.
  rewrite (int32_small c) by lia.
  symmetry. apply Z.add_nocarry_lor.
  apply Z.bits_inj'. intros n Hn.
  rewrite Z.land_spec, Z.bits_0.
  destruct (Z.lt_ge_cases n 10) as [Hlt|Hge].
  - change 1024 with (2 ^ 10). rewrite Z.mul_pow2_bits_low by lia. reflexivity.
  - rewrite (Z.bits_above_log2 c n).
    + apply andb_false_r.
    + lia.
    + destruct (Z.eq_dec c 0) as [->|Hne]; [simpl; lia|].
      apply Z.log2_lt_pow2; [lia|].
      apply Z.lt_le_trans with (2 ^ 10); [lia|].
      apply Z.pow_le_mono_r; lia.
Qed.

(** C5. Opcode round trip: for every [ogf] in [0, 64) and [ocf] in
    [0, 1024), [HciOpcode.expand (HciOpcode.build {ogf, ocf})] is
    exactly [{ogf, ocf}]. *)
Theorem opcode_roundtrip (g c : Z) :
  0 <= g < 64 -> 0 <= c < 1024 ->
  HciOpcode.expand (HciOpcode.build {| HciOpcode.ogf := g; HciOpcode.ocf := c |})
  = {| HciOpcode.ogf := g; HciOpcode.ocf := c |}.
Proof.
  intros Hg Hc. rewrite build_value by assumption.
  unfold HciOpcode.expand, js_sar, js_and.
  rewrite (int32_small (g * 1024 + c)) by lia.
  rewrite (int32_small 1023) by lia.
  change (10 mod 32) with 10.
  f_equal.
  - rewrite Z.shiftr_div_pow2 by lia. change (2 ^ 10) with 1024.
    rewrite Z.div_add_l by lia. rewrite Z.div_small by lia. lia.
  - change 1023 with (Z.ones 10). rewrite Z.land_ones by lia.
    change (2 ^ 10) with 1024.
    rewrite Z.add_comm, Z.mod_add by lia. apply Z.mod_small. lia.
Qed.

Lemma opcode_roundtrip_witness :
  HciOpcode.expand (HciOpcode.build {| HciOpcode.ogf := 3; HciOpcode.ocf := 3 |})
  = {| HciOpcode.ogf := 3; HciOpcode.ocf := 3 |}.
Proof. apply opcode_roundtrip; lia. Defined.


(** ** The command engine *)

Section Engine.

Implicit Types (s : Hci.t) (c : Hci.Closure) (cmd : HciCommand.t).
Implicit Types (data : list byte) (evt : HciEvtCmdComplete.t).

Lemma quiet_refl s : quiet s s.
Proof. repeat split. Qed.

Lemma quiet_trans s1 s2 s3 : quiet s1 s2 -> quiet s2 s3 -> quiet s1 s3.
Proof.
  unfold quiet. intros (?&?&?&?&?&?) (?&?&?&?&?&?).
  repeat split; congruence.
Qed.

Lemma quiet_emit d s : quiet s (Hci.emit d s).
Proof. repeat split. Qed.

Lemma quiet_awaiting s s' c : quiet s s' -> Hci.awaiting s c -> Hci.awaiting s' c.
Proof.
  unfold quiet, Hci.awaiting. intros (Ht&?&Hc&Htm&Hp&?) (?&?&?).
  rewrite Ht, Hc, Htm, Hp. auto.
Qed.

(** [onData] on a packet that carries a Command Complete event runs the
    stored closure on it. *)
Lemma onData_cmdComplete data evt s :
  cmdCompleteEvent data = Some evt ->
  Hci.onData data s =
    match Hci.onCmdComplete s with
    | Some c => Hci.handler c evt s
    | None => s
    end.
Proof.
  unfold cmdCompleteEvent, Hci.onData, HCI_EVT_CMD_COMPLETE.
  destruct data as [|e [|l [|n [|lo [|hi [|st ret]]]]]]; try discriminate.
  case_decide as Hd; [|discriminate]. destruct Hd as [He Hl].
  intros [= <-].
  rewrite decide_False by (cbn [length]; lia).
  rewrite decide_True by assumption.
  destruct (Hci.onCmdComplete s); [|reflexivity].
  do 2 f_equal. cbn [Buffer.le_value]. lia.
Qed.

(** On any other packet it changes nothing but the diagnostics. *)
Lemma onData_other data s :
  cmdCompleteEvent data = None -> quiet s (Hci.onData data s).
Proof.
  unfold cmdCompleteEvent, Hci.onData, HCI_EVT_CMD_COMPLETE.
  destruct data as [|e [|l payload]]; try (intros; apply quiet_refl).
  case_decide; [intros; apply quiet_emit|].
  case_decide; [|intros; apply quiet_refl].
  destruct payload as [|n [|lo [|hi [|st ret]]]];
    try (intros; apply quiet_emit).
  rewrite decide_True by (cbn [length] in *; lia). discriminate.
Qed.

(** A Command Complete for another opcode leaves the whole state as it
    is. *)
Lemma handler_mismatch c evt s :
  HciEvtCmdComplete.opcode evt ≠ Hci.cmdOpcode s -> Hci.handler c evt s = s.
Proof.
  intros Hne. unfold Hci.handler. rewrite decide_True by congruence.
  reflexivity.
Qed.

Lemma onData_mismatch data evt s :
  cmdCompleteEvent data = Some evt ->
  HciEvtCmdComplete.opcode evt ≠ Hci.cmdOpcode s ->
  Hci.onData data s = s.
Proof.
  intros Hevt Hne. rewrite (onData_cmdComplete _ _ _ Hevt).
  destruct (Hci.onCmdComplete s); [|reflexivity].
  by apply handler_mismatch.
Qed.

Lemma onData_notCompleting data s :
  notCompleting (Hci.cmdOpcode s) data -> quiet s (Hci.onData data s).
Proof.
  intros Hn. destruct (cmdCompleteEvent data) as [evt|] eqn:E.
  - rewrite (onData_mismatch _ _ _ E) by auto. apply quiet_refl.
  - by apply onData_other.
Qed.

Lemma foldl_onData_notCompleting (events : list (list byte)) s :
  Forall (notCompleting (Hci.cmdOpcode s)) events ->
  quiet s (foldl (fun s data => Hci.onData data s) s events).
Proof.
  revert s. induction events as [|data events IH]; intros s Hall.
  - apply quiet_refl.
  - inversion Hall as [|? ? Hd Hrest]; subst. cbn [foldl].
    pose proof (onData_notCompleting _ _ Hd) as Hq.
    apply (quiet_trans _ _ _ Hq). apply IH.
    destruct Hq as (_&->&_). assumption.
Qed.

(** What [complete] does to a waiting caller. *)
Lemma complete_awaiting s c outcome :
  Hci.awaiting s c ->
  let s' := Hci.complete c outcome s in
  Hci.onCmdComplete s' = None
  /\ Hci.promises s' !! Hci.promiseId c = Some outcome
  /\ Hci.timers s' !! Hci.timeoutId c = Some None
  /\ Hci.sent s' = Hci.sent s.
Proof.
  intros (_ & Hp & Ht). cbn. repeat split.
  - rewrite list_lookup_alter_eq, Hp. reflexivity.
  - apply list_lookup_insert_eq. by eapply lookup_lt_Some.
Qed.

Lemma expire_awaiting s c :
  Hci.awaiting s c ->
  Hci.expire (Hci.timeoutId c) s
  = Hci.complete c (Rejected (ParserError Timeout)) s.
Proof.
  intros (_ & _ & Ht). unfold Hci.expire. rewrite Ht. cbn.
  by destruct c.
Qed.

(** [send] on an idle engine. *)
Lemma send_idle cmd s :
  Hci.onCmdComplete s = None ->
  Hci.send cmd s =
    let p := length (Hci.promises s) in
    let s1 :=
      {| Hci.cmdTimeout := Hci.cmdTimeout s;
         Hci.cmdOpcode := HciCommand.opcode cmd;
         Hci.onCmdComplete :=
           Some {| Hci.timeoutId := length (Hci.timers s); Hci.promiseId := p |};
         Hci.timers :=
           Hci.timers s ++ [Some {| Hci.delay := Hci.cmdTimeout s; Hci.owner := p |}];
         Hci.promises := Hci.promises s ++ [Pending];
         Hci.sent := Hci.sent s; Hci.emitted := Hci.emitted s |} in
    match Hci.buildBuffer cmd with
    | Ok buffer =>
        ({| Hci.cmdTimeout := Hci.cmdTimeout s1; Hci.cmdOpcode := Hci.cmdOpcode s1;
            Hci.onCmdComplete := Hci.onCmdComplete s1; Hci.timers := Hci.timers s1;
            Hci.promises := Hci.promises s1; Hci.sent := Hci.sent s1 ++ [buffer];
            Hci.emitted := Hci.emitted s1 |}, p)
    | Throw e => (Hci.settlePromise p (Rejected e) s1, p)
    end.
Proof.
  intros Hidle. unfold Hci.send. cbn. rewrite Hidle. reflexivity.
Qed.

Lemma send_idle_awaiting cmd s buffer :
  Hci.onCmdComplete s = None ->
  Hci.buildBuffer cmd = Ok buffer ->
  let s' := (Hci.send cmd s).1 in
  Hci.awaiting s'
    {| Hci.timeoutId := length (Hci.timers s);
       Hci.promiseId := (Hci.send cmd s).2 |}
  /\ (Hci.send cmd s).2 = length (Hci.promises s)
  /\ Hci.cmdOpcode s' = HciCommand.opcode cmd
  /\ Hci.cmdTimeout s' = Hci.cmdTimeout s
  /\ Hci.sent s' = Hci.sent s ++ [buffer].
Proof.
  intros Hidle Hbuf. rewrite (send_idle _ _ Hidle), Hbuf. cbn.
  repeat split.
  - by apply list_lookup_middle.
  - by apply list_lookup_middle.
Qed.

End Engine.

(** *** The command packet *)

Lemma buildBuffer_layout (cmd : HciCommand.t) (buffer : list byte) :
  Hci.buildBuffer cmd = Ok buffer ->
  let parameters := default [] (HciCommand.params cmd) in
  buffer = byte_of_Z (HciCommand.opcode cmd)
           :: byte_of_Z (HciCommand.opcode cmd / 256)
           :: byte_of_Z (Z.of_nat (length parameters))
           :: parameters
  /\ 0 <= HciCommand.opcode cmd < 65536
  /\ (length parameters <= 255)%nat.
Proof.
  unfold Hci.buildBuffer, Buffer.writeUInt16LE, Buffer.writeUInt8,
    Buffer.writeUIntLE.
  destruct cmd as [opcode params]. cbn [HciCommand.opcode HciCommand.params].
  set (n := match params with Some p => length p | None => 0%nat end).
  assert (Hn : n = length (default [] params)) by (by destruct params).
  destruct (decide (0 <= opcode < 256 ^ Z.of_nat 2)) as [Hop|];
    [|intros H; discriminate H].
  rewrite decide_True by (unfold Buffer.alloc; rewrite length_replicate; lia).
  cbn [mbind result_bind].
  destruct (decide (0 <= Z.of_nat n < 256 ^ Z.of_nat 1)) as [Hlen|];
    [|intros H; discriminate H].
  change (256 ^ Z.of_nat 2) with 65536 in Hop.
  change (256 ^ Z.of_nat 1) with 256 in Hlen.
  cbn [Buffer.le_bytes Buffer.alloc Nat.add replicate Buffer.copy length
         take drop Nat.sub app].
  rewrite decide_True by (cbn [length]; rewrite length_replicate; lia).
  cbn [mbind result_bind Buffer.copy length take drop Nat.sub Nat.add app].
  rewrite length_replicate.
  intros Hbuf. cbn zeta. rewrite <- Hn. split; [|lia].
  destruct params as [p|]; cbn [default] in *.
  - case_decide as Hpos.
    + injection Hbuf as <-. cbn [Buffer.copy length take drop Nat.sub Nat.add app].
      rewrite take_nil. cbn [app]. subst n. rewrite !drop_0.
      rewrite length_replicate, drop_replicate, Nat.sub_diag, Nat.sub_0_r.
      rewrite take_ge by lia. cbn [replicate]. by rewrite app_nil_r.
    + injection Hbuf as <-. destruct p; [reflexivity|cbn [length] in *; lia].
  - by injection Hbuf as <-.
Qed.

Lemma buildBuffer_total (cmd : HciCommand.t) :
  0 <= HciCommand.opcode cmd < 65536 ->
  (length (default [] (HciCommand.params cmd)) <= 255)%nat ->
  exists buffer, Hci.buildBuffer cmd = Ok buffer.
Proof.
  intros Hop Hlen.
  unfold Hci.buildBuffer, Buffer.writeUInt16LE, Buffer.writeUInt8,
    Buffer.writeUIntLE.
  destruct cmd as [opcode params]. cbn [HciCommand.opcode HciCommand.params] in *.
  set (n := match params with Some p => length p | None => 0%nat end).
  assert (Hn : n = length (default [] params)) by (by destruct params).
  rewrite (decide_True (P := 0 <= opcode < _))
    by (change (256 ^ Z.of_nat 2) with 65536; lia).
  rewrite decide_True by (unfold Buffer.alloc; rewrite length_replicate; lia).
  cbn [mbind result_bind].
  rewrite (decide_True (P := 0 <= Z.of_nat n < _))
    by (change (256 ^ Z.of_nat 1) with 256; lia).
  rewrite decide_True
    by (unfold Buffer.copy, Buffer.alloc; cbn [Buffer.le_bytes length];
        repeat rewrite ?length_app, ?length_take, ?length_drop,
          ?length_replicate; cbn [length]; lia).
  cbn [mbind result_bind].
  destruct params; [case_decide|]; eauto.
Qed.

Lemma u8_byte_of_Z_mod z : u8 (byte_of_Z z) = z mod 256.
Proof.
  pose proof (Z.mod_pos_bound z 256 ltac:(lia)) as Hm.
  unfold byte_of_Z.
  destruct (Byte.of_N (Z.to_N (z mod 256))) as [b|] eqn:E.
  - apply Byte.to_of_N in E. unfold u8. rewrite E. lia.
  - apply Byte.of_N_None_iff in E. lia.
Qed.

Lemma resetCommand_opcode : HciCommand.opcode Hci.resetCommand = 0x0C03.
Proof. reflexivity. Qed.

Lemma resetCommand_buffer : Hci.buildBuffer Hci.resetCommand = Ok [x03; x0c; x00].
Proof. reflexivity. Qed.

Lemma alter_last {A} (f : A -> A) (l : list A) (x : A) :
  alter f (length l) (l ++ [x]) = l ++ [f x].
Proof.
  rewrite <- (Nat.add_0_r (length l)). by rewrite alter_app_r.
Qed.

(** *** The properties of the engine *)

(** C1. While a command is pending, a new submission is rejected with
    [Busy] before [send] returns; nothing is handed to the transport,
    no timer is armed, and the pending slot and the recorded opcode stay
    as they are. *)
Theorem send_while_pending_is_busy
    (s : Hci.t) (cmd : HciCommand.t) (c : Hci.Closure) :
  Hci.onCmdComplete s = Some c ->
  let s' := (Hci.send cmd s).1 in
  let p := (Hci.send cmd s).2 in
  Hci.promises s' = Hci.promises s ++ [Rejected (ParserError Busy)]
  /\ Hci.promises s' !! p = Some (Rejected (ParserError Busy))
  /\ Hci.sent s' = Hci.sent s
  /\ Hci.onCmdComplete s' = Some c
  /\ Hci.cmdOpcode s' = Hci.cmdOpcode s
  /\ Hci.timers s' = Hci.timers s.
Proof.
  intros Hbusy. unfold Hci.send. cbn. rewrite Hbusy. cbn.
  rewrite alter_last. cbn. repeat split.
  by apply list_lookup_middle.
Qed.

Lemma send_while_pending_is_busy_witness :
  let s := (Hci.reset (Hci.new None)).1 in
  Hci.promises (Hci.send Hci.resetCommand s).1 !! (Hci.send Hci.resetCommand s).2
  = Some (Rejected (ParserError Busy))
  /\ Hci.sent (Hci.send Hci.resetCommand s).1 = [[x03; x0c; x00]].
Proof.
  intros s.
  destruct (send_while_pending_is_busy s Hci.resetCommand
              {| Hci.timeoutId := 0; Hci.promiseId := 0 |} eq_refl)
    as (_ & Hp & Hs & _).
  split; [exact Hp | exact Hs].
Defined.

(** C2. A command is submitted on an idle engine; the packets delivered
    afterwards are none of them a Command Complete for its opcode.  The
    timer armed by the submission runs for [cmdTimeout] (2000 when the
    engine was built without one).  When it expires the caller, who was
    still waiting, is rejected with [Timeout] and the slot is cleared,
    and the next submission is not rejected with [Busy]: its packet goes
    to the transport and its caller waits. *)
Theorem timeout_rejects_and_frees_slot
    (s : Hci.t) (cmd cmd' : HciCommand.t) (buffer buffer' : list byte)
    (events : list (list byte)) :
  Hci.onCmdComplete s = None ->
  Hci.buildBuffer cmd = Ok buffer ->
  Hci.buildBuffer cmd' = Ok buffer' ->
  Forall (notCompleting (HciCommand.opcode cmd)) events ->
  let s1 := (Hci.send cmd s).1 in
  let p := (Hci.send cmd s).2 in
  let id := length (Hci.timers s) in
  let s2 := foldl (fun s data => Hci.onData data s) s1 events in
  let s3 := Hci.expire id s2 in
  let s4 := (Hci.send cmd' s3).1 in
  let p' := (Hci.send cmd' s3).2 in
  Hci.timers s1 !! id
    = Some (Some {| Hci.delay := Hci.cmdTimeout s; Hci.owner := p |})
  /\ Hci.cmdTimeout (Hci.new None) = 2000
  /\ Hci.promises s2 !! p = Some Pending
  /\ Hci.promises s3 !! p = Some (Rejected (ParserError Timeout))
  /\ Hci.onCmdComplete s3 = None
  /\ Hci.promises s4 !! p' = Some Pending
  /\ Hci.promises s4 !! p = Some (Rejected (ParserError Timeout))
  /\ Hci.sent s4 = Hci.sent s3 ++ [buffer']
  /\ Hci.onCmdComplete s4 ≠ None
  /\ Hci.cmdOpcode s4 = HciCommand.opcode cmd'.
Proof.
  intros Hidle Hbuf Hbuf' Hev. intros s1 p id s2 s3 s4 p'.
  destruct (send_idle_awaiting cmd s buffer Hidle Hbuf)
    as (Haw & Hp & Hop & Hto & _).
  fold s1 p id in Haw, Hp, Hop, Hto.
  set (c := {| Hci.timeoutId := id; Hci.promiseId := p |}) in *.
  assert (Hq : quiet s1 s2).
  { apply foldl_onData_notCompleting. by rewrite Hop. }
  pose proof (quiet_awaiting _ _ _ Hq Haw) as Haw2.
  assert (Hs3 : s3 = Hci.complete c (Rejected (ParserError Timeout)) s2)
    by apply (expire_awaiting s2 c Haw2).
  destruct (complete_awaiting s2 c (Rejected (ParserError Timeout)) Haw2)
    as (Hslot3 & Hp3 & _ & _).
  rewrite <- Hs3 in Hslot3, Hp3. cbn [Hci.promiseId c] in Hp3.
  destruct (send_idle_awaiting cmd' s3 buffer' Hslot3 Hbuf')
    as (Haw4 & Hp' & Hop4 & _ & Hsent4).
  fold s4 p' in Haw4, Hp', Hop4, Hsent4.
  destruct Haw4 as (Hslot4 & Hp4 & _). cbn in Hp4.
  repeat split.
  - destruct Haw as (_ & _ & Ht). cbn in Ht. by rewrite Hto in Ht.
  - by destruct Haw2 as (_ & ? & _).
  - exact Hp3.
  - exact Hslot3.
  - exact Hp4.
  - unfold s4. rewrite (send_idle _ _ Hslot3), Hbuf'. cbn.
    rewrite lookup_app_l by (by eapply lookup_lt_Some). exact Hp3.
  - exact Hsent4.
  - by rewrite Hslot4.
  - exact Hop4.
Qed.

Lemma timeout_rejects_and_frees_slot_witness :
  let s1 := (Hci.reset (Hci.new None)).1 in
  let s2 := Hci.onData [x0e; x04; x01; x01; x10; x00] s1 in
  let s3 := Hci.expire 0 s2 in
  Hci.promises s3 !! 0%nat = Some (Rejected (ParserError Timeout))
  /\ Hci.onCmdComplete s3 = None
  /\ Hci.promises (Hci.reset s3).1 !! 1%nat = Some Pending.
Proof.
  intros s1 s2 s3.
  assert (Hev : Forall (notCompleting (HciCommand.opcode Hci.resetCommand))
                  [[x0e; x04; x01; x01; x10; x00]]).
  { constructor; [|constructor]. intros evt [= <-]. vm_compute. discriminate. }
  destruct (timeout_rejects_and_frees_slot (Hci.new None)
              Hci.resetCommand Hci.resetCommand [x03; x0c; x00] [x03; x0c; x00]
              [[x0e; x04; x01; x01; x10; x00]]
              eq_refl eq_refl eq_refl Hev)
    as (_ & _ & _ & H3 & Hslot & H4 & _).
  split; [exact H3 | split; [exact Hslot | exact H4]].
Defined.

(** C3. While a command whose opcode is [cmdOpcode s] is pending and its
    caller waits, a well-formed Command Complete event for another
    opcode leaves the engine exactly as it was: the caller is neither
    resolved nor rejected and the slot keeps the command.  Afterwards a
    Command Complete for the pending opcode still completes the caller
    (resolved on status Success, rejected with the controller's status
    otherwise), and so does the expiry of the timer (rejected with
    [Timeout]). *)
Theorem mismatched_command_complete_is_ignored
    (s : Hci.t) (c : Hci.Closure) (data data' : list byte)
    (evt evt' : HciEvtCmdComplete.t) :
  Hci.awaiting s c ->
  cmdCompleteEvent data = Some evt ->
  HciEvtCmdComplete.opcode evt ≠ Hci.cmdOpcode s ->
  cmdCompleteEvent data' = Some evt' ->
  HciEvtCmdComplete.opcode evt' = Hci.cmdOpcode s ->
  let s1 := Hci.onData data s in
  let later := Hci.onData data' s1 in
  let expired := Hci.expire (Hci.timeoutId c) s1 in
  s1 = s
  /\ Hci.promises s1 !! Hci.promiseId c = Some Pending
  /\ Hci.onCmdComplete s1 = Some c
  /\ Hci.cmdOpcode s1 = Hci.cmdOpcode s
  /\ Hci.promises later !! Hci.promiseId c
     = Some (if decide (HciEvtCmdComplete.status evt' = HciErrorCode_Success)
             then Resolved evt'
             else Rejected (HciError (HciEvtCmdComplete.status evt')))
  /\ Hci.onCmdComplete later = None
  /\ Hci.promises expired !! Hci.promiseId c
     = Some (Rejected (ParserError Timeout))
  /\ Hci.onCmdComplete expired = None.
Proof.
  intros Haw Hevt Hne Hevt' Heq. intros s1 later expired.
  assert (Hs1 : s1 = s) by (by eapply onData_mismatch).
  subst later expired. rewrite Hs1.
  pose proof Haw as (Hslot & Hp & Ht).
  split; [reflexivity|]. split; [exact Hp|]. split; [exact Hslot|].
  split; [reflexivity|].
  rewrite (onData_cmdComplete _ _ _ Hevt'), Hslot.
  rewrite (expire_awaiting s c Haw).
  unfold Hci.handler. rewrite decide_False by (intros Hc; by apply Hc).
  destruct (complete_awaiting s c (Rejected (ParserError Timeout)) Haw)
    as (Hslot_t & Hp_t & _).
  destruct (decide (HciEvtCmdComplete.status evt' = HciErrorCode_Success)).
  - destruct (complete_awaiting s c (Resolved evt') Haw) as (? & ? & _).
    auto.
  - destruct (complete_awaiting s c
                (Rejected (HciError (HciEvtCmdComplete.status evt'))) Haw)
      as (? & ? & _).
    auto.
Qed.

Lemma mismatched_command_complete_is_ignored_witness :
  let s := (Hci.reset (Hci.new None)).1 in
  Hci.onData [x0e; x04; x01; x01; x10; x00] s = s
  /\ Hci.onCmdComplete (Hci.onData [x0e; x04; x01; x03; x0c; x00] s) = None.
Proof.
  intros s.
  destruct (mismatched_command_complete_is_ignored s
              {| Hci.timeoutId := 0; Hci.promiseId := 0 |}
              [x0e; x04; x01; x01; x10; x00] [x0e; x04; x01; x03; x0c; x00]
              {| HciEvtCmdComplete.numHciPackets := 1;
                 HciEvtCmdComplete.opcode := 0x1001;
                 HciEvtCmdComplete.status := 0;
                 HciEvtCmdComplete.returnParameters := [] |}
              {| HciEvtCmdComplete.numHciPackets := 1;
                 HciEvtCmdComplete.opcode := 0x0C03;
                 HciEvtCmdComplete.status := 0;
                 HciEvtCmdComplete.returnParameters := [] |})
    as (H1 & _ & _ & _ & _ & H2 & _).
  - repeat split; reflexivity.
  - reflexivity.
  - vm_compute. discriminate.
  - reflexivity.
  - reflexivity.
  - rewrite H1 in H2. split; [exact H1 | exact H2].
Defined.

(** C4. On an idle engine [reset()] hands exactly the bytes 03 0C 00 to
    the send callback (opcode 0x0C03, little-endian, and parameter
    length 0) and waits; feeding back the event 0E 04 01 03 0C 00 then
    resolves the call.  Every packet [buildBuffer] builds is the opcode
    in two bytes, little-endian, one byte holding the number of
    parameter bytes, and the parameters. *)
Theorem reset_round_trip_and_packet_layout
    (s : Hci.t) (cmd : HciCommand.t) (buffer : list byte) :
  Hci.onCmdComplete s = None ->
  Hci.buildBuffer cmd = Ok buffer ->
  let s1 := (Hci.reset s).1 in
  let p := (Hci.reset s).2 in
  let s2 := Hci.onData [x0e; x04; x01; x03; x0c; x00] s1 in
  let opcode := HciCommand.opcode cmd in
  let parameters := default [] (HciCommand.params cmd) in
  Hci.sent s1 = Hci.sent s ++ [[x03; x0c; x00]]
  /\ HciCommand.opcode Hci.resetCommand = 0x0C03
  /\ Hci.resetOutcome <$> Hci.promises s1 !! p = Some None
  /\ Hci.resetOutcome <$> Hci.promises s2 !! p = Some (Some (Ok tt))
  /\ (exists opcode_lo opcode_hi param_len,
        buffer = opcode_lo :: opcode_hi :: param_len :: parameters
        /\ u8 opcode_lo + 256 * u8 opcode_hi = opcode
        /\ u8 param_len = Z.of_nat (length parameters)).
Proof.
  intros Hidle Hbuf. intros s1 p s2 opcode parameters.
  destruct (send_idle_awaiting Hci.resetCommand s _ Hidle resetCommand_buffer)
    as (Haw & Hp & Hop & _ & Hsent).
  fold (Hci.reset s) in Haw, Hp, Hop, Hsent. fold s1 p in Haw, Hp, Hop, Hsent.
  set (c := {| Hci.timeoutId := length (Hci.timers s); Hci.promiseId := p |}) in *.
  split; [exact Hsent|]. split; [reflexivity|].
  split. { destruct Haw as (_ & Hpend & _). cbn in Hpend. by rewrite Hpend. }
  split.
  - set (evt := {| HciEvtCmdComplete.numHciPackets := 1;
                   HciEvtCmdComplete.opcode := 0x0C03;
                   HciEvtCmdComplete.status := 0;
                   HciEvtCmdComplete.returnParameters := [] |}).
    assert (Hs2 : s2 = Hci.complete c (Resolved evt) s1).
    { unfold s2. rewrite (onData_cmdComplete _ evt) by reflexivity.
      destruct Haw as (-> & _). unfold Hci.handler.
      rewrite decide_False by (rewrite Hop; intros Hc; by apply Hc).
      by rewrite decide_True by reflexivity. }
    destruct (complete_awaiting s1 c (Resolved evt) Haw) as (_ & Hres & _).
    rewrite Hs2. subst c. cbn [Hci.promiseId] in Hres. by rewrite Hres.
  - destruct (buildBuffer_layout cmd buffer Hbuf) as (Hlay & Hop' & Hlen).
    fold opcode parameters in Hlay, Hop', Hlen.
    exists (byte_of_Z opcode), (byte_of_Z (opcode / 256)),
      (byte_of_Z (Z.of_nat (length parameters))).
    split; [exact Hlay|]. rewrite !u8_byte_of_Z_mod. split.
    + rewrite (Z.mod_small (opcode / 256)).
      * rewrite Z.add_comm. symmetry. apply Z.div_mod. lia.
      * split; [apply Z.div_pos; lia | apply Z.div_lt_upper_bound; lia].
    + apply Z.mod_small. lia.
Qed.

Lemma reset_round_trip_and_packet_layout_witness :
  Hci.sent (Hci.reset (Hci.new None)).1 = [[x03; x0c; x00]]
  /\ exists opcode_lo opcode_hi param_len,
       [x01; x0c; x08; x90; xe8; x04; x02; x00; x80; x00; x20]
       = opcode_lo :: opcode_hi :: param_len
         :: [x90; xe8; x04; x02; x00; x80; x00; x20]
       /\ u8 opcode_lo + 256 * u8 opcode_hi = 0x0C01
       /\ u8 param_len = 8.
Proof.
  destruct (reset_round_trip_and_packet_layout (Hci.new None)
              {| HciCommand.opcode := 0x0C01;
                 HciCommand.params :=
                   Some [x90; xe8; x04; x02; x00; x80; x00; x20] |}
              [x01; x0c; x08; x90; xe8; x04; x02; x00; x80; x00; x20]
              eq_refl eq_refl)
    as (Hsent & _ & _ & _ & Hlay).
  split; [exact Hsent | exact Hlay].
Defined.

(** ** The ATT codecs *)

(** Outside the failing round trip [AttErrorRsp.deserialize] answers
    [null] as described: a non-empty buffer with another first byte or
    another length is refused. *)
Lemma AttErrorRsp_deserialize_refuses (b : byte) (buffer : list byte) :
  u8 b ≠ AttOpcode_ErrorRsp \/ length (b :: buffer) ≠ AttErrorRsp.size ->
  AttErrorRsp.deserialize (b :: buffer) = Ok None.
Proof.
  intros Hbad.
  assert (Hop : Buffer.readUInt8 (b :: buffer) 0 = Ok (u8 b + 256 * 0)).
  { unfold Buffer.readUInt8, Buffer.readUIntLE.
    rewrite decide_True by (cbn [length]; lia). reflexivity. }
  unfold AttErrorRsp.deserialize. rewrite Hop. cbn [mbind result_bind].
  rewrite decide_True; [reflexivity|].
  destruct Hbad as [Hb|Hlen]; [left; lia | by right].
Qed.

(** C6. The ATT Error Response codec on the record
    [{requestOpcodeInError: 0x08, attributeHandleInError: 0x0012,
    errorCode: 0x0A}]: [serialize] yields 01 08 12 00 0A, but
    [deserialize] of these bytes reads its three fields one byte too
    early and returns [{0x01, 0x1208, 0x00}], not the record.  A buffer
    with another first byte gives [null]; the empty buffer makes
    [readUInt8(0)] throw. *)
Theorem AttErrorRsp_round_trip_fails :
  let x := {| AttErrorRsp.requestOpcodeInError := 0x08;
              AttErrorRsp.attributeHandleInError := 0x0012;
              AttErrorRsp.errorCode := 0x0A |} in
  AttErrorRsp.serialize x = Ok [x01; x08; x12; x00; x0a]
  /\ AttErrorRsp.deserialize [x01; x08; x12; x00; x0a]
     = Ok (Some {| AttErrorRsp.requestOpcodeInError := 0x01;
                   AttErrorRsp.attributeHandleInError := 0x1208;
                   AttErrorRsp.errorCode := 0x00 |})
  /\ AttErrorRsp.deserialize [x01; x08; x12; x00; x0a] ≠ Ok (Some x)
  /\ AttErrorRsp.deserialize [x02; x08; x12; x00; x0a] = Ok None
  /\ AttErrorRsp.deserialize [x01; x08; x12; x00] = Ok None
  /\ AttErrorRsp.deserialize [] = Throw RangeError.
Proof.
  cbv zeta. split; [reflexivity|]. split; [reflexivity|].
  split; [intros H; vm_compute in H; discriminate H|].
  repeat (split; [reflexivity|]). reflexivity.
Qed.

(** C7. [AttFindInformationRsp.deserialize] tests the length modulo the
    UUID size, not modulo the size of an entry.  A format-1 buffer of 8
    bytes (6 bytes of entries, not a multiple of 4) is decoded, its
    second entry with an empty UUID; a well-formed format-2 response
    with one entry (18 bytes of entries) is refused.  The UUID of a
    decoded entry is the bytes of the buffer reversed, and the buffer
    itself ends up with these bytes reversed. *)
Theorem AttFindInformationRsp_checks_wrong_stride :
  AttFindInformationRsp.deserialize [x05; x01; x01; x00; x00; x28; x02; x00]
  = Done (Ok ([x05; x01; x01; x00; x28; x00; x02; x00],
              Some [ {| AttFindInformationRsp.handle := 1;
                        AttFindInformationRsp.uuid := [x28; x00] |};
                     {| AttFindInformationRsp.handle := 2;
                        AttFindInformationRsp.uuid := [] |} ]))
  /\ ((8 - 2) mod 4 ≠ 0)%nat
  /\ (let wellFormed :=
        [x05; x02; x01; x00;
         xfb; x34; x9b; x5f; x80; x00; x00; x80;
         x00; x10; x00; x00; x00; x28; x00; x00] in
      ((length wellFormed - 2) mod 18 = 0)%nat
      /\ AttFindInformationRsp.deserialize wellFormed
         = Done (Ok (wellFormed, None)))
  /\ AttFindInformationRsp.deserialize
       [x05; x01; x01; x00; x00; x28; x02; x00; x01; x28]
     = Done (Ok ([x05; x01; x01; x00; x28; x00; x02; x00; x28; x01],
                 Some [ {| AttFindInformationRsp.handle := 1;
                           AttFindInformationRsp.uuid := [x28; x00] |};
                        {| AttFindInformationRsp.handle := 2;
                           AttFindInformationRsp.uuid := [x28; x01] |} ])).
Proof.
  split; [reflexivity|]. split; [cbn; lia|].
  split; [split; reflexivity|]. reflexivity.
Qed.

(** What [AttFindInformationRsp.deserialize] does check before it
    decodes: the opcode, the minimum size, the format, and the length
    modulo the size of a UUID. *)
Lemma AttFindInformationRsp_deserialize_checks
    (buffer buffer' : list byte) (res : list AttFindInformationRsp.Entry) :
  AttFindInformationRsp.deserialize buffer = Done (Ok (buffer', Some res)) ->
  exists op format uuidSize,
    Buffer.readUInt8 buffer 0 = Ok op /\ op = AttOpcode_FindInformationRsp
    /\ (AttFindInformationRsp.minSize <= length buffer)%nat
    /\ Buffer.readUInt8 buffer 1 = Ok format
    /\ AttFindInformationRsp.uuidFormatToSize format = Some uuidSize
    /\ (uuidSize = 2%nat /\ format = 1 \/ uuidSize = 16%nat /\ format = 2)
    /\ ((length buffer - 2) mod uuidSize = 0)%nat.
Proof.
  unfold AttFindInformationRsp.deserialize.
  destruct (Buffer.readUInt8 buffer 0) as [op|]; [|discriminate].
  case_decide as Hop; [discriminate|].
  destruct (Buffer.readUInt8 buffer 1) as [format|]; [|discriminate].
  destruct (AttFindInformationRsp.uuidFormatToSize format) as [uuidSize|] eqn:Hfmt;
    [|discriminate].
  case_decide as Hmod; [discriminate|]. intros _.
  exists op, format, uuidSize.
  split; [reflexivity|]. split.
  { destruct (decide (op = AttOpcode_FindInformationRsp)); [done|].
    exfalso. apply Hop. by left. }
  split.
  { destruct (decide (AttFindInformationRsp.minSize <= length buffer)%nat);
      [done|]. exfalso. apply Hop. right. lia. }
  split; [reflexivity|]. split; [exact Hfmt|]. split.
  { unfold AttFindInformationRsp.uuidFormatToSize in Hfmt.
    repeat case_decide; simplify_eq; auto. }
  destruct (decide ((length buffer - 2) mod uuidSize = 0)%nat); [done|].
  by exfalso.
Qed.

(** ** LE supported states *)

Lemma LeAllowedStates_length : length LeAllowedStates = 42%nat.
Proof. reflexivity. Qed.

Lemma LeAllowedStates_lookup (b : Z) :
  0 <= b <= 41 -> is_Some (LeAllowedStates !! Z.to_nat b).
Proof.
  intros Hb. apply lookup_lt_is_Some. rewrite LeAllowedStates_length. lia.
Qed.

(** The test of the loop, [(bitmask & (1n << b)) !== 0n], is the test of
    bit [b]. *)
Lemma land_shiftl_1_testbit (bitmask b : Z) :
  0 <= b -> Z.land bitmask (Z.shiftl 1 b) ≠ 0 <-> Z.testbit bitmask b = true.
Proof.
  intros Hb. rewrite Z.shiftl_1_l. split.
  - intros Hne. destruct (Z.testbit bitmask b) eqn:E; [reflexivity|].
    exfalso. apply Hne. apply Z.bits_inj'. intros n Hn.
    rewrite Z.land_spec, Z.bits_0, Z.pow2_bits_eqb by assumption.
    destruct (Z.eqb_spec b n) as [->|_].
    + by rewrite E.
    + apply andb_false_r.
  - intros Hbit Hz.
    assert (Hb' : Z.testbit (Z.land bitmask (2 ^ b)) b = true).
    { rewrite Z.land_spec, Hbit, Z.pow2_bits_eqb, Z.eqb_refl by assumption.
      reflexivity. }
    rewrite Hz, Z.bits_0 in Hb'. discriminate.
Qed.

Lemma foldl_step (bitmask : Z) (bs : list Z) (states : list (list LeState)) :
  Forall (fun b => 0 <= b) bs ->
  foldl (LeSupportedStates.step bitmask) states bs
  = states ++ ((fun b => default [] (LeAllowedStates !! Z.to_nat b))
               <$> filter (fun b => Z.testbit bitmask b = true) bs).
Proof.
  revert states. induction bs as [|b bs IH]; intros states Hpos.
  - cbn. by rewrite app_nil_r.
  - inversion Hpos as [|? ? Hb Hbs]; subst. cbn [foldl].
    rewrite IH by assumption. unfold LeSupportedStates.step.
    rewrite filter_cons.
    destruct (decide (Z.land bitmask (Z.shiftl 1 b) ≠ 0)) as [Hset|Hclear].
    + rewrite decide_True by (by apply land_shiftl_1_testbit).
      rewrite fmap_cons, <- app_assoc. reflexivity.
    + rewrite decide_False; [reflexivity|].
      intros Hbit. apply Hclear. by apply land_shiftl_1_testbit.
Qed.

Lemma seqZ_0_42_nonneg : Forall (fun b => 0 <= b) (seqZ 0 42).
Proof. apply Forall_forall. intros b Hb. apply elem_of_seqZ in Hb. lia. Qed.

Lemma fromBitmask_setBits (bitmask : Z) :
  LeSupportedStates.fromBitmask bitmask
  = (fun b => default [] (LeAllowedStates !! Z.to_nat b)) <$> setBits bitmask.
Proof.
  unfold LeSupportedStates.fromBitmask, setBits.
  by rewrite foldl_step by apply seqZ_0_42_nonneg.
Qed.

Lemma filter_agree {A} (P Q : A -> Prop) `{!forall x, Decision (P x)}
    `{!forall x, Decision (Q x)} (l : list A) :
  (forall x, x ∈ l -> P x <-> Q x) -> filter P l = filter Q l.
Proof.
  induction l as [|x l IH]; intros Hpq; [reflexivity|].
  rewrite !filter_cons.
  rewrite IH by (intros y Hy; apply Hpq; by right).
  pose proof (Hpq x ltac:(by left)) as Hx.
  destruct (decide (P x)), (decide (Q x)); tauto.
Qed.

Lemma setBits_agree (m m' : Z) :
  (forall b, 0 <= b <= 41 -> Z.testbit m b = Z.testbit m' b) ->
  setBits m = setBits m'.
Proof.
  intros Hagree. unfold setBits. apply filter_agree.
  intros b Hb. apply elem_of_seqZ in Hb. rewrite Hagree by lia. reflexivity.
Qed.

Lemma StronglySorted_filter {A} (R : relation A) (P : A -> Prop)
    `{!forall x, Decision (P x)} (l : list A) :
  StronglySorted R l -> StronglySorted R (filter P l).
Proof.
  induction 1 as [|x l Hs IH Hall]; [constructor|].
  rewrite filter_cons. case_decide; [|assumption].
  constructor; [assumption|].
  apply Forall_forall. intros y Hy. apply list_elem_of_filter in Hy.
  rewrite Forall_forall in Hall. apply Hall. tauto.
Qed.

Lemma setBits_sorted (bitmask : Z) : StronglySorted Z.lt (setBits bitmask).
Proof.
  apply StronglySorted_filter. apply Sorted_StronglySorted; [apply _|].
  vm_compute. repeat constructor.
Qed.

(** C10. [fromBitmask] lists [LeAllowedStates[b]] for exactly the bits
    [b] of [0 .. 41] set in the mask, in increasing order of [b]; two
    masks with the same bits 0 to 41 give the same list, so setting a
    bit [k] from 42 to 63 changes nothing. *)
Theorem fromBitmask_reads_bits_0_to_41 (bitmask : Z) (k : Z) :
  42 <= k <= 63 ->
  LeSupportedStates.fromBitmask bitmask
  = (fun b => default [] (LeAllowedStates !! Z.to_nat b))
    <$> filter (fun b => Z.testbit bitmask b = true) (seqZ 0 42)
  /\ (forall b, b ∈ setBits bitmask <-> 0 <= b <= 41 /\ Z.testbit bitmask b = true)
  /\ (forall b, b ∈ setBits bitmask -> is_Some (LeAllowedStates !! Z.to_nat b))
  /\ StronglySorted Z.lt (setBits bitmask)
  /\ LeSupportedStates.fromBitmask (Z.lor bitmask (Z.shiftl 1 k))
     = LeSupportedStates.fromBitmask bitmask
  /\ (forall bitmask',
        (forall b, 0 <= b <= 41 -> Z.testbit bitmask b = Z.testbit bitmask' b) ->
        LeSupportedStates.fromBitmask bitmask
        = LeSupportedStates.fromBitmask bitmask').
Proof.
  intros Hk.
  assert (Hmem : forall b, b ∈ setBits bitmask
                           <-> 0 <= b <= 41 /\ Z.testbit bitmask b = true).
  { intros b. unfold setBits. rewrite list_elem_of_filter, elem_of_seqZ.
    split; intros [? ?]; split; (assumption || lia). }
  split; [apply fromBitmask_setBits|]. split; [exact Hmem|].
  split. { intros b Hb. apply LeAllowedStates_lookup. by apply Hmem. }
  split; [apply setBits_sorted|].
  split.
  - rewrite !fromBitmask_setBits. f_equal. apply setBits_agree.
    intros b Hb. rewrite Z.lor_spec, Z.shiftl_1_l, Z.pow2_bits_eqb by lia.
    destruct (Z.eqb_spec k b); [lia|]. apply orb_false_r.
  - intros bitmask' Hagree. rewrite !fromBitmask_setBits. f_equal.
    by apply setBits_agree.
Qed.

Lemma fromBitmask_reads_bits_0_to_41_witness :
  LeSupportedStates.fromBitmask (Z.lor 0x21 (Z.shiftl 1 42))
  = LeSupportedStates.fromBitmask 0x21.
Proof.
  destruct (fromBitmask_reads_bits_0_to_41 0x21 42 ltac:(lia))
    as (_ & _ & _ & _ & H & _).
  exact H.
Defined.

(** ** LE Encrypt *)

Lemma copy_16_of_32_at_0 (src target : list byte) :
  length src = 16%nat -> length target = 32%nat ->
  Buffer.copy src target 0 = src ++ drop 16 target.
Proof.
  intros Hs Ht. unfold Buffer.copy. rewrite Ht, Hs. cbn [take Nat.add Nat.sub app].
  rewrite take_0. cbn [app]. by rewrite (take_ge src) by lia.
Qed.

Lemma copy_16_of_32_at_16 (src first rest : list byte) :
  length src = 16%nat -> length first = 16%nat -> length rest = 16%nat ->
  Buffer.copy src (first ++ rest) 16 = first ++ src.
Proof.
  intros Hs Hf Hr. unfold Buffer.copy.
  rewrite length_app, Hf, Hr, Hs.
  rewrite take_app_length' by done.
  rewrite (take_ge src) by lia.
  rewrite drop_ge by (rewrite length_app; lia).
  by rewrite app_nil_r.
Qed.

Section LeEncryptFacts.

Variable InvalidCommandParameter : Z.

Implicit Types (h : gmap nat (list byte)) (key plaintextData : nat).
Implicit Types (k p : list byte).

Lemma inParams_throws h key plaintextData :
  Store.length key h ≠ 16%nat \/ Store.length plaintextData h ≠ 16%nat ->
  LeEncrypt.inParams InvalidCommandParameter key plaintextData h
  = (h, Throw (HciError InvalidCommandParameter)).
Proof.
  intros Hlen. unfold LeEncrypt.inParams. by rewrite decide_True.
Qed.

Lemma Store_copy_eq h src target o s t :
  h !! src = Some s -> h !! target = Some t ->
  Store.copy src target o h = <[target := Buffer.copy s t o]> h.
Proof. intros Hs Ht. unfold Store.copy. by rewrite Hs, Ht. Qed.

(** Distinct buffers of 16 bytes: the store after the call. *)
Lemma inParams_distinct h key plaintextData k p :
  h !! key = Some k -> h !! plaintextData = Some p ->
  length k = 16%nat -> length p = 16%nat -> key ≠ plaintextData ->
  let payload := fresh (dom h) in
  LeEncrypt.inParams InvalidCommandParameter key plaintextData h
  = (<[payload := reverse k ++ reverse p]>
       (alter reverse plaintextData
          (<[payload := reverse k ++ drop 16 (Buffer.alloc 32)]>
             (alter reverse key (<[payload := Buffer.alloc 32]> h)))),
     Ok payload).
Proof.
  intros Hk Hp Hlk Hlp Hne payload.
  assert (Hfresh : h !! payload = None).
  { apply not_elem_of_dom. apply is_fresh. }
  assert (Hkp : payload ≠ key) by congruence.
  assert (Hpp : payload ≠ plaintextData) by congruence.
  unfold LeEncrypt.inParams, Store.length. rewrite Hk, Hp.
  cbn [default from_option]. unfold id.
  rewrite decide_False by (rewrite Hlk, Hlp; tauto).
  unfold Store.allocUnsafe, Store.reverse. fold payload. cbv zeta.
  set (h2 := alter reverse key (<[payload := Buffer.alloc 32]> h)).
  assert (H2k : h2 !! key = Some (reverse k)).
  { unfold h2. by rewrite lookup_alter_eq, lookup_insert_ne, Hk. }
  assert (H2p : h2 !! payload = Some (Buffer.alloc 32)).
  { unfold h2. by rewrite lookup_alter_ne, lookup_insert_eq. }
  rewrite (Store_copy_eq h2 _ _ _ _ _ H2k H2p).
  rewrite copy_16_of_32_at_0
    by (by rewrite ?length_reverse, ?length_replicate).
  set (h3 := <[payload := reverse k ++ drop 16 (Buffer.alloc 32)]> h2).
  set (h4 := alter reverse plaintextData h3).
  assert (H4t : h4 !! plaintextData = Some (reverse p)).
  { unfold h4, h3, h2.
    rewrite lookup_alter_eq, lookup_insert_ne, lookup_alter_ne,
      lookup_insert_ne, Hp by congruence. reflexivity. }
  assert (H4p : h4 !! payload
                = Some (reverse k ++ drop 16 (Buffer.alloc 32))).
  { unfold h4, h3. by rewrite lookup_alter_ne, lookup_insert_eq. }
  rewrite (Store_copy_eq h4 _ _ _ _ _ H4t H4p).
  rewrite copy_16_of_32_at_16
    by (rewrite ?length_reverse, ?length_drop, ?length_replicate; done).
  reflexivity.
Qed.

(** The same buffer passed twice: the second [reverse] undoes the
    first, and the payload is the key reversed followed by the key. *)
Lemma inParams_aliased h key k :
  h !! key = Some k -> length k = 16%nat ->
  let payload := fresh (dom h) in
  let out := LeEncrypt.inParams InvalidCommandParameter key key h in
  out.2 = Ok payload
  /\ out.1 !! payload = Some (reverse k ++ k)
  /\ out.1 !! key = Some k.
Proof.
  intros Hk Hlk payload.
  assert (Hfresh : h !! payload = None).
  { apply not_elem_of_dom. apply is_fresh. }
  assert (Hkp : payload ≠ key) by congruence.
  unfold LeEncrypt.inParams, Store.length. rewrite Hk.
  cbn [default from_option]. unfold id.
  rewrite decide_False by (rewrite Hlk; tauto).
  unfold Store.allocUnsafe, Store.reverse. fold payload. cbv zeta.
  set (h2 := alter reverse key (<[payload := Buffer.alloc 32]> h)).
  assert (H2k : h2 !! key = Some (reverse k)).
  { unfold h2. by rewrite lookup_alter_eq, lookup_insert_ne, Hk. }
  assert (H2p : h2 !! payload = Some (Buffer.alloc 32)).
  { unfold h2. by rewrite lookup_alter_ne, lookup_insert_eq. }
  rewrite (Store_copy_eq h2 _ _ _ _ _ H2k H2p).
  rewrite copy_16_of_32_at_0
    by (by rewrite ?length_reverse, ?length_replicate).
  set (h3 := <[payload := reverse k ++ drop 16 (Buffer.alloc 32)]> h2).
  set (h4 := alter reverse key h3).
  assert (H4k : h4 !! key = Some k).
  { unfold h4, h3.
    rewrite lookup_alter_eq, lookup_insert_ne, H2k by congruence.
    cbn. by rewrite reverse_involutive. }
  assert (H4p : h4 !! payload
                = Some (reverse k ++ drop 16 (Buffer.alloc 32))).
  { unfold h4, h3. by rewrite lookup_alter_ne, lookup_insert_eq. }
  rewrite (Store_copy_eq h4 _ _ _ _ _ H4k H4p).
  rewrite copy_16_of_32_at_16
    by (rewrite ?length_reverse, ?length_drop, ?length_replicate; done).
  cbn [fst snd]. split; [reflexivity|].
  rewrite lookup_insert_eq. split; [reflexivity|].
  by rewrite lookup_insert_ne.
Qed.

End LeEncryptFacts.

(** C9 as stated does not hold: [key.reverse()] and
    [plaintextData.reverse()] reverse the caller's buffers in place.
    With the key 00 01 .. 0F and the plaintext 10 11 .. 1F in two
    buffers, both buffers hold their bytes in reverse order after the
    call; and when one buffer is passed as key and as plaintext, the
    payload is not the key reversed twice over. *)
Lemma LeEncrypt_inParams_modifies_its_arguments :
  let key := [x00; x01; x02; x03; x04; x05; x06; x07;
              x08; x09; x0a; x0b; x0c; x0d; x0e; x0f] in
  let plaintext := [x10; x11; x12; x13; x14; x15; x16; x17;
                    x18; x19; x1a; x1b; x1c; x1d; x1e; x1f] in
  let h : gmap nat (list byte) := <[1%nat := plaintext]> {[ 0%nat := key ]} in
  let out := LeEncrypt.inParams 0x12 0 1 h in
  let aliased := LeEncrypt.inParams 0x12 0 0 h in
  (h !! 0%nat = Some key /\ h !! 1%nat = Some plaintext)
  /\ out.1 !! 0%nat = Some (reverse key)
  /\ out.1 !! 1%nat = Some (reverse plaintext)
  /\ out.1 !! 0%nat ≠ h !! 0%nat
  /\ out.1 !! 1%nat ≠ h !! 1%nat
  /\ (exists payload,
        aliased.2 = Ok payload
        /\ aliased.1 !! payload = Some (reverse key ++ key)
        /\ aliased.1 !! payload ≠ Some (reverse key ++ reverse key)).
Proof.
  intros key plaintext h out aliased.
  assert (Hk : h !! 0%nat = Some key) by reflexivity.
  assert (Hp : h !! 1%nat = Some plaintext) by reflexivity.
  assert (Hfresh : h !! fresh (dom h) = None).
  { apply not_elem_of_dom. apply is_fresh. }
  assert (Hf0 : fresh (dom h) ≠ 0%nat) by congruence.
  assert (Hf1 : fresh (dom h) ≠ 1%nat) by congruence.
  assert (H0 : out.1 !! 0%nat = Some (reverse key)).
  { unfold out.
    rewrite (inParams_distinct 0x12 h 0 1 key plaintext Hk Hp eq_refl eq_refl)
      by discriminate.
    cbn [fst].
    rewrite lookup_insert_ne, lookup_alter_ne, lookup_insert_ne,
      lookup_alter_eq, lookup_insert_ne, Hk by congruence.
    reflexivity. }
  assert (H1 : out.1 !! 1%nat = Some (reverse plaintext)).
  { unfold out.
    rewrite (inParams_distinct 0x12 h 0 1 key plaintext Hk Hp eq_refl eq_refl)
      by discriminate.
    cbn [fst].
    rewrite lookup_insert_ne, lookup_alter_eq, lookup_insert_ne,
      lookup_alter_ne, lookup_insert_ne, Hp by congruence.
    reflexivity. }
  split; [by split|]. split; [exact H0|]. split; [exact H1|].
  split; [rewrite H0, Hk; discriminate|].
  split; [rewrite H1, Hp; discriminate|].
  destruct (inParams_aliased 0x12 h 0 key Hk eq_refl) as (Hr & Hpay & _).
  exists (fresh (dom h)). fold aliased in Hr, Hpay.
  split; [exact Hr|]. split; [exact Hpay|].
  rewrite Hpay. discriminate.
Qed.

(** C9, amended.  [LeEncrypt.inParams] throws [InvalidCommandParameter],
    touching nothing, unless key and plaintext both have 16 bytes.  For
    two distinct buffers of 16 bytes it returns a new buffer of 32 bytes,
    the key reversed followed by the plaintext reversed, and leaves the
    caller's key and plaintext buffers each with its bytes reversed in
    place; every other buffer is as it was. *)
Theorem LeEncrypt_inParams_reverses_in_place
    (InvalidCommandParameter : Z) (h : gmap nat (list byte))
    (key plaintextData : nat) (k p : list byte) :
  h !! key = Some k -> h !! plaintextData = Some p ->
  let out := LeEncrypt.inParams InvalidCommandParameter key plaintextData h in
  (length k ≠ 16%nat \/ length p ≠ 16%nat ->
   out = (h, Throw (HciError InvalidCommandParameter)))
  /\ (length k = 16%nat -> length p = 16%nat -> key ≠ plaintextData ->
      exists payload,
        out.2 = Ok payload
        /\ h !! payload = None
        /\ out.1 !! payload = Some (reverse k ++ reverse p)
        /\ length (reverse k ++ reverse p) = 32%nat
        /\ out.1 !! key = Some (reverse k)
        /\ out.1 !! plaintextData = Some (reverse p)
        /\ forall r, r ≠ key -> r ≠ plaintextData -> r ≠ payload ->
                     out.1 !! r = h !! r).
Proof.
  intros Hk Hp out. split.
  - intros Hlen. apply inParams_throws.
    unfold Store.length. by rewrite Hk, Hp.
  - intros Hlk Hlp Hne. exists (fresh (dom h)).
    assert (Hfresh : h !! fresh (dom h) = None).
    { apply not_elem_of_dom. apply is_fresh. }
    assert (Hfk : fresh (dom h) ≠ key) by congruence.
    assert (Hfp : fresh (dom h) ≠ plaintextData) by congruence.
    unfold out.
    rewrite (inParams_distinct InvalidCommandParameter h key plaintextData
               k p Hk Hp Hlk Hlp Hne).
    cbn [fst snd].
    split; [reflexivity|]. split; [exact Hfresh|].
    split; [apply lookup_insert_eq|].
    split; [rewrite length_app, !length_reverse; lia|].
    split.
    { rewrite lookup_insert_ne, lookup_alter_ne, lookup_insert_ne,
        lookup_alter_eq, lookup_insert_ne, Hk by congruence.
      reflexivity. }
    split.
    { rewrite lookup_insert_ne, lookup_alter_eq, lookup_insert_ne,
        lookup_alter_ne, lookup_insert_ne, Hp by congruence.
      reflexivity. }
    intros r Hrk Hrp Hrf.
    by rewrite lookup_insert_ne, lookup_alter_ne, lookup_insert_ne,
      lookup_alter_ne, lookup_insert_ne by congruence.
Qed.

Lemma LeEncrypt_inParams_reverses_in_place_witness :
  let key := [x00; x01; x02; x03; x04; x05; x06; x07;
              x08; x09; x0a; x0b; x0c; x0d; x0e; x0f] in
  let plaintext := [x10; x11; x12; x13; x14; x15; x16; x17;
                    x18; x19; x1a; x1b; x1c; x1d; x1e; x1f] in
  let h : gmap nat (list byte) := <[1%nat := plaintext]> {[ 0%nat := key ]} in
  exists payload,
    (LeEncrypt.inParams 0x12 0 1 h).2 = Ok payload
    /\ (LeEncrypt.inParams 0x12 0 1 h).1 !! payload
       = Some (reverse key ++ reverse plaintext)
    /\ (LeEncrypt.inParams 0x12 0 1 h).1 !! 0%nat = Some (reverse key).
Proof.
  intros key plaintext h.
  destruct (LeEncrypt_inParams_reverses_in_place 0x12 h 0 1 key plaintext
              eq_refl eq_refl) as (_ & Hok).
  destruct (Hok eq_refl eq_refl ltac:(discriminate))
    as (payload & Hr & _ & Hpay & _ & Hkey & _).
  exists payload. split; [exact Hr|]. split; [exact Hpay | exact Hkey].
Defined.

(** ** The advertising-data parser *)

Section SplitFields.

Import AdvDataParser.

Implicit Types (adBuffer pre rest : list byte) (o fuel : nat).
Implicit Types (fields : list AdvDataField.t).

(** The loop ends, with every indexed read inside the buffer, as soon
    as the fuel exceeds the number of bytes left. *)
Lemma splitFields_total fuel adBuffer o fields :
  (length adBuffer - o < fuel)%nat ->
  exists fields', splitFields fuel adBuffer o fields = Done fields'.
Proof.
  revert o fields. induction fuel as [|fuel IH]; intros o fields Hfuel; [lia|].
  cbn [splitFields]. case_decide as Ho; [|eauto].
  destruct (lookup_lt_is_Some_2 adBuffer o Ho) as [len ->].
  case_decide as Hskip.
  - apply IH. lia.
  - assert (Ho' : (S o < length adBuffer)%nat) by lia.
    destruct (lookup_lt_is_Some_2 adBuffer (S o) Ho') as [type ->].
    apply IH. lia.
Qed.

(** More fuel than that changes nothing. *)
Lemma splitFields_fuel fuel fuel' adBuffer o fields :
  (length adBuffer - o < fuel)%nat -> (length adBuffer - o < fuel')%nat ->
  splitFields fuel adBuffer o fields = splitFields fuel' adBuffer o fields.
Proof.
  revert fuel' o fields.
  induction fuel as [|fuel IH]; intros fuel' o fields Hf Hf'; [lia|].
  destruct fuel' as [|fuel']; [lia|].
  cbn [splitFields]. case_decide as Ho; [|reflexivity].
  destruct (adBuffer !! o) as [len|]; [|reflexivity].
  case_decide as Hskip.
  - apply IH; lia.
  - destruct (adBuffer !! S o) as [type|]; [|reflexivity].
    apply IH; lia.
Qed.

(** The fields found so far are only added to. *)
Lemma splitFields_acc fuel adBuffer o fields :
  splitFields fuel adBuffer o fields
  = run_map (app fields) (splitFields fuel adBuffer o []).
Proof.
  revert o fields. induction fuel as [|fuel IH]; intros o fields; [reflexivity|].
  cbn [splitFields]. case_decide as Ho.
  - destruct (adBuffer !! o) as [len|]; [|reflexivity].
    case_decide as Hskip; [apply IH|].
    destruct (adBuffer !! S o) as [type|]; [|reflexivity].
    rewrite IH. rewrite (IH _ ([] ++ _)).
    destruct (splitFields fuel adBuffer _ []); cbn [run_map]; try reflexivity.
    by rewrite app_nil_l, app_assoc.
  - cbn [run_map]. by rewrite app_nil_r.
Qed.

(** The loop at offset [length pre + o] of [pre ++ rest] is the loop at
    offset [o] of [rest]. *)
Lemma splitFields_shift fuel pre rest o fields :
  splitFields fuel (pre ++ rest) (length pre + o) fields
  = splitFields fuel rest o fields.
Proof.
  revert o fields. induction fuel as [|fuel IH]; intros o fields; [reflexivity|].
  cbn [splitFields]. rewrite length_app.
  destruct (decide (o < length rest)%nat) as [Ho|Ho].
  - rewrite decide_True by lia.
    rewrite lookup_app_r by lia.
    replace (length pre + o - length pre)%nat with o by lia.
    destruct (lookup_lt_is_Some_2 rest o Ho) as [len ->].
    destruct (decide (u8 len = 0 \/ (length rest <= S o)%nat)) as [Hskip|Hskip].
    + rewrite decide_True by (destruct Hskip; [by left | right; lia]).
      rewrite <- Nat.add_succ_r. apply IH.
    + rewrite decide_False by (intros [?|?]; apply Hskip; [by left | right; lia]).
      rewrite lookup_app_r by lia.
      replace (S (length pre + o) - length pre)%nat with (S o) by lia.
      assert (Ho' : (S o < length rest)%nat) by lia.
      destruct (lookup_lt_is_Some_2 rest (S o) Ho') as [type ->].
      replace (S (S (length pre + o)) + (Z.to_nat (u8 len) - 1))%nat
        with (length pre + (S (S o) + (Z.to_nat (u8 len) - 1)))%nat by lia.
      rewrite IH. do 4 f_equal. unfold Buffer.slice.
      replace (S (S (length pre + o))) with (length pre + S (S o))%nat by lia.
      rewrite drop_app_add. f_equal. lia.
  - by rewrite decide_False by lia.
Qed.

Lemma splitFields_S fuel adBuffer o fields :
  splitFields (S fuel) adBuffer o fields =
    if decide (o < length adBuffer)%nat then
      match adBuffer !! o with
      | None => IndexOutOfBounds o
      | Some len =>
          if decide (u8 len = 0 \/ (length adBuffer <= S o)%nat)
          then splitFields fuel adBuffer (S o) fields
          else
            match adBuffer !! S o with
            | None => IndexOutOfBounds (S o)
            | Some type =>
                splitFields fuel adBuffer (S (S o) + (Z.to_nat (u8 len) - 1))
                  (fields ++ [{| AdvDataField.type := type;
                                 AdvDataField.data :=
                                   Buffer.slice adBuffer (S (S o))
                                     (S (S o) + (Z.to_nat (u8 len) - 1)) |}])
            end
      end
    else Done fields.
Proof. reflexivity. Qed.

(** The equations of [fieldsOf]. *)
Lemma fieldsOf_nil : fieldsOf [] = Done [].
Proof. reflexivity. Qed.

Lemma fieldsOf_zero rest : fieldsOf (x00 :: rest) = fieldsOf rest.
Proof.
  unfold fieldsOf. cbn [length]. rewrite (splitFields_S (S (length rest))).
  change ((x00 :: rest) !! 0%nat) with (Some x00).
  rewrite decide_True by (cbn [length]; lia). rewrite decide_True by (by left).
  apply (splitFields_shift _ [x00] rest 0).
Qed.

Lemma fieldsOf_last len : fieldsOf [len] = Done [].
Proof.
  unfold fieldsOf. cbn [length]. rewrite !splitFields_S.
  change ([len] !! 0%nat) with (Some len). cbn [length].
  rewrite decide_True by lia. rewrite decide_True by (right; lia).
  by rewrite decide_False by lia.
Qed.

Lemma fieldsOf_record len type rest :
  u8 len ≠ 0 ->
  fieldsOf (len :: type :: rest)
  = run_map (cons {| AdvDataField.type := type;
                     AdvDataField.data := take (Z.to_nat (u8 len) - 1) rest |})
      (fieldsOf (drop (Z.to_nat (u8 len) - 1) rest)).
Proof.
  intros Hlen. unfold fieldsOf.
  set (n := (Z.to_nat (u8 len) - 1)%nat).
  cbn [length]. rewrite (splitFields_S (S (S (length rest)))).
  change ((len :: type :: rest) !! 0%nat) with (Some len).
  change ((len :: type :: rest) !! 1%nat) with (Some type).
  cbn [length].
  rewrite decide_True by lia.
  rewrite decide_False by (intros [?|?]; [done | lia]).
  fold n. rewrite splitFields_acc. cbn [app]. f_equal.
  - unfold Buffer.slice. cbn [drop]. do 3 f_equal. lia.
  - destruct (decide (n <= length rest)%nat) as [Hn|Hn].
    + rewrite <- (take_drop n rest) at 2.
      replace (2 + n)%nat with (length (len :: type :: take n rest) + 0)%nat
        by (cbn [length]; rewrite length_take; lia).
      change (len :: type :: take n rest ++ drop n rest)
        with ((len :: type :: take n rest) ++ drop n rest).
      rewrite splitFields_shift.
      apply splitFields_fuel; rewrite length_drop; lia.
    + rewrite drop_ge by lia.
      rewrite !splitFields_S. cbn [length]. rewrite decide_False by lia.
      by rewrite decide_False by lia.
Qed.

End SplitFields.

Lemma run_map_compose {A B C} (f : A -> B) (g : B -> C) (r : run A) :
  run_map g (run_map f r) = run_map (fun a => g (f a)) r.
Proof. by destruct r. Qed.

Lemma run_map_ext {A B} (f g : A -> B) (r : run A) :
  (forall a, f a = g a) -> run_map f r = run_map g r.
Proof. intros Hfg. destruct r; cbn; by rewrite ?Hfg. Qed.

Lemma fieldsOf_encodeRecord (f : AdvDataField.t) (rest : list byte) :
  fits f ->
  AdvDataParser.fieldsOf (encodeRecord f ++ rest)
  = run_map (cons f) (AdvDataParser.fieldsOf rest).
Proof.
  unfold fits, encodeRecord. destruct f as [type data].
  cbn [AdvDataField.type AdvDataField.data]. intros Hfit.
  change ((?len :: type :: data) ++ rest) with (len :: type :: (data ++ rest)).
  assert (Hlen : u8 (byte_of_Z (Z.of_nat (S (length data))))
                 = Z.of_nat (S (length data)))
    by (apply u8_byte_of_Z; lia).
  rewrite fieldsOf_record by lia. rewrite Hlen.
  replace (Z.to_nat (Z.of_nat (S (length data))) - 1)%nat
    with (length data) by lia.
  by rewrite take_app_length, drop_app_length.
Qed.

(** After an aligned prefix the scan goes on as on the rest alone. *)
Lemma fieldsOf_aligned (pre : list byte) :
  aligned pre ->
  exists fields,
    forall rest, AdvDataParser.fieldsOf (pre ++ rest)
                 = run_map (app fields) (AdvDataParser.fieldsOf rest).
Proof.
  induction 1 as [|pre _ [fields IH]|f pre Hfit _ [fields IH]].
  - exists []. intros rest. cbn [app]. by destruct (AdvDataParser.fieldsOf rest).
  - exists fields. intros rest. cbn [app]. by rewrite fieldsOf_zero.
  - exists (f :: fields). intros rest.
    rewrite <- app_assoc, fieldsOf_encodeRecord, IH by assumption.
    by rewrite run_map_compose.
Qed.

Lemma parse_fieldsOf (adBuffer adBuffer' : list byte) :
  AdvDataParser.fieldsOf adBuffer = AdvDataParser.fieldsOf adBuffer' ->
  AdvDataParser.parse (Some adBuffer) = AdvDataParser.parse (Some adBuffer').
Proof. intros Heq. unfold AdvDataParser.parse. by rewrite Heq. Qed.

(** A record whose value is cut short by the end of the buffer is kept,
    with the bytes that are there. *)
Lemma fieldsOf_truncated (pre : list byte) (len type : byte) (value : list byte) :
  aligned pre -> u8 len ≠ 0 -> (length value < Z.to_nat (u8 len) - 1)%nat ->
  exists fields,
    AdvDataParser.fieldsOf pre = Done fields
    /\ AdvDataParser.fieldsOf (pre ++ len :: type :: value)
       = Done (fields ++ [{| AdvDataField.type := type;
                             AdvDataField.data := value |}]).
Proof.
  intros Hpre Hlen Hshort. destruct (fieldsOf_aligned pre Hpre) as [fields Hf].
  exists fields. split.
  - rewrite <- (app_nil_r pre), Hf, fieldsOf_nil. cbn. by rewrite app_nil_r.
  - rewrite Hf, fieldsOf_record by assumption.
    rewrite take_ge, drop_ge, fieldsOf_nil by lia. reflexivity.
Qed.

(** C8 as stated does not hold.  In 05 09 66 6F the only record declares
    a value of four bytes where two are left.  It is not skipped: the
    scan yields it with the two bytes as its value, and [parse] reports
    them as the complete local name. *)
Lemma parse_keeps_overrunning_record :
  let adBuffer := [x05; x09; x66; x6f] in
  (length adBuffer < 1 + 5)%nat
  /\ AdvDataParser.fieldsOf adBuffer
     = Done [{| AdvDataField.type := x09; AdvDataField.data := [x66; x6f] |}]
  /\ AdvDataParser.parse (Some adBuffer)
     = Done (Ok (AdvData.set_localName (Some "fo"%string)
                   (AdvData.set_completeLocalName (Some "fo"%string)
                      AdvData.empty)))
  /\ AdvDataParser.parse (Some adBuffer) ≠ Done (Ok AdvData.empty)
  /\ AdvDataParser.parse (Some adBuffer) ≠ AdvDataParser.parse (Some []).
Proof.
  cbv zeta. split; [cbn; lia|]. split; [reflexivity|].
  split; [reflexivity|].
  split; intros H; vm_compute in H; discriminate H.
Qed.

(** Four well-formed records: flags, manufacturer data, TX power and
    complete local name. *)
Example parse_four_records :
  AdvDataParser.parse
    (Some [x02; x01; x06; x06; xff; x59; x00; x01; x02; x03; x02; x0a; x7f;
           x07; x09; x66; x6f; x6f; x62; x61; x72])
  = Done (Ok {| AdvData.flags := Some 0x06;
                AdvData.serviceUuids := None;
                AdvData.serviceSolicitationUuids := None;
                AdvData.localName := Some "foobar"%string;
                AdvData.shortenedLocalName := None;
                AdvData.completeLocalName := Some "foobar"%string;
                AdvData.txPowerLevel := Some 0x7F;
                AdvData.manufacturerData :=
                  Some {| AdvData.ident := 0x0059;
                          AdvData.md_data := [x01; x02; x03] |};
                AdvData.serviceData := None |}).
Proof. reflexivity. Qed.

(** A TX power record without a value makes [readInt8(0)] throw. *)
Example parse_throws :
  AdvDataParser.parse (Some [x01; x0a]) = Done (Throw RangeError).
Proof. reflexivity. Qed.

(** The scan on complete records and bytes 00, followed by anything. *)
Lemma fieldsOf_encodeItems (items : list (option AdvDataField.t))
    (rest : list byte) :
  Forall fits (recordsOf items) ->
  AdvDataParser.fieldsOf (encodeItems items ++ rest)
  = run_map (app (recordsOf items)) (AdvDataParser.fieldsOf rest).
Proof.
  unfold encodeItems, recordsOf.
  induction items as [|[f|] items IH]; intros Hfits.
  - cbn [fmap list_fmap concat app omap list_omap].
    by destruct (AdvDataParser.fieldsOf rest).
  - rewrite fmap_cons, concat_cons, <- app_assoc.
    cbn [omap list_omap id] in *. inversion Hfits; subst.
    cbn [encodeItem]. rewrite fieldsOf_encodeRecord, IH by done.
    by rewrite run_map_compose.
  - rewrite fmap_cons, concat_cons, <- app_assoc.
    cbn [omap list_omap id encodeItem app] in *.
    rewrite fieldsOf_zero. by apply IH.
Qed.

(** C8, amended.  For every buffer the scan of [parse] ends, and it
    reads no index outside the buffer; the outcome of [parse] is that of
    the field handlers on the fields found.  At the start of a record, a
    length byte 00 is skipped and the records after it are parsed as if
    it were not there; a length byte that is the last byte of the buffer
    is skipped as well.  Neither contributes to the result: on a buffer
    made of complete records and of bytes 00 between them, with or
    without such a last byte, the scan finds exactly the records, in
    order, and [parse] is the field handlers applied to them. *)
Theorem parse_scan_total_and_skips
    (adBuffer pre rest : list byte) (len : byte)
    (items : list (option AdvDataField.t)) :
  aligned pre -> Forall fits (recordsOf items) ->
  (exists fields,
      AdvDataParser.fieldsOf adBuffer = Done fields
      /\ AdvDataParser.parse (Some adBuffer)
         = Done (AdvDataParser.parseFields AdvData.empty fields))
  /\ AdvDataParser.fieldsOf (pre ++ x00 :: rest)
     = AdvDataParser.fieldsOf (pre ++ rest)
  /\ AdvDataParser.parse (Some (pre ++ x00 :: rest))
     = AdvDataParser.parse (Some (pre ++ rest))
  /\ AdvDataParser.fieldsOf (pre ++ [len]) = AdvDataParser.fieldsOf pre
  /\ AdvDataParser.parse (Some (pre ++ [len]))
     = AdvDataParser.parse (Some pre)
  /\ AdvDataParser.fieldsOf (encodeItems items) = Done (recordsOf items)
  /\ AdvDataParser.parse (Some (encodeItems items))
     = Done (AdvDataParser.parseFields AdvData.empty (recordsOf items))
  /\ AdvDataParser.fieldsOf (encodeItems items ++ [len])
     = Done (recordsOf items)
  /\ AdvDataParser.parse (Some (encodeItems items ++ [len]))
     = Done (AdvDataParser.parseFields AdvData.empty (recordsOf items)).
Proof.
  intros Hpre Hfits. destruct (fieldsOf_aligned pre Hpre) as [fields Hf].
  assert (Hzero : AdvDataParser.fieldsOf (pre ++ x00 :: rest)
                  = AdvDataParser.fieldsOf (pre ++ rest))
    by (by rewrite !Hf, fieldsOf_zero).
  assert (Hlast : AdvDataParser.fieldsOf (pre ++ [len])
                  = AdvDataParser.fieldsOf pre).
  { rewrite <- (app_nil_r pre) at 2. by rewrite !Hf, fieldsOf_last, fieldsOf_nil. }
  assert (Hitems : AdvDataParser.fieldsOf (encodeItems items)
                   = Done (recordsOf items)).
  { rewrite <- (app_nil_r (encodeItems items)).
    rewrite fieldsOf_encodeItems, fieldsOf_nil by done.
    cbn [run_map]. by rewrite app_nil_r. }
  assert (Hitems' : AdvDataParser.fieldsOf (encodeItems items ++ [len])
                    = Done (recordsOf items)).
  { rewrite fieldsOf_encodeItems, fieldsOf_last by done.
    cbn [run_map]. by rewrite app_nil_r. }
  split.
  { destruct (splitFields_total (S (length adBuffer)) adBuffer 0 [])
      as [fs Hfs]; [lia|].
    exists fs. unfold AdvDataParser.parse, AdvDataParser.fieldsOf.
    by rewrite Hfs. }
  split; [done|]. split; [by apply parse_fieldsOf|].
  split; [done|]. split; [by apply parse_fieldsOf|].
  split; [done|]. split; [unfold AdvDataParser.parse; by rewrite Hitems|].
  split; [done|]. unfold AdvDataParser.parse. by rewrite Hitems'.
Qed.

Lemma parse_scan_total_and_skips_witness :
  AdvDataParser.parse
    (Some ([x02; x01; x06; x00; x02; x0a; x7f] ++ x00 :: [x03; x09; x66; x6f]))
  = AdvDataParser.parse
      (Some ([x02; x01; x06; x00; x02; x0a; x7f] ++ [x03; x09; x66; x6f]))
  /\ AdvDataParser.fieldsOf [x02; x01; x06; x00; x02; x0a; x7f; x00; x05]
     = Done [ {| AdvDataField.type := x01; AdvDataField.data := [x06] |};
              {| AdvDataField.type := x0a; AdvDataField.data := [x7f] |} ].
Proof.
  assert (Hpre : aligned [x02; x01; x06; x00; x02; x0a; x7f]).
  { apply (aligned_record
             {| AdvDataField.type := x01; AdvDataField.data := [x06] |}
             [x00; x02; x0a; x7f]); [unfold fits; cbn; lia|].
    apply aligned_zero.
    apply (aligned_record
             {| AdvDataField.type := x0a; AdvDataField.data := [x7f] |} []);
      [unfold fits; cbn; lia|].
    apply aligned_nil. }
  destruct (parse_scan_total_and_skips [] _ [x03; x09; x66; x6f] x05
              [ Some {| AdvDataField.type := x01; AdvDataField.data := [x06] |};
                None;
                Some {| AdvDataField.type := x0a; AdvDataField.data := [x7f] |};
                None ]
              Hpre)
    as (_ & _ & H & _ & _ & _ & _ & H' & _).
  - repeat constructor; unfold fits; cbn; lia.
  - split; [exact H | exact H'].
Defined.

(** The UUID loops of [parseField] run to their end on the fuel they are
    given: any greater amount gives the same list. *)
Lemma uuidLoop_fuel (fuel fuel' size : nat) (skipEmpty : bool)
    (data : list byte) (j : nat) (uuids : option (list string)) :
  (0 < size)%nat ->
  (length data - j <= fuel)%nat -> (length data - j <= fuel')%nat ->
  AdvDataParser.uuidLoop fuel size skipEmpty data j uuids
  = AdvDataParser.uuidLoop fuel' size skipEmpty data j uuids.
Proof.
  intros Hsize. revert fuel' j uuids.
  induction fuel as [|fuel IH]; intros fuel' j uuids Hf Hf'.
  - destruct fuel' as [|fuel']; [reflexivity|].
    cbn [AdvDataParser.uuidLoop]. by rewrite decide_False by lia.
  - destruct fuel' as [|fuel'].
    + cbn [AdvDataParser.uuidLoop]. by rewrite decide_False by lia.
    + cbn [AdvDataParser.uuidLoop]. case_decide; [|reflexivity].
      destruct (skipEmpty && _); apply IH; lia.
Qed.

(** * Part III: further properties of the code *)

(** ** The command engine: what every reachable state satisfies *)

Section EngineInvariant.

Implicit Types (s : Hci.t) (c : Hci.Closure) (cmd : HciCommand.t).
Implicit Types (outcome : Promise) (a : Hci.Action).

Lemma settle_settled outcome (v : Promise) : v ≠ Pending -> settle outcome v = v.
Proof. by destruct v. Qed.

Lemma settle_not_pending outcome (v : Promise) :
  outcome ≠ Pending -> settle outcome v ≠ Pending.
Proof. by destruct v. Qed.

Lemma invariant_new init : Hci.invariant (Hci.new init).
Proof.
  split; [|split]; cbn.
  - discriminate.
  - intros id tm H. by rewrite lookup_nil in H.
  - intros p H. by rewrite lookup_nil in H.
Qed.

(** [complete], run by the closure in the slot, leaves no timer armed
    and no promise pending. *)
Lemma invariant_complete s c outcome :
  Hci.invariant s -> Hci.onCmdComplete s = Some c -> outcome ≠ Pending ->
  Hci.invariant (Hci.complete c outcome s).
Proof.
  intros (Hslot & Harmed & Hpend) Hc Hout.
  split; [|split]; cbn.
  - discriminate.
  - intros id tm Hid. exfalso.
    destruct (decide (id = Hci.timeoutId c)) as [->|Hne].
    + rewrite list_lookup_insert_eq in Hid
        by (eapply lookup_lt_Some; by apply Hslot).
      discriminate.
    + rewrite list_lookup_insert_ne in Hid by done.
      apply Harmed in Hid. rewrite Hc in Hid. by simplify_eq.
  - intros p Hp. exfalso.
    destruct (decide (p = Hci.promiseId c)) as [->|Hne].
    + rewrite list_lookup_alter_eq in Hp.
      destruct (Hci.promises s !! Hci.promiseId c) as [v|]; [|discriminate].
      cbn in Hp. injection Hp as Hp. by apply (settle_not_pending outcome v).
    + rewrite list_lookup_alter_ne in Hp by done.
      destruct (Hpend p Hp) as (c' & Hc' & <-). rewrite Hc in Hc'. by simplify_eq.
Qed.

Lemma invariant_emit s d : Hci.invariant s -> Hci.invariant (Hci.emit d s).
Proof. by intros H. Qed.

Lemma invariant_handler s c evt :
  Hci.invariant s -> Hci.onCmdComplete s = Some c ->
  Hci.invariant (Hci.handler c evt s).
Proof.
  intros Hinv Hc. unfold Hci.handler.
  repeat case_decide; [done| |]; by apply invariant_complete.
Qed.

Lemma invariant_onData s data :
  Hci.invariant s -> Hci.invariant (Hci.onData data s).
Proof.
  intros Hinv. unfold Hci.onData.
  destruct data as [|e [|l payload]]; [done..|].
  case_decide; [by apply invariant_emit|].
  case_decide; [|done].
  destruct payload as [|n [|lo [|hi [|st ret]]]];
    try (by apply invariant_emit).
  destruct (Hci.onCmdComplete s) as [c|] eqn:Hc; [|done].
  by apply invariant_handler.
Qed.

Lemma invariant_expire s id :
  Hci.invariant s -> Hci.invariant (Hci.expire id s).
Proof.
  intros Hinv. unfold Hci.expire.
  destruct (Hci.timers s !! id) as [[tm|]|] eqn:Hid; [|done..].
  apply invariant_complete; [done| |done].
  destruct Hinv as (_ & Harmed & _). by apply Harmed.
Qed.

Lemma send_busy cmd s c :
  Hci.onCmdComplete s = Some c ->
  Hci.send cmd s =
    ({| Hci.cmdTimeout := Hci.cmdTimeout s; Hci.cmdOpcode := Hci.cmdOpcode s;
        Hci.onCmdComplete := Some c; Hci.timers := Hci.timers s;
        Hci.promises := Hci.promises s ++ [Rejected (ParserError Busy)];
        Hci.sent := Hci.sent s; Hci.emitted := Hci.emitted s |},
     length (Hci.promises s)).
Proof.
  intros Hc. unfold Hci.send. cbn. rewrite Hc. cbn.
  unfold Hci.settlePromise. cbn [Hci.promises]. by rewrite alter_last.
Qed.

Lemma invariant_send s cmd :
  Hci.invariant s -> Hci.invariant (Hci.send cmd s).1.
Proof.
  intros (Hslot & Harmed & Hpend).
  destruct (Hci.onCmdComplete s) as [c|] eqn:Hc.
  - (* busy: only a rejected promise is added *)
    rewrite (send_busy _ _ _ Hc).
    split; [|split]; cbn.
    + intros c' [= <-]. by apply Hslot.
    + intros id tm Hid. by apply Harmed.
    + intros p Hp. apply lookup_app_Some in Hp as [Hp|[_ Hp]].
      * by apply Hpend.
      * destruct (p - length (Hci.promises s))%nat as [|k]; cbn in Hp;
          [discriminate | by destruct k].
  - (* idle: no timer is armed and no promise is pending *)
    assert (Hnone : forall id tm, Hci.timers s !! id ≠ Some (Some tm)).
    { intros id tm Hid. apply Harmed in Hid. congruence. }
    assert (Hnopend : forall p, Hci.promises s !! p ≠ Some Pending).
    { intros p Hp. destruct (Hpend p Hp) as (? & ? & _). congruence. }
    rewrite (send_idle _ _ Hc). cbv zeta.
    assert (Hcore :
      forall ps sent,
        (forall p, ps !! p = Some Pending -> p = length (Hci.promises s)) ->
        Hci.invariant
          {| Hci.cmdTimeout := Hci.cmdTimeout s;
             Hci.cmdOpcode := HciCommand.opcode cmd;
             Hci.onCmdComplete :=
               Some {| Hci.timeoutId := length (Hci.timers s);
                       Hci.promiseId := length (Hci.promises s) |};
             Hci.timers :=
               Hci.timers s
               ++ [Some {| Hci.delay := Hci.cmdTimeout s;
                           Hci.owner := length (Hci.promises s) |}];
             Hci.promises := ps; Hci.sent := sent;
             Hci.emitted := Hci.emitted s |}).
    { intros ps sent Hps. split; [|split]; cbn.
      - intros c' [= <-]. cbn. by apply list_lookup_middle.
      - intros id tm Hid. apply lookup_app_Some in Hid as [Hid|[Hge Hid]].
        + by apply Hnone in Hid.
        + destruct (id - length (Hci.timers s))%nat as [|k] eqn:Hk;
            cbn in Hid; [|by destruct k].
          injection Hid as <-. cbn. do 2 f_equal. lia.
      - intros p Hp. eexists. split; [reflexivity|]. cbn. symmetry. by apply Hps. }
    assert (Hfresh : forall p,
               (Hci.promises s ++ [Pending]) !! p = Some Pending ->
               p = length (Hci.promises s)).
    { intros p Hp. apply lookup_app_Some in Hp as [Hp|[Hge Hp]].
      - by apply Hnopend in Hp.
      - destruct (p - length (Hci.promises s))%nat as [|k] eqn:Hk;
          cbn in Hp; [lia | by destruct k]. }
    destruct (Hci.buildBuffer cmd) as [buffer|e]; cbn [fst].
    + by apply Hcore.
    + unfold Hci.settlePromise. cbn. apply Hcore.
      rewrite alter_last. cbn. intros p Hp.
      apply lookup_app_Some in Hp as [Hp|[Hge Hp]].
      * by apply Hnopend in Hp.
      * destruct (p - length (Hci.promises s))%nat as [|k]; cbn in Hp;
          [discriminate | by destruct k].
Qed.

Lemma invariant_act s a : Hci.invariant s -> Hci.invariant (Hci.act s a).
Proof.
  destruct a; cbn [Hci.act];
    auto using invariant_send, invariant_onData, invariant_expire.
Qed.

Lemma reachable_invariant s : Hci.reachable s -> Hci.invariant s.
Proof.
  intros (init & actions & ->).
  induction actions as [|a actions IH] using rev_ind.
  - apply invariant_new.
  - rewrite foldl_snoc. by apply invariant_act.
Qed.

Lemma reachable_act s a : Hci.reachable s -> Hci.reachable (Hci.act s a).
Proof.
  intros (init & actions & ->). exists init, (actions ++ [a]).
  by rewrite foldl_snoc.
Qed.

End EngineInvariant.

(** X1. In every state an engine can reach, a timer is armed exactly
    when a command occupies the slot, and then it is that command's
    timer, set to [cmdTimeout]: never are two timers armed. *)
Theorem one_timer_armed_per_pending_command (s : Hci.t) (id id' : nat) :
  Hci.reachable s ->
  (Hci.armed s id <->
   exists c, Hci.onCmdComplete s = Some c /\ Hci.timeoutId c = id)
  /\ (Hci.armed s id -> Hci.armed s id' -> id = id')
  /\ (forall tm, Hci.timers s !! id = Some (Some tm) ->
                 Hci.delay tm = Hci.cmdTimeout s)
  /\ (Hci.onCmdComplete s = None -> ~ Hci.armed s id).
Proof.
  intros Hreach. destruct (reachable_invariant s Hreach) as (Hslot & Harmed & _).
  assert (Hiff : forall i, Hci.armed s i ->
                  exists c, Hci.onCmdComplete s = Some c /\ Hci.timeoutId c = i).
  { intros i [tm Htm]. apply Harmed in Htm. eauto. }
  split; [|split; [|split]].
  - split; [apply Hiff|]. intros (c & Hc & <-). eexists. by apply Hslot.
  - intros (c & Hc & <-)%Hiff (c' & Hc' & <-)%Hiff. congruence.
  - intros tm Htm. pose proof (Harmed _ _ Htm) as Hc.
    apply Hslot in Hc. cbn in Hc. rewrite Htm in Hc.
    injection Hc as Hc. by rewrite Hc.
  - intros Hidle (c & Hc & _)%Hiff. congruence.
Qed.

Lemma one_timer_armed_per_pending_command_witness :
  let s := (Hci.reset (Hci.new None)).1 in
  Hci.armed s 0 <->
  exists c, Hci.onCmdComplete s = Some c /\ Hci.timeoutId c = 0%nat.
Proof.
  intros s.
  assert (Hreach : Hci.reachable s).
  { exists None, [Hci.Submit Hci.resetCommand]. reflexivity. }
  destruct (one_timer_armed_per_pending_command s 0 0 Hreach) as (H & _).
  exact H.
Defined.

(** X2. In every reachable state a caller that still waits is the
    caller of the command in the slot, and the timer of that command is
    armed: at most one promise is pending, and none is pending on an
    idle engine. *)
Theorem waiting_caller_holds_the_slot (s : Hci.t) (p q : nat) :
  Hci.reachable s ->
  Hci.promises s !! p = Some Pending ->
  (exists c, Hci.onCmdComplete s = Some c /\ Hci.promiseId c = p
             /\ Hci.timers s !! Hci.timeoutId c
                = Some (Some {| Hci.delay := Hci.cmdTimeout s; Hci.owner := p |}))
  /\ (Hci.promises s !! q = Some Pending -> q = p).
Proof.
  intros Hreach Hp.
  destruct (reachable_invariant s Hreach) as (Hslot & _ & Hpend).
  destruct (Hpend p Hp) as (c & Hc & <-). split.
  - exists c. split; [done|]. split; [done|]. by apply Hslot.
  - intros Hq. destruct (Hpend q Hq) as (c' & Hc' & <-). congruence.
Qed.

Lemma waiting_caller_holds_the_slot_witness :
  let s := (Hci.reset (Hci.new None)).1 in
  exists c, Hci.onCmdComplete s = Some c /\ Hci.promiseId c = 0%nat
            /\ Hci.timers s !! Hci.timeoutId c
               = Some (Some {| Hci.delay := Hci.cmdTimeout s; Hci.owner := 0%nat |}).
Proof.
  intros s.
  assert (Hreach : Hci.reachable s).
  { exists None, [Hci.Submit Hci.resetCommand]. reflexivity. }
  destruct (waiting_caller_holds_the_slot s 0 0 Hreach eq_refl) as (H & _).
  exact H.
Defined.

(** X3. A promise that is resolved or rejected stays as it is, whatever
    happens to the engine afterwards; the promises handed out are never
    removed. *)
Theorem settled_promise_is_final
    (s : Hci.t) (actions : list Hci.Action) (p : nat) (v : Promise) :
  Hci.promises s !! p = Some v -> v ≠ Pending ->
  Hci.promises (foldl Hci.act s actions) !! p = Some v
  /\ (length (Hci.promises s) <= length (Hci.promises (foldl Hci.act s actions)))%nat.
Proof.
  revert s. induction actions as [|a actions IH]; intros s Hp Hv; [done|].
  cbn [foldl].
  assert (Hstep : Hci.promises (Hci.act s a) !! p = Some v
                  /\ (length (Hci.promises s)
                      <= length (Hci.promises (Hci.act s a)))%nat).
  { assert (Hcomplete : forall c outcome,
               Hci.promises (Hci.complete c outcome s) !! p = Some v
               /\ (length (Hci.promises s)
                   <= length (Hci.promises (Hci.complete c outcome s)))%nat).
    { intros c outcome. cbn. rewrite length_alter. split; [|done].
      destruct (decide (Hci.promiseId c = p)) as [->|Hne].
      - rewrite list_lookup_alter_eq, Hp. cbn. by rewrite settle_settled.
      - by rewrite list_lookup_alter_ne. }
    destruct a as [cmd|data|id]; cbn [Hci.act].
    - pose proof (lookup_lt_Some _ _ _ Hp) as Hlt.
      destruct (Hci.onCmdComplete s) as [c|] eqn:Hc.
      + rewrite (send_busy _ _ _ Hc). cbn. rewrite length_app. cbn.
        split; [|lia]. by rewrite lookup_app_l.
      + rewrite (send_idle _ _ Hc). cbv zeta.
        destruct (Hci.buildBuffer cmd); cbn.
        * rewrite length_app. cbn. split; [|lia]. by rewrite lookup_app_l.
        * rewrite length_alter, length_app. cbn. split; [|lia].
          rewrite list_lookup_alter_ne by lia. by rewrite lookup_app_l.
    - unfold Hci.onData.
      destruct data as [|e [|l payload]]; [done..|].
      case_decide; [done|]. case_decide; [|done].
      destruct payload as [|n [|lo [|hi [|st ret]]]]; try done.
      destruct (Hci.onCmdComplete s) as [c|]; [|done].
      unfold Hci.handler. repeat case_decide; [done|apply Hcomplete..].
    - unfold Hci.expire.
      destruct (Hci.timers s !! id) as [[tm|]|]; [apply Hcomplete|done..]. }
  destruct Hstep as [Hp' Hlen].
  destruct (IH _ Hp' Hv) as [Hfinal Hlen']. split; [done | lia].
Qed.

Lemma settled_promise_is_final_witness :
  let s := Hci.expire 0 (Hci.reset (Hci.new None)).1 in
  Hci.promises
    (foldl Hci.act s
       [Hci.Deliver [x0e; x04; x01; x03; x0c; x00];
        Hci.Submit Hci.resetCommand; Hci.Expire 1]) !! 0%nat
  = Some (Rejected (ParserError Timeout)).
Proof.
  intros s.
  destruct (settled_promise_is_final s
              [Hci.Deliver [x0e; x04; x01; x03; x0c; x00];
               Hci.Submit Hci.resetCommand; Hci.Expire 1]
              0 (Rejected (ParserError Timeout)) eq_refl ltac:(discriminate))
    as [H _].
  exact H.
Defined.

(** X4. A Command Complete that arrives while no command is pending is
    dropped without a trace, also when it is the late reply to a
    command that has timed out: the caller stays rejected with
    [Timeout]. *)
Theorem late_reply_is_dropped
    (s : Hci.t) (c : Hci.Closure) (data : list byte)
    (evt : HciEvtCmdComplete.t) :
  Hci.awaiting s c ->
  cmdCompleteEvent data = Some evt ->
  let timedOut := Hci.expire (Hci.timeoutId c) s in
  Hci.onData data timedOut = timedOut
  /\ Hci.promises (Hci.onData data timedOut) !! Hci.promiseId c
     = Some (Rejected (ParserError Timeout))
  /\ (forall idle, Hci.onCmdComplete idle = None -> Hci.onData data idle = idle).
Proof.
  intros Haw Hevt timedOut.
  assert (Hidle : forall idle, Hci.onCmdComplete idle = None ->
                               Hci.onData data idle = idle).
  { intros idle Hnone. by rewrite (onData_cmdComplete _ _ _ Hevt), Hnone. }
  unfold timedOut. rewrite (expire_awaiting s c Haw).
  destruct (complete_awaiting s c (Rejected (ParserError Timeout)) Haw)
    as (Hslot & Hp & _).
  rewrite (Hidle _ Hslot). auto.
Qed.

Lemma late_reply_is_dropped_witness :
  let timedOut := Hci.expire 0 (Hci.reset (Hci.new None)).1 in
  Hci.onData [x0e; x04; x01; x03; x0c; x00] timedOut = timedOut.
Proof.
  intros timedOut.
  destruct (late_reply_is_dropped (Hci.reset (Hci.new None)).1
              {| Hci.timeoutId := 0; Hci.promiseId := 0 |}
              [x0e; x04; x01; x03; x0c; x00]
              {| HciEvtCmdComplete.numHciPackets := 1;
                 HciEvtCmdComplete.opcode := 0x0C03;
                 HciEvtCmdComplete.status := 0;
                 HciEvtCmdComplete.returnParameters := [] |})
    as (H & _).
  - split; [reflexivity|]. split; reflexivity.
  - reflexivity.
  - exact H.
Defined.

Lemma buildBuffer_throws (cmd : HciCommand.t) :
  ~ (0 <= HciCommand.opcode cmd < 65536)
  \/ (255 < length (default [] (HciCommand.params cmd)))%nat ->
  Hci.buildBuffer cmd = Throw RangeError.
Proof.
  intros Hbad.
  destruct (Hci.buildBuffer cmd) as [buffer|e] eqn:Hb.
  - destruct (buildBuffer_layout cmd buffer Hb) as (_ & Hop & Hlen).
    cbv zeta in Hlen. exfalso. destruct Hbad as [Hbad|Hbad]; [by apply Hbad|lia].
  - f_equal. revert Hb.
    unfold Hci.buildBuffer, Buffer.writeUInt16LE, Buffer.writeUInt8,
      Buffer.writeUIntLE.
    repeat (case_decide; cbn [mbind result_bind]); try congruence;
      destruct (HciCommand.params cmd); try case_decide; congruence.
Qed.

(** A command in the slot stays there under submissions and under
    packets that do not complete it; every submission is answered
    [Busy]. *)
Lemma busy_stays (s : Hci.t) (c : Hci.Closure) (actions : list Hci.Action) :
  Hci.onCmdComplete s = Some c ->
  Forall (notFreeing (Hci.cmdOpcode s)) actions ->
  let s' := foldl Hci.act s actions in
  Hci.onCmdComplete s' = Some c
  /\ Hci.cmdOpcode s' = Hci.cmdOpcode s
  /\ Hci.cmdTimeout s' = Hci.cmdTimeout s
  /\ Hci.timers s' = Hci.timers s
  /\ Hci.sent s' = Hci.sent s
  /\ Hci.promises s'
     = Hci.promises s
       ++ replicate (length (submitted actions)) (Rejected (ParserError Busy)).
Proof.
  intros Hslot. cbv zeta.
  induction actions as [|a actions IH] using rev_ind; intros Hall.
  - cbn. by rewrite app_nil_r.
  - apply Forall_app in Hall as [Hall Ha].
    rewrite Forall_singleton in Ha.
    destruct (IH Hall) as (Hc & Hop & Hto & Htm & Hsent & Hprom).
    rewrite foldl_snoc. unfold submitted in *. rewrite omap_app, length_app.
    set (s' := foldl Hci.act s actions) in *.
    destruct a as [cmd|data|id]; [| |by destruct Ha].
    + cbn [Hci.act]. rewrite (send_busy cmd s' c Hc).
      cbn [fst Hci.onCmdComplete Hci.cmdOpcode Hci.cmdTimeout Hci.timers
           Hci.sent Hci.promises omap list_omap length].
      rewrite Hprom, <- app_assoc.
      by rewrite (replicate_add _ 1).
    + cbn [Hci.act notFreeing] in *. rewrite <- Hop in Ha.
      destruct (onData_notCompleting data s' Ha)
        as (Hto' & Hop' & Hc' & Htm' & Hprom' & Hsent').
      rewrite Hto', Hop', Hc', Htm', Hprom', Hsent'.
      cbn [omap list_omap length]. by rewrite Nat.add_0_r.
Qed.

(** X5. A command [buildBuffer] refuses (an opcode outside 16 bits, or
    more than 255 parameter bytes) is rejected with the [RangeError] and
    nothing is sent; but the slot has been taken and the timer armed
    before.  From then on, through any submissions and any packets that
    are not a Command Complete for the opcode of the refused command,
    the slot stays taken, nothing is sent and every submission is
    rejected with [Busy].  The engine is freed by the expiry of that
    timer, and as well by a Command Complete that carries the opcode of
    the refused command, which was never sent: either empties the slot
    and clears the timer, and the caller stays rejected with the
    [RangeError]. *)
Theorem refused_command_blocks_the_engine
    (s : Hci.t) (cmd : HciCommand.t) (actions : list Hci.Action) :
  Hci.onCmdComplete s = None ->
  ~ (0 <= HciCommand.opcode cmd < 65536)
  \/ (255 < length (default [] (HciCommand.params cmd)))%nat ->
  Forall (notFreeing (HciCommand.opcode cmd)) actions ->
  let s1 := (Hci.send cmd s).1 in
  let p := (Hci.send cmd s).2 in
  let id := length (Hci.timers s) in
  let s2 := foldl Hci.act s1 actions in
  Hci.promises s1 !! p = Some (Rejected RangeError)
  /\ Hci.sent s1 = Hci.sent s
  /\ Hci.onCmdComplete s1 = Some {| Hci.timeoutId := id; Hci.promiseId := p |}
  /\ Hci.timers s1 !! id
     = Some (Some {| Hci.delay := Hci.cmdTimeout s; Hci.owner := p |})
  /\ Hci.onCmdComplete s2 = Some {| Hci.timeoutId := id; Hci.promiseId := p |}
  /\ Hci.timers s2 = Hci.timers s1
  /\ Hci.sent s2 = Hci.sent s
  /\ Hci.promises s2
     = Hci.promises s1
       ++ replicate (length (submitted actions)) (Rejected (ParserError Busy))
  /\ (let s3 := Hci.expire id s2 in
      Hci.onCmdComplete s3 = None
      /\ Hci.timers s3 !! id = Some None
      /\ Hci.promises s3 !! p = Some (Rejected RangeError))
  /\ (forall data evt,
        cmdCompleteEvent data = Some evt ->
        HciEvtCmdComplete.opcode evt = HciCommand.opcode cmd ->
        let s3 := Hci.onData data s2 in
        Hci.onCmdComplete s3 = None
        /\ Hci.timers s3 !! id = Some None
        /\ Hci.promises s3 !! p = Some (Rejected RangeError)
        /\ Hci.sent s3 = Hci.sent s).
Proof.
  intros Hidle Hbad Hall s1 p id s2.
  pose proof (buildBuffer_throws cmd Hbad) as Hthrow.
  assert (Hs1 : Hci.send cmd s
                = ({| Hci.cmdTimeout := Hci.cmdTimeout s;
                      Hci.cmdOpcode := HciCommand.opcode cmd;
                      Hci.onCmdComplete :=
                        Some {| Hci.timeoutId := length (Hci.timers s);
                                Hci.promiseId := length (Hci.promises s) |};
                      Hci.timers :=
                        Hci.timers s
                        ++ [Some {| Hci.delay := Hci.cmdTimeout s;
                                    Hci.owner := length (Hci.promises s) |}];
                      Hci.promises := Hci.promises s ++ [Rejected RangeError];
                      Hci.sent := Hci.sent s; Hci.emitted := Hci.emitted s |},
                   length (Hci.promises s))).
  { rewrite (send_idle _ _ Hidle), Hthrow. cbv zeta.
    unfold Hci.settlePromise. cbn [Hci.promises Hci.sent Hci.onCmdComplete
      Hci.cmdTimeout Hci.cmdOpcode Hci.timers Hci.emitted].
    by rewrite alter_last. }
  set (c := {| Hci.timeoutId := id; Hci.promiseId := p |}).
  assert (Hp : p = length (Hci.promises s)) by (unfold p; by rewrite Hs1).
  assert (H1c : Hci.onCmdComplete s1 = Some c).
  { unfold s1, c, p, id. by rewrite Hs1. }
  assert (H1op : Hci.cmdOpcode s1 = HciCommand.opcode cmd)
    by (unfold s1; by rewrite Hs1).
  assert (H1to : Hci.cmdTimeout s1 = Hci.cmdTimeout s)
    by (unfold s1; by rewrite Hs1).
  assert (H1sent : Hci.sent s1 = Hci.sent s) by (unfold s1; by rewrite Hs1).
  assert (H1tm : Hci.timers s1 !! id
                 = Some (Some {| Hci.delay := Hci.cmdTimeout s; Hci.owner := p |})).
  { unfold s1, p, id. rewrite Hs1. cbn [fst snd Hci.timers].
    by apply list_lookup_middle. }
  assert (H1p : Hci.promises s1 !! p = Some (Rejected RangeError)).
  { unfold s1, p. rewrite Hs1. cbn [fst snd Hci.promises].
    by apply list_lookup_middle. }
  rewrite <- H1op in Hall.
  destruct (busy_stays s1 c actions H1c Hall)
    as (H2c & H2op & H2to & H2tm & H2sent & H2prom).
  fold s2 in H2c, H2op, H2to, H2tm, H2sent, H2prom.
  assert (H2p : Hci.promises s2 !! p = Some (Rejected RangeError)).
  { rewrite H2prom. apply lookup_app_l_Some. exact H1p. }
  assert (Hdone : forall outcome,
            let s3 := Hci.complete c outcome s2 in
            Hci.onCmdComplete s3 = None
            /\ Hci.timers s3 !! id = Some None
            /\ Hci.promises s3 !! p = Some (Rejected RangeError)
            /\ Hci.sent s3 = Hci.sent s).
  { intros outcome. unfold Hci.complete.
    cbn [Hci.onCmdComplete Hci.timers Hci.promises Hci.sent
         Hci.timeoutId Hci.promiseId c].
    split; [done|]. split.
    { apply list_lookup_insert_eq. rewrite H2tm.
      by eapply lookup_lt_Some. }
    split; [|congruence].
    rewrite list_lookup_alter_eq, H2p. done. }
  split; [done|]. split; [done|]. split; [done|]. split; [done|].
  split; [done|]. split; [done|]. split; [congruence|]. split; [done|].
  split.
  - cbv zeta. unfold Hci.expire. rewrite H2tm, H1tm.
    cbn [Hci.owner]. fold c.
    destruct (Hdone (Rejected (ParserError Timeout))) as (? & ? & ? & _).
    done.
  - intros data evt Hevt Hop. cbv zeta.
    rewrite (onData_cmdComplete data evt s2 Hevt), H2c.
    unfold Hci.handler.
    rewrite decide_False by (intros Hne; apply Hne; congruence).
    case_decide; apply Hdone.
Qed.

Lemma refused_command_blocks_the_engine_witness :
  let cmd := {| HciCommand.opcode := 0x2036;
                HciCommand.params := Some (replicate 256 x00) |} in
  let s1 := (Hci.send cmd (Hci.new None)).1 in
  let s2 := foldl Hci.act s1
              [Hci.Submit Hci.resetCommand;
               Hci.Deliver [x0e; x04; x01; x03; x0c; x00];
               Hci.Submit Hci.resetCommand] in
  Hci.promises s1 !! 0%nat = Some (Rejected RangeError)
  /\ Hci.promises s2
     = Hci.promises s1
       ++ [Rejected (ParserError Busy); Rejected (ParserError Busy)]
  /\ Hci.sent s2 = []
  /\ Hci.onCmdComplete (Hci.onData [x0e; x04; x01; x36; x20; x00] s2) = None.
Proof.
  intros cmd s1 s2.
  destruct (refused_command_blocks_the_engine (Hci.new None) cmd
              [Hci.Submit Hci.resetCommand;
               Hci.Deliver [x0e; x04; x01; x03; x0c; x00];
               Hci.Submit Hci.resetCommand] eq_refl)
    as (H1 & _ & _ & _ & _ & _ & H2 & H3 & _ & H4).
  - right. cbn. lia.
  - repeat constructor. intros evt. vm_compute. intros [= <-]. discriminate.
  - split; [exact H1|]. split; [exact H3|]. split; [exact H2|].
    destruct (H4 [x0e; x04; x01; x36; x20; x00]
                {| HciEvtCmdComplete.numHciPackets := 1;
                   HciEvtCmdComplete.opcode := 0x2036;
                   HciEvtCmdComplete.status := 0;
                   HciEvtCmdComplete.returnParameters := [] |})
      as (H & _); [reflexivity|reflexivity|exact H].
Defined.

(** ** Reading and writing buffers *)

Lemma le_bytes_length (n : nat) (v : Z) : length (Buffer.le_bytes n v) = n.
Proof. revert v. induction n as [|n IH]; intros v; cbn; [done|]. by rewrite IH. Qed.

Lemma le_value_range (bs : list byte) :
  0 <= Buffer.le_value bs < 256 ^ Z.of_nat (length bs).
Proof.
  induction bs as [|b bs IH]; cbn [Buffer.le_value length]; [cbn; lia|].
  rewrite Nat2Z.inj_succ, Z.pow_succ_r by lia.
  pose proof (u8_range b). lia.
Qed.

(** Writing a number and reading it back, and the converse. *)
Lemma le_value_le_bytes (n : nat) (v : Z) :
  0 <= v < 256 ^ Z.of_nat n -> Buffer.le_value (Buffer.le_bytes n v) = v.
Proof.
  revert v. induction n as [|n IH]; intros v Hv.
  - cbn in *. lia.
  - cbn [Buffer.le_bytes Buffer.le_value].
    rewrite Nat2Z.inj_succ, Z.pow_succ_r in Hv by lia.
    rewrite IH, u8_byte_of_Z_mod.
    + pose proof (Z.div_mod v 256 ltac:(lia)). lia.
    + split; [apply Z.div_pos; lia | apply Z.div_lt_upper_bound; lia].
Qed.

Lemma le_bytes_le_value (bs : list byte) :
  Buffer.le_bytes (length bs) (Buffer.le_value bs) = bs.
Proof.
  induction bs as [|b bs IH]; [done|].
  cbn [Buffer.le_value length Buffer.le_bytes].
  pose proof (u8_range b) as Hb. f_equal.
  - rewrite <- (byte_of_Z_u8 b) at 2. unfold byte_of_Z.
    by rewrite (Z.mul_comm 256), Z.mod_add by lia.
  - replace ((u8 b + 256 * Buffer.le_value bs) / 256)
      with (Buffer.le_value bs); [exact IH|].
    replace (u8 b + 256 * Buffer.le_value bs)
      with (Buffer.le_value bs * 256 + u8 b) by lia.
    rewrite Z.div_add_l by lia. rewrite Z.div_small by lia. lia.
Qed.

(** A write at the end of the part of a buffer that is already
    filled. *)
Lemma writeUIntLE_append (filled rest : list byte) (v : Z) (o n : nat) :
  length filled = o -> (n <= length rest)%nat -> 0 <= v < 256 ^ Z.of_nat n ->
  Buffer.writeUIntLE (filled ++ rest) v o n
  = Ok ((filled ++ Buffer.le_bytes n v) ++ drop n rest, (o + n)%nat).
Proof.
  intros Ho Hn Hv. unfold Buffer.writeUIntLE.
  rewrite decide_True by done.
  rewrite decide_True by (rewrite length_app; lia).
  do 2 f_equal. unfold Buffer.copy.
  rewrite le_bytes_length, length_app, <- Ho.
  rewrite take_app_length, <- app_assoc. f_equal.
  rewrite take_ge by (rewrite le_bytes_length; lia). f_equal.
  by rewrite drop_app_add.
Qed.

Lemma writeUIntLE_out_of_range (buf : list byte) (v : Z) (o n : nat) :
  ~ (0 <= v < 256 ^ Z.of_nat n) ->
  Buffer.writeUIntLE buf v o n = Throw RangeError.
Proof. intros Hv. unfold Buffer.writeUIntLE. by rewrite decide_False. Qed.

Lemma copy_append (src filled rest : list byte) (o : nat) :
  length filled = o ->
  Buffer.copy src (filled ++ rest) o
  = filled ++ take (length rest) src ++ drop (length src) rest.
Proof.
  intros Ho. unfold Buffer.copy. rewrite length_app, <- Ho.
  rewrite take_app_length, drop_app_add. do 3 f_equal. lia.
Qed.

(** A read of bytes that are there. *)
Lemma readUIntLE_app (before bs after : list byte) (o n : nat) :
  length before = o -> length bs = n ->
  Buffer.readUIntLE (before ++ bs ++ after) o n = Ok (Buffer.le_value bs).
Proof.
  intros Ho Hn. unfold Buffer.readUIntLE.
  rewrite decide_True by (rewrite !length_app; lia).
  do 2 f_equal. unfold Buffer.slice. rewrite <- Ho, drop_app_length.
  replace (length before + n - length before)%nat with n by lia.
  by rewrite <- Hn, take_app_length.
Qed.

Lemma readUIntLE_beyond (buf : list byte) (o n : nat) :
  (length buf < o + n)%nat -> Buffer.readUIntLE buf o n = Throw RangeError.
Proof. intros H. unfold Buffer.readUIntLE. by rewrite decide_False by lia. Qed.

Lemma readUIntLE_range (buf : list byte) (o n : nat) (v : Z) :
  Buffer.readUIntLE buf o n = Ok v -> 0 <= v < 256 ^ Z.of_nat n.
Proof.
  unfold Buffer.readUIntLE. case_decide as Hlen; [|discriminate].
  intros [= <-]. pose proof (le_value_range (Buffer.slice buf o (o + n))) as Hr.
  replace (length (Buffer.slice buf o (o + n))) with n in Hr; [done|].
  unfold Buffer.slice. rewrite length_take, length_drop. lia.
Qed.

Lemma writeUIntLE_ok (buf : list byte) (v : Z) (o n : nat) :
  0 <= v < 256 ^ Z.of_nat n -> (o + n <= length buf)%nat ->
  Buffer.writeUIntLE buf v o n
  = Ok (take o buf ++ Buffer.le_bytes n v ++ drop (o + n) buf, (o + n)%nat).
Proof.
  intros Hv Hlen. unfold Buffer.writeUIntLE.
  rewrite decide_True by done. rewrite decide_True by done.
  do 2 f_equal. unfold Buffer.copy. rewrite le_bytes_length.
  by rewrite (take_ge (Buffer.le_bytes n v)) by (rewrite le_bytes_length; lia).
Qed.

(** ** [Hci.ts]: bit fields and the extended advertising data command *)

Lemma js_shl_1 (bit : Z) : 0 <= bit <= 30 -> js_shl 1 bit = 2 ^ bit.
Proof.
  intros Hb. unfold js_shl. rewrite (int32_small 1) by lia.
  rewrite Z.mod_small by lia. rewrite Z.shiftl_1_l.
  apply int32_small. split.
  - pose proof (Z.pow_nonneg 2 bit). lia.
  - apply Z.pow_lt_mono_r; lia.
Qed.

Lemma lor_below_2_31 (a b : Z) :
  0 <= a < 2 ^ 31 -> 0 <= b < 2 ^ 31 -> 0 <= Z.lor a b < 2 ^ 31.
Proof.
  intros Ha Hb.
  assert (Hnn : 0 <= Z.lor a b) by (apply Z.lor_nonneg; lia).
  split; [done|].
  apply (Z.bounded_iff_bits_nonneg 31); [lia|done|].
  intros l Hl. rewrite Z.lor_spec.
  rewrite (proj1 (Z.bounded_iff_bits_nonneg 31 a ltac:(lia) ltac:(lia))) by lia.
  by rewrite (proj1 (Z.bounded_iff_bits_nonneg 31 b ltac:(lia) ltac:(lia))) by lia.
Qed.

Lemma buildBitfield_from (bits : list Z) (acc : Z) :
  0 <= acc < 2 ^ 31 -> Forall (fun bit => 0 <= bit <= 30) bits ->
  let r := foldl (fun bitfield bit => js_or bitfield (js_shl 1 bit)) acc bits in
  0 <= r < 2 ^ 31
  /\ forall b, 0 <= b ->
       Z.testbit r b = Z.testbit acc b || bool_decide (b ∈ bits).
Proof.
  revert acc. induction bits as [|bit bits IH]; intros acc Hacc Hbits.
  - cbn. split; [done|]. intros b _. by rewrite orb_false_r.
  - inversion Hbits as [|? ? Hbit Hrest]; subst. cbn [foldl].
    assert (Hstep : js_or acc (js_shl 1 bit) = Z.lor acc (2 ^ bit)).
    { unfold js_or. rewrite js_shl_1 by done.
      rewrite (int32_small acc) by lia.
      rewrite (int32_small (2 ^ bit)); [done|].
      split; [pose proof (Z.pow_nonneg 2 bit); lia|apply Z.pow_lt_mono_r; lia]. }
    rewrite Hstep.
    assert (Hpow : 0 <= 2 ^ bit < 2 ^ 31).
    { split; [apply Z.pow_nonneg; lia | apply Z.pow_lt_mono_r; lia]. }
    destruct (IH (Z.lor acc (2 ^ bit)) (lor_below_2_31 _ _ Hacc Hpow) Hrest)
      as [Hr Hbitsr].
    split; [exact Hr|]. intros b Hb. rewrite Hbitsr by done.
    rewrite Z.lor_spec, Z.pow2_bits_eqb by lia.
    rewrite <- orb_assoc. f_equal.
    destruct (Z.eqb_spec bit b) as [->|Hne].
    + cbn. symmetry. apply bool_decide_eq_true. by left.
    + cbn. apply bool_decide_ext. rewrite elem_of_cons.
      split; [by right | intros [?|?]; [congruence | done]].
Qed.

(** X6. [buildBitfield] on bit numbers from 0 to 30: bit [b] of the
    result is set exactly when [b] occurs in the list (so neither the
    order nor a repetition matters), and the result is a non-negative
    31-bit number. *)
Theorem buildBitfield_sets_listed_bits (bits : list Z) (b : Z) :
  Forall (fun bit => 0 <= bit <= 30) bits -> 0 <= b ->
  (Z.testbit (Hci.buildBitfield bits) b = true <-> b ∈ bits)
  /\ 0 <= Hci.buildBitfield bits < 2 ^ 31.
Proof.
  intros Hbits Hb.
  destruct (buildBitfield_from bits 0 ltac:(lia) Hbits) as [Hr Hspec].
  split; [|exact Hr]. unfold Hci.buildBitfield.
  rewrite Hspec, Z.bits_0 by done. cbn. apply bool_decide_eq_true.
Qed.

Lemma buildBitfield_sets_listed_bits_witness :
  Z.testbit (Hci.buildBitfield [2; 0; 2]) 2 = true <-> 2 ∈ [2; 0; 2].
Proof.
  destruct (buildBitfield_sets_listed_bits [2; 0; 2] 2) as [H _].
  - repeat constructor; lia.
  - lia.
  - exact H.
Defined.

Ltac write_byte :=
  rewrite writeUIntLE_ok;
    [|change (256 ^ Z.of_nat 1) with 256; lia
     |cbn [length]; rewrite ?length_replicate; lia];
  cbn [mbind result_bind Nat.add replicate take drop app Buffer.le_bytes].

Lemma extendedDataPayload_ok (handle operation : Z) (fragment : bool)
    (data : list byte) :
  0 <= handle <= 255 -> 0 <= operation <= 255 -> (length data <= 255)%nat ->
  Hci.extendedDataPayload handle operation fragment data
  = Ok (byte_of_Z handle :: byte_of_Z operation
        :: (if fragment then x00 else x01)
        :: byte_of_Z (Z.of_nat (length data)) :: data).
Proof.
  intros Hh Hop Hlen. unfold Hci.extendedDataPayload, Buffer.alloc.
  assert (Hf : 0 <= (if fragment then 0 else 1) <= 255)
    by (destruct fragment; lia).
  cbn [Nat.add replicate]. do 4 write_byte.
  unfold Buffer.copy. cbn [take drop length Nat.sub Nat.add app].
  rewrite !drop_0, take_0, length_replicate, Nat.sub_0_r.
  rewrite (take_ge data), drop_replicate, Nat.sub_diag by lia.
  cbn [replicate app]. rewrite app_nil_r. by destruct fragment.
Qed.

Lemma extendedDataPayload_too_long (handle operation : Z) (fragment : bool)
    (data : list byte) :
  0 <= handle <= 255 -> 0 <= operation <= 255 -> (255 < length data)%nat ->
  Hci.extendedDataPayload handle operation fragment data = Throw RangeError.
Proof.
  intros Hh Hop Hlen. unfold Hci.extendedDataPayload, Buffer.alloc.
  assert (Hf : 0 <= (if fragment then 0 else 1) <= 255)
    by (destruct fragment; lia).
  cbn [Nat.add replicate]. do 3 write_byte.
  rewrite writeUIntLE_out_of_range
    by (change (256 ^ Z.of_nat 1) with 256; lia).
  reflexivity.
Qed.

Lemma send_idle_refused (cmd : HciCommand.t) (s : Hci.t) (e : Error) :
  Hci.onCmdComplete s = None -> Hci.buildBuffer cmd = Throw e ->
  Hci.send cmd s
  = ({| Hci.cmdTimeout := Hci.cmdTimeout s;
        Hci.cmdOpcode := HciCommand.opcode cmd;
        Hci.onCmdComplete :=
          Some {| Hci.timeoutId := length (Hci.timers s);
                  Hci.promiseId := length (Hci.promises s) |};
        Hci.timers :=
          Hci.timers s
          ++ [Some {| Hci.delay := Hci.cmdTimeout s;
                      Hci.owner := length (Hci.promises s) |}];
        Hci.promises := Hci.promises s ++ [Rejected e];
        Hci.sent := Hci.sent s; Hci.emitted := Hci.emitted s |},
     length (Hci.promises s)).
Proof.
  intros Hidle Hthrow. rewrite (send_idle _ _ Hidle), Hthrow. cbv zeta.
  unfold Hci.settlePromise. cbn [Hci.promises Hci.sent Hci.onCmdComplete
    Hci.cmdTimeout Hci.cmdOpcode Hci.timers Hci.emitted].
  by rewrite alter_last.
Qed.

(** X7. [leSetExtendedAdvertisingData] (and
    [leSetExtendedScanResponseData], whose body is the same) on an idle
    engine, with at most 251 bytes of data: the packet handed to the
    transport is the opcode (OGF in the upper six bits), the parameter
    length [4 + n], the handle, the operation, a byte that is 0 when
    [fragment] is true and 1 when it is false, the data length [n] and
    the data; the caller then waits for the completion. *)
Theorem extended_advertising_data_packet
    (LeControllerCommands ocf handle operation : Z) (fragment : bool)
    (data : list byte) (s : Hci.t) :
  Hci.onCmdComplete s = None ->
  0 <= LeControllerCommands < 64 -> 0 <= ocf < 1024 ->
  0 <= handle <= 255 -> 0 <= operation <= 255 ->
  (length data <= 251)%nat ->
  exists s' p,
    Hci.leSetExtendedAdvertisingData LeControllerCommands ocf
      handle operation fragment data s = Ok (s', p)
    /\ Hci.sent s'
       = Hci.sent s
         ++ [byte_of_Z (LeControllerCommands * 1024 + ocf)
             :: byte_of_Z ((LeControllerCommands * 1024 + ocf) / 256)
             :: byte_of_Z (Z.of_nat (4 + length data))
             :: byte_of_Z handle :: byte_of_Z operation
             :: (if fragment then x00 else x01)
             :: byte_of_Z (Z.of_nat (length data)) :: data]
    /\ Hci.promises s' !! p = Some Pending.
Proof.
  intros Hidle Hogf Hocf Hh Hop Hlen.
  unfold Hci.leSetExtendedAdvertisingData.
  rewrite extendedDataPayload_ok by (done || lia).
  cbn [mbind result_bind]. unfold Hci.sendLeCommand.
  set (payload := byte_of_Z handle :: _).
  set (cmd := {| HciCommand.opcode := _; HciCommand.params := Some payload |}).
  assert (Hopc : HciCommand.opcode cmd = LeControllerCommands * 1024 + ocf)
    by (by apply build_value).
  assert (Hpl : length payload = (4 + length data)%nat) by done.
  destruct (buildBuffer_total cmd) as [buffer Hbuf].
  { rewrite Hopc. lia. }
  { cbn. lia. }
  destruct (buildBuffer_layout cmd buffer Hbuf) as (Hlay & _).
  cbv zeta in Hlay. rewrite Hopc in Hlay.
  change (default [] (HciCommand.params cmd)) with payload in Hlay.
  rewrite Hpl in Hlay.
  destruct (send_idle_awaiting cmd s buffer Hidle Hbuf)
    as ((_ & Hpend & _) & _ & _ & _ & Hsent).
  exists (Hci.send cmd s).1, (Hci.send cmd s).2.
  split; [by destruct (Hci.send cmd s)|].
  split; [by rewrite Hsent, Hlay | exact Hpend].
Qed.

Lemma extended_advertising_data_packet_witness :
  exists s' p,
    Hci.leSetExtendedAdvertisingData 0x08 0x37 0 3 false [x02; x01; x06]
      (Hci.new None) = Ok (s', p)
    /\ Hci.sent s'
       = [[x37; x20; x07; x00; x03; x01; x03; x02; x01; x06]]
    /\ Hci.promises s' !! p = Some Pending.
Proof.
  destruct (extended_advertising_data_packet 0x08 0x37 0 3 false
              [x02; x01; x06] (Hci.new None) eq_refl)
    as (s' & p & H1 & H2 & H3); [lia | lia | lia | lia | cbn; lia |].
  exists s', p. split; [exact H1|]. split; [exact H2 | exact H3].
Defined.

(** X8. The same method with more data.  With more than 255 bytes the
    length byte cannot be written: the method fails with the
    [RangeError] before the engine is touched.  With 252 to 255 bytes
    the payload is built but the command packet cannot be: the caller is
    rejected with the [RangeError], nothing is sent, and the engine is
    left busy, its slot taken and the timer of the submission armed. *)
Theorem extended_advertising_data_too_long
    (LeControllerCommands ocf handle operation : Z) (fragment : bool)
    (data : list byte) (s : Hci.t) :
  Hci.onCmdComplete s = None ->
  0 <= handle <= 255 -> 0 <= operation <= 255 ->
  (251 < length data)%nat ->
  let r := Hci.leSetExtendedAdvertisingData LeControllerCommands ocf
             handle operation fragment data s in
  ((255 < length data)%nat -> r = Throw RangeError)
  /\ ((length data <= 255)%nat ->
      exists s' p,
        r = Ok (s', p)
        /\ Hci.promises s' !! p = Some (Rejected RangeError)
        /\ Hci.sent s' = Hci.sent s
        /\ Hci.onCmdComplete s' ≠ None
        /\ Hci.timers s' !! length (Hci.timers s)
           = Some (Some {| Hci.delay := Hci.cmdTimeout s; Hci.owner := p |})).
Proof.
  intros Hidle Hh Hop Hlong r. subst r.
  unfold Hci.leSetExtendedAdvertisingData. split.
  - intros Hlen. by rewrite extendedDataPayload_too_long.
  - intros Hlen. rewrite extendedDataPayload_ok by done.
    cbn [mbind result_bind]. unfold Hci.sendLeCommand.
    set (payload := byte_of_Z handle :: _).
    set (cmd := {| HciCommand.opcode := _; HciCommand.params := Some payload |}).
    assert (Hthrow : Hci.buildBuffer cmd = Throw RangeError).
    { apply buildBuffer_throws. right. cbn. lia. }
    rewrite (send_idle_refused cmd s RangeError Hidle Hthrow).
    eexists _, _. split; [reflexivity|]. cbn.
    split; [by apply list_lookup_middle|]. split; [done|].
    split; [done|]. by apply list_lookup_middle.
Qed.

Lemma extended_advertising_data_too_long_witness :
  exists s' p,
    Hci.leSetExtendedAdvertisingData 0x08 0x37 0 3 false (replicate 252 x00)
      (Hci.new None) = Ok (s', p)
    /\ Hci.promises s' !! p = Some (Rejected RangeError)
    /\ Hci.sent s' = [].
Proof.
  destruct (extended_advertising_data_too_long 0x08 0x37 0 3 false
              (replicate 252 x00) (Hci.new None) eq_refl)
    as (_ & H); [lia | lia | cbn; lia |].
  destruct H as (s' & p & H1 & H2 & H3 & _); [cbn; lia|].
  exists s', p. split; [exact H1|]. split; [exact H2 | exact H3].
Defined.

(** ** The ATT codecs: requests of fixed size *)

Ltac buffer_write :=
  rewrite writeUIntLE_ok;
    [|first [change (256 ^ Z.of_nat 1) with 256
            |change (256 ^ Z.of_nat 2) with 65536]; lia
     |cbn [length]; rewrite ?length_replicate; lia];
  cbn [mbind result_bind Nat.add replicate take drop app Buffer.le_bytes].

Lemma readUInt8_cons (b : byte) (rest : list byte) :
  Buffer.readUInt8 (b :: rest) 0 = Ok (u8 b).
Proof.
  unfold Buffer.readUInt8, Buffer.readUIntLE.
  rewrite decide_True by (cbn [length]; lia).
  unfold Buffer.slice. cbn [Nat.add Nat.sub drop take Buffer.le_value].
  rewrite take_0. cbn [Buffer.le_value]. f_equal. lia.
Qed.

Lemma readUInt8_nil : Buffer.readUInt8 [] 0 = Throw RangeError.
Proof. reflexivity. Qed.

Lemma le_bytes_2 (v : Z) :
  Buffer.le_bytes 2 v = [byte_of_Z v; byte_of_Z (v / 256)].
Proof. reflexivity. Qed.

Lemma le_bytes_2_of_value (lo hi : byte) :
  Buffer.le_bytes 2 (Buffer.le_value [lo; hi]) = [lo; hi].
Proof. apply (le_bytes_le_value [lo; hi]). Qed.

Lemma le_value_2_range (lo hi : byte) : 0 <= Buffer.le_value [lo; hi] <= 65535.
Proof. pose proof (le_value_range [lo; hi]) as H. cbn [length] in H.
  change (256 ^ Z.of_nat 2) with 65536 in H. lia. Qed.

Lemma exchangeMtuReq_serialize (opcode mtu : Z) :
  0 <= opcode <= 255 -> 0 <= mtu <= 65535 ->
  AttExchangeMtuReq.serialize opcode {| AttExchangeMtuReq.mtu := mtu |}
  = Ok (byte_of_Z opcode :: Buffer.le_bytes 2 mtu).
Proof.
  intros Hop Hmtu. unfold AttExchangeMtuReq.serialize, Buffer.alloc.
  cbn [AttExchangeMtuReq.size replicate AttExchangeMtuReq.mtu].
  by do 2 buffer_write.
Qed.

Lemma exchangeMtuReq_deserialize (opcode : Z) (b lo hi : byte) :
  u8 b = opcode ->
  AttExchangeMtuReq.deserialize opcode [b; lo; hi]
  = Ok (Some {| AttExchangeMtuReq.mtu := Buffer.le_value [lo; hi] |}).
Proof.
  intros Hb. unfold AttExchangeMtuReq.deserialize.
  rewrite readUInt8_cons. cbn [mbind result_bind].
  rewrite decide_False by (intros [?|?]; done). reflexivity.
Qed.

Lemma exchangeMtuReq_refuses (opcode : Z) (b : byte) (rest : list byte) :
  u8 b ≠ opcode \/ length (b :: rest) ≠ 3%nat ->
  AttExchangeMtuReq.deserialize opcode (b :: rest) = Ok None.
Proof.
  intros Hbad. unfold AttExchangeMtuReq.deserialize.
  rewrite readUInt8_cons. cbn [mbind result_bind].
  by rewrite decide_True.
Qed.

Lemma exchangeMtuRsp_serialize (opcode mtu : Z) :
  0 <= opcode <= 255 -> 0 <= mtu <= 65535 ->
  AttExchangeMtuRsp.serialize opcode {| AttExchangeMtuRsp.mtu := mtu |}
  = Ok (byte_of_Z opcode :: Buffer.le_bytes 2 mtu).
Proof.
  intros Hop Hmtu. unfold AttExchangeMtuRsp.serialize, Buffer.alloc.
  cbn [AttExchangeMtuRsp.size replicate AttExchangeMtuRsp.mtu].
  by do 2 buffer_write.
Qed.

Lemma exchangeMtuRsp_deserialize (opcode : Z) (b lo hi : byte) :
  u8 b = opcode ->
  AttExchangeMtuRsp.deserialize opcode [b; lo; hi]
  = Ok (Some {| AttExchangeMtuRsp.mtu := Buffer.le_value [lo; hi] |}).
Proof.
  intros Hb. unfold AttExchangeMtuRsp.deserialize.
  rewrite readUInt8_cons. cbn [mbind result_bind].
  rewrite decide_False by (intros [?|?]; done). reflexivity.
Qed.

(** X9. Exchange MTU request and response: for an opcode that is a byte
    and an MTU of 16 bits, [serialize] gives the opcode followed by the
    MTU, little-endian, and [deserialize] of these bytes gives the
    message back; the codec of a PDU with another opcode answers [null]
    to them. *)
Theorem exchange_mtu_round_trip (opcode other mtu : Z) :
  0 <= opcode <= 255 -> 0 <= mtu <= 65535 -> other ≠ opcode ->
  let pdu := byte_of_Z opcode :: Buffer.le_bytes 2 mtu in
  AttExchangeMtuReq.serialize opcode {| AttExchangeMtuReq.mtu := mtu |} = Ok pdu
  /\ AttExchangeMtuReq.deserialize opcode pdu
     = Ok (Some {| AttExchangeMtuReq.mtu := mtu |})
  /\ AttExchangeMtuRsp.serialize opcode {| AttExchangeMtuRsp.mtu := mtu |} = Ok pdu
  /\ AttExchangeMtuRsp.deserialize opcode pdu
     = Ok (Some {| AttExchangeMtuRsp.mtu := mtu |})
  /\ AttExchangeMtuReq.deserialize other pdu = Ok None.
Proof.
  intros Hop Hmtu Hother pdu. subst pdu.
  assert (Hv : Buffer.le_value (Buffer.le_bytes 2 mtu) = mtu)
    by (apply le_value_le_bytes; change (256 ^ Z.of_nat 2) with 65536; lia).
  assert (Hb : u8 (byte_of_Z opcode) = opcode) by (apply u8_byte_of_Z; lia).
  split; [by apply exchangeMtuReq_serialize|].
  split; [rewrite le_bytes_2, exchangeMtuReq_deserialize, <- le_bytes_2, Hv; done|].
  split; [by apply exchangeMtuRsp_serialize|].
  split; [rewrite le_bytes_2, exchangeMtuRsp_deserialize, <- le_bytes_2, Hv; done|].
  apply exchangeMtuReq_refuses. left. by rewrite Hb.
Qed.

Lemma exchange_mtu_round_trip_witness :
  AttExchangeMtuReq.deserialize 0x02 [x02; x17; x00]
  = Ok (Some {| AttExchangeMtuReq.mtu := 23 |})
  /\ AttExchangeMtuReq.deserialize 0x03 [x02; x17; x00] = Ok None.
Proof.
  destruct (exchange_mtu_round_trip 0x02 0x03 23) as (_ & H1 & _ & _ & H2);
    [lia | lia | lia |].
  split; [exact H1 | exact H2].
Defined.

(** X10. What [AttExchangeMtuReq.deserialize] accepts can be serialized
    again to the same bytes: a decoded message comes from a buffer of
    exactly three bytes, its MTU is a 16-bit number, and [serialize]
    gives the buffer back.  The empty buffer is not answered [null]:
    [readUInt8(0)] throws. *)
Theorem exchange_mtu_decode_then_encode
    (opcode : Z) (buffer : list byte) (m : AttExchangeMtuReq.Msg) :
  AttExchangeMtuReq.deserialize opcode buffer = Ok (Some m) ->
  length buffer = 3%nat
  /\ 0 <= AttExchangeMtuReq.mtu m <= 65535
  /\ AttExchangeMtuReq.serialize opcode m = Ok buffer
  /\ AttExchangeMtuReq.deserialize opcode [] = Throw RangeError.
Proof.
  intros Hdec. destruct buffer as [|b rest]; [discriminate|].
  destruct (decide (u8 b ≠ opcode \/ length (b :: rest) ≠ 3%nat)) as [Hbad|Hok].
  { rewrite exchangeMtuReq_refuses in Hdec by done. discriminate. }
  assert (Hb : u8 b = opcode).
  { destruct (decide (u8 b = opcode)); [done|]. exfalso. apply Hok. by left. }
  destruct rest as [|lo [|hi [|? ?]]];
    try (exfalso; apply Hok; right; cbn; lia).
  rewrite exchangeMtuReq_deserialize in Hdec by done.
  injection Hdec as <-. cbn [AttExchangeMtuReq.mtu].
  change (u8 lo + 256 * (u8 hi + 256 * 0)) with (Buffer.le_value [lo; hi]).
  pose proof (le_value_2_range lo hi) as Hr. pose proof (u8_range b) as Hbr.
  split; [done|]. split; [done|]. split; [|done].
  rewrite exchangeMtuReq_serialize by lia.
  by rewrite le_bytes_2_of_value, <- Hb, byte_of_Z_u8.
Qed.

Lemma exchange_mtu_decode_then_encode_witness :
  AttExchangeMtuReq.serialize 0x02 {| AttExchangeMtuReq.mtu := 23 |}
  = Ok [x02; x17; x00].
Proof.
  destruct (exchange_mtu_decode_then_encode 0x02 [x02; x17; x00]
              {| AttExchangeMtuReq.mtu := 23 |} eq_refl) as (_ & _ & H & _).
  exact H.
Defined.

(** X11. [AttExchangeMtuReq.serialize] throws a [RangeError], and gives
    no bytes, exactly when the MTU is not a number of 16 bits. *)
Theorem exchange_mtu_serialize_range (opcode mtu : Z) :
  0 <= opcode <= 255 ->
  (AttExchangeMtuReq.serialize opcode {| AttExchangeMtuReq.mtu := mtu |}
   = Throw RangeError <-> ~ (0 <= mtu <= 65535))
  /\ ((exists pdu, AttExchangeMtuReq.serialize opcode
                     {| AttExchangeMtuReq.mtu := mtu |} = Ok pdu
                   /\ length pdu = 3%nat)
      <-> 0 <= mtu <= 65535).
Proof.
  intros Hop.
  destruct (decide (0 <= mtu <= 65535)) as [Hin|Hout].
  - rewrite exchangeMtuReq_serialize by done. split.
    + split; [discriminate | done].
    + split; [done|]. intros _. eexists. split; [reflexivity|done].
  - assert (Hthrow : AttExchangeMtuReq.serialize opcode
                       {| AttExchangeMtuReq.mtu := mtu |} = Throw RangeError).
    { unfold AttExchangeMtuReq.serialize, Buffer.alloc.
      cbn [AttExchangeMtuReq.size replicate AttExchangeMtuReq.mtu].
      buffer_write.
      rewrite writeUIntLE_out_of_range
        by (change (256 ^ Z.of_nat 2) with 65536; lia).
      reflexivity. }
    rewrite Hthrow. split; [done|].
    split; [intros (pdu & H & _); discriminate | done].
Qed.

Lemma exchange_mtu_serialize_range_witness :
  AttExchangeMtuReq.serialize 0x02 {| AttExchangeMtuReq.mtu := 65536 |}
  = Throw RangeError <-> ~ (0 <= 65536 <= 65535).
Proof.
  destruct (exchange_mtu_serialize_range 0x02 65536) as [H _]; [lia|].
  exact H.
Defined.

(** X12. Find Information request: for an opcode that is a byte and
    handles of 16 bits, [serialize] gives five bytes, the opcode and the
    two handles little-endian, and [deserialize] of them gives the
    message back; a buffer of another length or with another first byte
    is answered [null]. *)
Theorem find_information_req_round_trip
    (opcode startingHandle endingHandle : Z) (b : byte) (rest : list byte) :
  0 <= opcode <= 255 ->
  0 <= startingHandle <= 65535 -> 0 <= endingHandle <= 65535 ->
  u8 b ≠ opcode \/ length (b :: rest) ≠ 5%nat ->
  let req := {| AttFindInformationReq.startingHandle := startingHandle;
                AttFindInformationReq.endingHandle := endingHandle |} in
  let pdu := byte_of_Z opcode
             :: Buffer.le_bytes 2 startingHandle
             ++ Buffer.le_bytes 2 endingHandle in
  AttFindInformationReq.serialize opcode req = Ok pdu
  /\ AttFindInformationReq.deserialize opcode pdu = Ok (Some req)
  /\ AttFindInformationReq.deserialize opcode (b :: rest) = Ok None.
Proof.
  intros Hop Hs He Hbad req pdu. subst req pdu.
  assert (Hb : u8 (byte_of_Z opcode) = opcode) by (apply u8_byte_of_Z; lia).
  split; [|split].
  - unfold AttFindInformationReq.serialize, Buffer.alloc.
    cbn [AttFindInformationReq.size replicate
           AttFindInformationReq.startingHandle
           AttFindInformationReq.endingHandle].
    by do 3 buffer_write.
  - unfold AttFindInformationReq.deserialize.
    rewrite readUInt8_cons. cbn [mbind result_bind].
    rewrite decide_False by (intros [?|?]; done).
    set (hs := Buffer.le_bytes 2 startingHandle).
    set (he := Buffer.le_bytes 2 endingHandle).
    assert (Hhs : length hs = 2%nat) by apply le_bytes_length.
    assert (Hhe : length he = 2%nat) by apply le_bytes_length.
    change (byte_of_Z opcode :: hs ++ he) with ([byte_of_Z opcode] ++ hs ++ he).
    rewrite (readUIntLE_app [byte_of_Z opcode] hs he 1 2) by done.
    cbn [mbind result_bind].
    replace ([byte_of_Z opcode] ++ hs ++ he)
      with (([byte_of_Z opcode] ++ hs) ++ he ++ [])
      by (by rewrite app_nil_r, <- app_assoc).
    rewrite (readUIntLE_app _ he [] 3 2)
      by (rewrite ?length_app, ?Hhs; done).
    subst hs he.
    cbn [mbind result_bind].
    rewrite !le_value_le_bytes
      by (change (256 ^ Z.of_nat 2) with 65536; lia).
    reflexivity.
  - unfold AttFindInformationReq.deserialize.
    rewrite readUInt8_cons. cbn [mbind result_bind].
    by rewrite decide_True.
Qed.

Lemma find_information_req_round_trip_witness :
  AttFindInformationReq.deserialize 0x04 [x04; x01; x00; xff; xff]
  = Ok (Some {| AttFindInformationReq.startingHandle := 1;
                AttFindInformationReq.endingHandle := 65535 |})
  /\ AttFindInformationReq.deserialize 0x04 [x04; x01; x00; xff] = Ok None.
Proof.
  destruct (find_information_req_round_trip 0x04 1 65535 x04 [x01; x00; xff])
    as (_ & H1 & H2); [lia | lia | lia | right; cbn; lia |].
  split; [exact H1 | exact H2].
Defined.

(** ** The ATT codecs: Find Information response *)

Section FindInformationRsp.

Import AttFindInformationRsp.

Implicit Types (data : list Entry) (entry : Entry) (n : nat).

Lemma getUuidSizeFrom_Some n data m :
  getUuidSizeFrom (Some n) data = Some m
  <-> m = n /\ Forall (fun entry => length (uuid entry) = n) data.
Proof.
  induction data as [|entry data IH]; cbn [getUuidSizeFrom].
  - split; [intros [= <-]; by split | intros [-> _]; done].
  - case_decide as Hne.
    + split; [discriminate|]. intros [_ Hall].
      inversion Hall; subst. congruence.
    + rewrite IH. split.
      * intros [-> Hall]. split; [done|]. constructor; [|done].
        destruct (decide (n = length (uuid entry))); [done|]. by exfalso.
      * intros [-> Hall]. split; [done|]. by inversion Hall.
Qed.

Lemma getUuidSize_Some data n :
  getUuidSize data = Some n
  <-> data ≠ [] /\ (n = 2%nat \/ n = 16%nat)
      /\ Forall (fun entry => length (uuid entry) = n) data.
Proof.
  unfold getUuidSize. destruct data as [|entry data]; cbn [getUuidSizeFrom].
  - split; [discriminate | intros [? _]; done].
  - case_decide as Hsize.
    + split; [discriminate|]. intros (_ & Hn & Hall).
      inversion Hall; subst. lia.
    + rewrite getUuidSizeFrom_Some. split.
      * intros [-> Hall]. split; [done|]. split; [lia|]. by constructor.
      * intros (_ & _ & Hall). inversion Hall; subst. by split.
Qed.

(** X13. [getUuidSize] answers a size exactly for a list that is not
    empty and whose UUIDs all have that size, 2 or 16 bytes; for the
    empty list, a UUID of another size, or two sizes in one list, it
    answers [null]. *)
Theorem getUuidSize_characterised data n :
  (getUuidSize data = Some n
   <-> data ≠ [] /\ (n = 2%nat \/ n = 16%nat)
       /\ Forall (fun entry => length (uuid entry) = n) data)
  /\ getUuidSize [] = None
  /\ (getUuidSize data = None
      <-> data = []
          \/ ~ (exists m, (m = 2%nat \/ m = 16%nat)
                          /\ Forall (fun entry => length (uuid entry) = m) data)).
Proof.
  split; [apply getUuidSize_Some|]. split; [done|].
  destruct (getUuidSize data) as [m|] eqn:Hsize.
  - apply getUuidSize_Some in Hsize as (Hne & Hm & Hall).
    split; [discriminate|]. intros [?|Hnot]; [done|].
    exfalso. apply Hnot. eauto.
  - split; [|done]. intros _.
    destruct data as [|entry data]; [by left|]. right.
    intros (m & Hm & Hall).
    assert (Hs : getUuidSize (entry :: data) = Some m)
      by (by apply getUuidSize_Some).
    congruence.
Qed.

(** The loop of [serialize] fills the buffer entry by entry. *)
Lemma writeEntries_fills n data (filled rest : list byte) (o : nat) :
  length filled = o ->
  Forall (fun entry => length (uuid entry) = n
                       /\ 0 <= handle entry <= 65535) data ->
  length rest = ((2 + n) * length data)%nat ->
  writeEntries data (filled ++ rest) o
  = Ok (filled ++ concat (entryBytes <$> data)).
Proof.
  revert filled rest o.
  induction data as [|entry data IH]; intros filled rest o Ho Hall Hrest.
  - cbn in *. destruct rest; [done|]. cbn in Hrest. lia.
  - inversion Hall as [|? ? [Hlen Hh] Hall']; subst.
    cbn [writeEntries length] in *.
    rewrite writeUIntLE_append;
      [|done|lia|change (256 ^ Z.of_nat 2) with 65536; lia].
    cbn [mbind result_bind].
    rewrite copy_append by (rewrite length_app, le_bytes_length; lia).
    rewrite length_drop.
    rewrite (take_ge (uuid entry)) by lia.
    rewrite drop_drop.
    replace (filled ++ Buffer.le_bytes 2 (handle entry))
      with (filled ++ Buffer.le_bytes 2 (handle entry)) by done.
    rewrite fmap_cons, concat_cons. unfold entryBytes at 2.
    rewrite !length_app, le_bytes_length, length_drop.
    replace (min (length (uuid entry))
               (length filled + 2 + (length rest - 2) - (length filled + 2)))
      with (length (uuid entry)) by lia.
    rewrite (app_assoc (filled ++ _) (uuid entry)).
    rewrite IH.
    + by rewrite <- !app_assoc.
    + rewrite !length_app, le_bytes_length. lia.
    + done.
    + rewrite length_drop. lia.
Qed.

(** The loop of [deserialize] on such a buffer. *)
Lemma entries_decodes n data (filled : list byte) (o fuel : nat)
    (acc : list Entry) :
  length filled = o -> (length data < fuel)%nat ->
  Forall (fun entry => length (uuid entry) = n
                       /\ 0 <= handle entry <= 65535) data ->
  entries fuel n (filled ++ concat (entryBytes <$> data)) o acc
  = Done (Ok (filled ++ concat (entryBytes <$> (reversed <$> data)),
              acc ++ (reversed <$> data))).
Proof.
  revert data filled o acc.
  induction fuel as [|fuel IH]; intros data filled o acc Ho Hfuel Hall; [lia|].
  destruct data as [|entry data].
  - cbn [entries fmap list_fmap concat]. rewrite !app_nil_r.
    by rewrite decide_False by lia.
  - inversion Hall as [|? ? [Hlen Hh] Hall']; subst.
    cbn [entries]. rewrite !fmap_cons, !concat_cons.
    set (rest := concat (entryBytes <$> data)).
    assert (Hbuf : filled ++ entryBytes entry ++ rest
                   = filled ++ Buffer.le_bytes 2 (handle entry)
                       ++ uuid entry ++ rest)
      by (unfold entryBytes; by rewrite <- app_assoc).
    rewrite Hbuf. clear Hbuf.
    rewrite decide_True
      by (rewrite !length_app, le_bytes_length; lia).
    rewrite (readUIntLE_app filled (Buffer.le_bytes 2 (handle entry)))
      by (done || apply le_bytes_length).
    rewrite le_value_le_bytes by (change (256 ^ Z.of_nat 2) with 65536; lia).
    assert (Hslice :
      Buffer.slice (filled ++ Buffer.le_bytes 2 (handle entry)
                      ++ uuid entry ++ rest)
        (length filled + 2) (length filled + 2 + length (uuid entry))
      = uuid entry).
    { unfold Buffer.slice. rewrite app_assoc.
      rewrite drop_app_length'
        by (rewrite length_app, le_bytes_length; lia).
      replace (length filled + 2 + length (uuid entry) - (length filled + 2))%nat
        with (length (uuid entry)) by lia.
      by rewrite take_app_length. }
    rewrite Hslice.
    rewrite (app_assoc filled), copy_append
      by (rewrite length_app, le_bytes_length; lia).
    rewrite take_ge by (rewrite length_app, length_reverse; lia).
    rewrite length_reverse, drop_app_length.
    rewrite (app_assoc _ (reverse (uuid entry)) rest).
    subst rest. rewrite IH.
    + unfold entryBytes at 2. unfold reversed at 2 3.
      cbn [handle uuid]. by rewrite <- !app_assoc.
    + rewrite !length_app, le_bytes_length, length_reverse. lia.
    + cbn [length] in Hfuel. lia.
    + done.
Qed.

Lemma concat_entryBytes_length n data :
  Forall (fun entry => length (uuid entry) = n
                       /\ 0 <= handle entry <= 65535) data ->
  length (concat (entryBytes <$> data)) = ((2 + n) * length data)%nat.
Proof.
  induction 1 as [|entry data [Hlen _] _ IH]; [cbn; lia|].
  rewrite fmap_cons, concat_cons, length_app, IH.
  unfold entryBytes. rewrite length_app, le_bytes_length, Hlen.
  cbn [length]. lia.
Qed.

Lemma serialize_valid n format data :
  data ≠ [] -> uuidSizeToFormat n = Some format ->
  Forall (fun entry => length (uuid entry) = n
                       /\ 0 <= handle entry <= 65535) data ->
  serialize data
  = inr (x05 :: byte_of_Z format :: concat (entryBytes <$> data)).
Proof.
  intros Hne Hfmt Hall.
  assert (Hn : n = 2%nat \/ n = 16%nat).
  { unfold uuidSizeToFormat in Hfmt. repeat case_decide; auto; discriminate. }
  assert (Hf : 0 <= format <= 255).
  { unfold uuidSizeToFormat in Hfmt. repeat case_decide; simplify_eq; lia. }
  assert (Hsize : getUuidSize data = Some n).
  { apply getUuidSize_Some. split; [done|]. split; [done|].
    eapply Forall_impl; [exact Hall|]. by intros ? [? _]. }
  unfold serialize. rewrite Hsize, Hfmt. unfold Buffer.alloc.
  cbn [Nat.add replicate].
  rewrite writeUIntLE_ok;
    [|unfold AttOpcode_FindInformationRsp; change (256 ^ Z.of_nat 1) with 256; lia
     |cbn [length]; lia].
  cbn [mbind result_bind Nat.add take drop app Buffer.le_bytes].
  rewrite writeUIntLE_ok;
    [|change (256 ^ Z.of_nat 1) with 256; lia|cbn [length]; lia].
  cbn [mbind result_bind Nat.add take drop app Buffer.le_bytes].
  change (byte_of_Z AttOpcode_FindInformationRsp) with x05.
  rewrite drop_0.
  change (x05 :: byte_of_Z format
          :: replicate (S (S n) * length data) x00)
    with ([x05; byte_of_Z format]
          ++ replicate (S (S n) * length data) x00).
  rewrite (writeEntries_fills n data [x05; byte_of_Z format]); [done|done|done|].
  by rewrite length_replicate.
Qed.

(** X14. [AttFindInformationRsp.serialize] on a list that is not empty,
    with UUIDs all of 2 or all of 16 bytes and handles of 16 bits: the
    PDU is the opcode 05, the format (1 for 2 bytes, 2 for 16), and for
    each entry the handle, little-endian, followed by the bytes of the
    UUID as they are in the entry.  On the empty list and on a list
    [getUuidSize] refuses it throws 'Invalid ATT response data'. *)
Theorem find_information_rsp_serialize data n :
  data ≠ [] -> n = 2%nat \/ n = 16%nat ->
  Forall (fun entry => length (uuid entry) = n
                       /\ 0 <= handle entry <= 65535) data ->
  serialize data
  = inr (x05 :: (if decide (n = 2%nat) then x01 else x02)
         :: concat (entryBytes <$> data))
  /\ length (x05 :: (if decide (n = 2%nat) then x01 else x02)
             :: concat (entryBytes <$> data))
     = (2 + (2 + n) * length data)%nat
  /\ serialize [] = inl InvalidAttResponseData
  /\ (forall data', getUuidSize data' = None ->
                    serialize data' = inl InvalidAttResponseData).
Proof.
  intros Hne Hn Hall. split; [|split; [|split]].
  - destruct Hn as [-> | ->].
    + by rewrite (serialize_valid 2 1 data).
    + by rewrite (serialize_valid 16 2 data).
  - cbn [length]. by rewrite (concat_entryBytes_length n).
  - done.
  - intros data' Hnone. unfold serialize. by rewrite Hnone.
Qed.

Lemma find_information_rsp_serialize_witness :
  serialize [ {| handle := 1; uuid := [x28; x00] |};
              {| handle := 2; uuid := [x28; x01] |} ]
  = inr [x05; x01; x01; x00; x28; x00; x02; x00; x28; x01].
Proof.
  destruct (find_information_rsp_serialize
              [ {| handle := 1; uuid := [x28; x00] |};
                {| handle := 2; uuid := [x28; x01] |} ] 2) as (H & _).
  - discriminate.
  - by left.
  - repeat constructor; cbn; lia.
  - exact H.
Defined.

Lemma deserialize_serialized n format data :
  data ≠ [] -> uuidSizeToFormat n = Some format ->
  Forall (fun entry => length (uuid entry) = n
                       /\ 0 <= handle entry <= 65535) data ->
  let pdu := x05 :: byte_of_Z format :: concat (entryBytes <$> data) in
  deserialize pdu
  = if decide (((2 + n) * length data) mod n ≠ 0)%nat
    then Done (Ok (pdu, None))
    else Done (Ok (x05 :: byte_of_Z format
                   :: concat (entryBytes <$> (reversed <$> data)),
                   Some (reversed <$> data))).
Proof.
  intros Hne Hfmt Hall pdu.
  assert (Hlen : length pdu = (2 + (2 + n) * length data)%nat).
  { subst pdu. cbn [length]. by rewrite (concat_entryBytes_length n). }
  assert (Hn : n = 2%nat /\ format = 1 \/ n = 16%nat /\ format = 2).
  { unfold uuidSizeToFormat in Hfmt. repeat case_decide; simplify_eq; auto. }
  assert (Hdata : (1 <= length data)%nat) by (destruct data; [done|cbn; lia]).
  assert (Hformat : uuidFormatToSize (u8 (byte_of_Z format)) = Some n).
  { destruct Hn as [[-> ->]|[-> ->]]; reflexivity. }
  unfold deserialize. subst pdu. rewrite readUInt8_cons.
  rewrite decide_False.
  2: { intros [Hop|Hshort]; [by apply Hop|].
       rewrite Hlen in Hshort. unfold minSize in Hshort. lia. }
  assert (Hfmtread :
    Buffer.readUInt8 (x05 :: byte_of_Z format :: concat (entryBytes <$> data)) 1
    = Ok (u8 (byte_of_Z format))).
  { unfold Buffer.readUInt8.
    rewrite (readUIntLE_app [x05] [byte_of_Z format]
               (concat (entryBytes <$> data)) 1 1) by done.
    cbn. f_equal. lia. }
  rewrite Hfmtread, Hformat, Hlen.
  replace (2 + (2 + n) * length data - 2)%nat
    with ((2 + n) * length data)%nat by lia.
  case_decide as Hmod; [done|].
  change (x05 :: byte_of_Z format :: concat (entryBytes <$> data))
    with ([x05; byte_of_Z format] ++ concat (entryBytes <$> data)).
  rewrite (entries_decodes n data [x05; byte_of_Z format] 2); [done|done| |done].
  destruct Hn as [[-> _]|[-> _]]; lia.
Qed.

(** X15. Decoding what [serialize] gives, for UUIDs of 2 bytes: the
    handles come back, and every UUID comes back with its two bytes
    exchanged ([serialize] copies the bytes as they are, [deserialize]
    reverses them); the buffer handed to [deserialize] ends up with
    these bytes exchanged too. *)
Theorem find_information_rsp_decodes_reversed_uuids data :
  data ≠ [] ->
  Forall (fun entry => length (uuid entry) = 2%nat
                       /\ 0 <= handle entry <= 65535) data ->
  exists pdu,
    serialize data = inr pdu
    /\ deserialize pdu
       = Done (Ok (x05 :: x01 :: concat (entryBytes <$> (reversed <$> data)),
                   Some (reversed <$> data))).
Proof.
  intros Hne Hall. eexists. split; [by apply (serialize_valid 2 1)|].
  pose proof (deserialize_serialized 2 1 data Hne eq_refl Hall) as Hdec.
  cbv zeta in Hdec. rewrite Hdec. rewrite decide_False; [done|].
  intros Hmod. apply Hmod. replace ((2 + 2) * length data)%nat
    with (length data * 2 * 2)%nat by lia. apply Nat.Div0.mod_mul.
Qed.

Lemma find_information_rsp_decodes_reversed_uuids_witness :
  exists pdu,
    serialize [ {| handle := 1; uuid := [x28; x00] |} ] = inr pdu
    /\ deserialize pdu
       = Done (Ok ([x05; x01; x01; x00; x00; x28],
                   Some [ {| handle := 1; uuid := [x00; x28] |} ])).
Proof.
  destruct (find_information_rsp_decodes_reversed_uuids
              [ {| handle := 1; uuid := [x28; x00] |} ]) as (pdu & H1 & H2).
  - discriminate.
  - repeat constructor; cbn; lia.
  - exists pdu. split; [exact H1 | exact H2].
Defined.

(** X16. Decoding what [serialize] gives, for UUIDs of 16 bytes:
    [deserialize] answers [null] unless the number of entries is a
    multiple of 8, because it tests the length of the entries against
    the size of a UUID; a response with a single 128-bit entry is never
    decoded. *)
Theorem find_information_rsp_128_bit_refused data :
  data ≠ [] ->
  Forall (fun entry => length (uuid entry) = 16%nat
                       /\ 0 <= handle entry <= 65535) data ->
  let pdu := x05 :: x02 :: concat (entryBytes <$> data) in
  serialize data = inr pdu
  /\ ((length data mod 8 ≠ 0)%nat -> deserialize pdu = Done (Ok (pdu, None)))
  /\ ((length data mod 8 = 0)%nat ->
      deserialize pdu
      = Done (Ok (x05 :: x02 :: concat (entryBytes <$> (reversed <$> data)),
                  Some (reversed <$> data)))).
Proof.
  intros Hne Hall pdu. subst pdu.
  split; [by apply (serialize_valid 16 2)|].
  pose proof (deserialize_serialized 16 2 data Hne eq_refl Hall) as Hdec.
  cbv zeta in Hdec. change (byte_of_Z 2) with x02 in Hdec. rewrite Hdec.
  assert (Hstride : (((2 + 16) * length data) mod 16
                     = 2 * (length data mod 8))%nat).
  { replace ((2 + 16) * length data)%nat
      with (2 * length data + length data * 16)%nat by lia.
    rewrite Nat.Div0.mod_add.
    change 16%nat with (2 * 8)%nat.
    by rewrite Nat.Div0.mul_mod_distr_l. }
  rewrite Hstride.
  split; intros Hmod.
  - rewrite decide_True; [done|]. lia.
  - rewrite decide_False; [done|]. lia.
Qed.

Lemma find_information_rsp_128_bit_refused_witness :
  let data := [ {| handle := 1;
                   uuid := [x00; x00; x28; x00; x00; x00; x10; x00;
                            x80; x00; x00; x80; x5f; x9b; x34; xfb] |} ] in
  deserialize (x05 :: x02 :: concat (entryBytes <$> data))
  = Done (Ok (x05 :: x02 :: concat (entryBytes <$> data), None)).
Proof.
  intros data.
  destruct (find_information_rsp_128_bit_refused data) as (_ & H & _).
  - discriminate.
  - repeat constructor; cbn; lia.
  - apply H. cbn. lia.
Defined.

End FindInformationRsp.

(** ** The advertising-data parser *)

Section AdvertisingData.

Import AdvDataParser.

Implicit Types (ad advData : AdvData.t) (field f : AdvDataField.t)
  (fields fs : list AdvDataField.t).

Lemma fieldsOf_encodeRecords fs (rest : list byte) :
  Forall fits fs ->
  fieldsOf (encodeRecords fs ++ rest) = run_map (app fs) (fieldsOf rest).
Proof.
  unfold encodeRecords. induction 1 as [|f fs Hf _ IH].
  - cbn [fmap list_fmap concat app]. by destruct (fieldsOf rest).
  - rewrite fmap_cons, concat_cons, <- app_assoc.
    rewrite fieldsOf_encodeRecord, IH by done.
    by rewrite run_map_compose.
Qed.

(** X17. The scan of [parse] on the concatenation of well-formed
    records (length byte, type byte, value of at most 254 bytes) finds
    exactly these records, in order, whatever their types and values
    are; [parse] then hands them to [parseField] one after the other. *)
Theorem scan_finds_the_encoded_records fs :
  Forall fits fs ->
  fieldsOf (encodeRecords fs) = Done fs
  /\ parse (Some (encodeRecords fs)) = Done (parseFields AdvData.empty fs).
Proof.
  intros Hfits.
  assert (Hscan : fieldsOf (encodeRecords fs) = Done fs).
  { rewrite <- (app_nil_r (encodeRecords fs)).
    rewrite fieldsOf_encodeRecords, fieldsOf_nil by done.
    cbn. by rewrite app_nil_r. }
  split; [done|]. unfold parse. by rewrite Hscan.
Qed.

Lemma scan_finds_the_encoded_records_witness :
  fieldsOf [x02; x01; x06; x03; x03; x0f; x18]
  = Done [ {| AdvDataField.type := x01; AdvDataField.data := [x06] |};
           {| AdvDataField.type := x03; AdvDataField.data := [x0f; x18] |} ].
Proof.
  apply (scan_finds_the_encoded_records
           [ {| AdvDataField.type := x01; AdvDataField.data := [x06] |};
             {| AdvDataField.type := x03; AdvDataField.data := [x0f; x18] |} ]).
  repeat constructor; unfold fits; cbn; lia.
Defined.

(** X18. A last record whose length byte announces more bytes than the
    buffer has left is not dropped: the scan yields it with the bytes
    that are there as its value, after the records before it. *)
Theorem scan_keeps_a_record_cut_short fs (len type : byte)
    (value : list byte) :
  Forall fits fs -> u8 len ≠ 0 ->
  (length value < Z.to_nat (u8 len) - 1)%nat ->
  fieldsOf (encodeRecords fs ++ len :: type :: value)
  = Done (fs ++ [{| AdvDataField.type := type; AdvDataField.data := value |}]).
Proof.
  intros Hfits Hlen Hshort.
  rewrite fieldsOf_encodeRecords, fieldsOf_record by done.
  by rewrite take_ge, drop_ge, fieldsOf_nil by lia.
Qed.

Lemma scan_keeps_a_record_cut_short_witness :
  fieldsOf [x02; x01; x06; x1e; xff; x4c; x00; x02]
  = Done [ {| AdvDataField.type := x01; AdvDataField.data := [x06] |};
           {| AdvDataField.type := xff;
              AdvDataField.data := [x4c; x00; x02] |} ].
Proof.
  apply (scan_keeps_a_record_cut_short
           [ {| AdvDataField.type := x01; AdvDataField.data := [x06] |} ]
           x1e xff [x4c; x00; x02]).
  - repeat constructor; unfold fits; cbn; lia.
  - cbn; lia.
  - cbn; lia.
Defined.

Lemma parseField_throws ad f e :
  parseField ad f = Throw e -> e = RangeError /\ unreadable f.
Proof.
  destruct f as [ty d]. unfold parseField, unreadable.
  cbn [AdvDataField.type AdvDataField.data].
  destruct ty; try discriminate.
  - (* 0A *) unfold Buffer.readInt8, Buffer.readUInt8, Buffer.readUIntLE.
    case_decide as Hlen; cbn [mbind result_bind]; [discriminate|].
    intros [= <-]. split; [done|]. left. split; [done|].
    destruct d; [done|]. cbn [length] in Hlen. lia.
  - (* FF *) unfold Buffer.readUInt16LE, Buffer.readUIntLE.
    case_decide as Hlen; cbn [mbind result_bind]; [discriminate|].
    intros [= <-]. split; [done|]. right. split; [done|]. lia.
Qed.

Lemma parseField_readable ad f :
  ~ unreadable f -> exists ad', parseField ad f = Ok ad'.
Proof.
  intros Hok. destruct (parseField ad f) as [ad'|e] eqn:Hf; [eauto|].
  apply parseField_throws in Hf as [_ Hbad]. done.
Qed.

Lemma parseField_unreadable ad f :
  unreadable f -> parseField ad f = Throw RangeError.
Proof.
  destruct f as [ty d]. unfold unreadable.
  cbn [AdvDataField.type AdvDataField.data].
  intros [[-> ->]|[-> Hlen]]; [done|].
  unfold parseField, Buffer.readUInt16LE, Buffer.readUIntLE.
  cbn [AdvDataField.type AdvDataField.data].
  by rewrite decide_False by lia.
Qed.

Lemma parseFields_readable ad fs :
  Forall (fun f => ~ unreadable f) fs -> exists ad', parseFields ad fs = Ok ad'.
Proof.
  intros Hall. revert ad.
  induction Hall as [|f fs Hf _ IH]; intros ad; [by eexists|].
  destruct (parseField_readable ad f Hf) as [ad1 H1].
  cbn [parseFields]. rewrite H1. cbn [mbind result_bind]. apply IH.
Qed.

Lemma parseFields_unreadable ad fs :
  Exists unreadable fs -> parseFields ad fs = Throw RangeError.
Proof.
  intros Hex. revert ad.
  induction fs as [|f fs IH]; intros ad; [by inversion Hex|].
  cbn [parseFields].
  destruct (parseField ad f) as [ad1|e] eqn:Hf; cbn [mbind result_bind].
  - apply IH. inversion Hex as [? ? Hbad|]; subst; [|done].
    rewrite (parseField_unreadable ad f Hbad) in Hf. discriminate.
  - apply parseField_throws in Hf as [-> _]. done.
Qed.

(** X19. [parse] throws exactly when the scan finds a TX Power Level
    record (type 0A) with an empty value or a Manufacturer Specific Data
    record (type FF) with fewer than two bytes of value; what it throws
    is the [RangeError] of the buffer read.  On every other buffer it
    returns an [AdvData]; a Flags record with an empty value, for one,
    leaves [flags] undefined. *)
Theorem parse_throws_on_short_values (adBuffer : list byte) :
  exists fields,
    fieldsOf adBuffer = Done fields
    /\ (Exists unreadable fields ->
        parse (Some adBuffer) = Done (Throw RangeError))
    /\ (~ Exists unreadable fields ->
        exists ad, parse (Some adBuffer) = Done (Ok ad))
    /\ (forall ad,
          parseField ad {| AdvDataField.type := x01; AdvDataField.data := [] |}
          = Ok (AdvData.set_flags None ad)).
Proof.
  destruct (splitFields_total (S (length adBuffer)) adBuffer 0 [])
    as [fields Hfields]; [lia|].
  exists fields. split; [done|].
  unfold parse, fieldsOf. rewrite Hfields. split; [|split].
  - intros Hex. by rewrite parseFields_unreadable.
  - intros Hnone.
    destruct (parseFields_readable AdvData.empty fields) as [ad Had].
    + apply Forall_forall. intros f Hin Hbad. apply Hnone.
      apply Exists_exists. eauto.
    + exists ad. by rewrite Had.
  - done.
Qed.

(** *** The UUID lists *)

Lemma uuidLoop_grows fuel size skipEmpty (data : list byte) (j : nat)
    (uuids : option (list string)) :
  NoDup (default [] uuids) ->
  NoDup (default [] (uuidLoop fuel size skipEmpty data j uuids))
  /\ default [] uuids
       `prefix_of` default [] (uuidLoop fuel size skipEmpty data j uuids).
Proof.
  revert j uuids. induction fuel as [|fuel IH]; intros j uuids Hnd;
    cbn [uuidLoop]; [done|].
  case_decide; [|done].
  destruct (skipEmpty && _); [by apply IH|].
  set (uuid := Buffer.toHex _).
  set (l := default [] uuids) in *.
  destruct (bool_decide_reflect (uuid ∈ l)) as [Hin|Hnin].
  - destruct (IH (j + size)%nat (Some l)) as [Hnd' Hpre]; [done|].
    split; [done|]. exact Hpre.
  - destruct (IH (j + size)%nat (Some (l ++ [uuid]))) as [Hnd' Hpre].
    + cbn [default from_option]. unfold id. apply NoDup_app.
      split; [done|]. split; [|apply NoDup_singleton].
      intros x Hx Hx'. apply list_elem_of_singleton in Hx'. by subst.
    + split; [done|]. etrans; [|exact Hpre].
      cbn [default from_option]. unfold id. by apply prefix_app_r.
Qed.

Lemma extends_refl ad : extends ad ad.
Proof. by repeat split. Qed.

Lemma extends_same ad ad' :
  AdvData.serviceUuids ad' = AdvData.serviceUuids ad ->
  AdvData.serviceSolicitationUuids ad' = AdvData.serviceSolicitationUuids ad ->
  extends ad ad'.
Proof. unfold extends. intros -> ->. by repeat split. Qed.

Lemma extends_trans ad1 ad2 ad3 :
  extends ad1 ad2 -> extends ad2 ad3 -> extends ad1 ad3.
Proof.
  intros (? & ? & ? & ?) (? & ? & ? & ?).
  split; [by etrans|]. split; [by etrans|]. split; auto.
Qed.

Lemma extends_serviceUuidLoop size skipEmpty ad (data : list byte) :
  extends ad (serviceUuidLoop size skipEmpty ad data).
Proof.
  unfold extends, serviceUuidLoop.
  cbn [AdvData.serviceUuids AdvData.serviceSolicitationUuids
       AdvData.set_serviceUuids].
  split; [|split; [done|split; [|done]]].
  - destruct (decide (NoDup (default [] (AdvData.serviceUuids ad)))) as [Hnd|Hnd].
    + by apply uuidLoop_grows.
    + clear Hnd. generalize (AdvData.serviceUuids ad) as uuids.
      generalize 0%nat as j. generalize (length data) at 1 as fuel.
      induction fuel as [|fuel IH]; intros j uuids; cbn [uuidLoop]; [done|].
      case_decide; [|done].
      destruct (skipEmpty && _); [apply IH|].
      etrans; [|apply IH]. cbn [default from_option]. unfold id.
      case_bool_decide; [done|]. by apply prefix_app_r.
  - intros Hnd. by apply uuidLoop_grows.
Qed.

Lemma extends_solicitationUuidLoop size ad (data : list byte) :
  extends ad (solicitationUuidLoop size ad data).
Proof.
  unfold extends, solicitationUuidLoop.
  cbn [AdvData.serviceUuids AdvData.serviceSolicitationUuids
       AdvData.set_serviceSolicitationUuids].
  split; [done|]. split; [|split; [done|]].
  - generalize (AdvData.serviceSolicitationUuids ad) as uuids.
    generalize 0%nat as j. generalize (length data) at 1 as fuel.
    induction fuel as [|fuel IH]; intros j uuids; cbn [uuidLoop]; [done|].
    case_decide; [|done]. cbn [andb].
    etrans; [|apply IH]. cbn [default from_option]. unfold id.
    case_bool_decide; [done|]. by apply prefix_app_r.
  - intros Hnd. by apply uuidLoop_grows.
Qed.

Lemma extends_parseField ad f ad' :
  parseField ad f = Ok ad' -> extends ad ad'.
Proof.
  destruct f as [ty d]. unfold parseField.
  cbn [AdvDataField.type AdvDataField.data]. cbv zeta.
  destruct ty;
    try (intros [= <-];
         first [ apply extends_refl
               | apply extends_serviceUuidLoop
               | apply extends_solicitationUuidLoop
               | apply extends_same; reflexivity ]).
  - (* 08 *) intros [= <-].
    destruct (falsy _); apply extends_same; reflexivity.
  - (* 0A *) destruct (Buffer.readInt8 d 0); cbn [mbind result_bind];
      intros [= <-]. apply extends_same; reflexivity.
  - (* FF *) destruct (Buffer.readUInt16LE d 0); cbn [mbind result_bind];
      intros [= <-]. apply extends_same; reflexivity.
Qed.

Lemma extends_parseFields ad fs ad' :
  parseFields ad fs = Ok ad' -> extends ad ad'.
Proof.
  revert ad. induction fs as [|f fs IH]; intros ad; cbn [parseFields].
  - intros [= <-]. apply extends_refl.
  - destruct (parseField ad f) as [ad1|e] eqn:H1; cbn [mbind result_bind];
      [|discriminate].
    intros H2. eapply extends_trans; [by eapply extends_parseField|by apply IH].
Qed.

(** X20. In the [AdvData] that [parse] returns, no UUID occurs twice in
    [serviceUuids] and none occurs twice in [serviceSolicitationUuids],
    however often the records of the buffer repeat it; and a record
    never removes or moves a UUID an earlier record put in a list: the
    list before is a prefix of the list after. *)
Theorem uuid_lists_have_no_duplicates (adBuffer : list byte) ad :
  parse (Some adBuffer) = Done (Ok ad) ->
  NoDup (default [] (AdvData.serviceUuids ad))
  /\ NoDup (default [] (AdvData.serviceSolicitationUuids ad))
  /\ (forall ad0 f ad1,
        parseField ad0 f = Ok ad1 ->
        default [] (AdvData.serviceUuids ad0)
          `prefix_of` default [] (AdvData.serviceUuids ad1)
        /\ default [] (AdvData.serviceSolicitationUuids ad0)
             `prefix_of` default [] (AdvData.serviceSolicitationUuids ad1)).
Proof.
  unfold parse. destruct (fieldsOf adBuffer) as [fields| |]; try discriminate.
  intros [= Hparse]. apply extends_parseFields in Hparse.
  destruct Hparse as (_ & _ & Hs & Hsol).
  split; [apply Hs, NoDup_nil_2|]. split; [apply Hsol, NoDup_nil_2|].
  intros ad0 f ad1 Hf. apply extends_parseField in Hf.
  destruct Hf as (? & ? & _). by split.
Qed.

Lemma uuid_lists_have_no_duplicates_witness :
  exists ad,
    parse (Some [x05; x03; x0f; x18; x0f; x18; x03; x02; x0f; x18])
    = Done (Ok ad)
    /\ NoDup (default [] (AdvData.serviceUuids ad)).
Proof.
  eexists. split; [reflexivity|].
  eapply (uuid_lists_have_no_duplicates
            [x05; x03; x0f; x18; x0f; x18; x03; x02; x0f; x18]).
  reflexivity.
Defined.

(** *** The local name *)

Lemma nameInvariant_parseField ad f ad' :
  parseField ad f = Ok ad' -> nameInvariant ad -> nameInvariant ad'.
Proof.
  destruct f as [ty d]. unfold parseField.
  cbn [AdvDataField.type AdvDataField.data]. cbv zeta.
  destruct ty; try (intros [= <-]; by intros ?).
  - (* 08 *) intros [= <-] [Hc Hn]. unfold nameInvariant, falsy.
    cbn [AdvData.localName AdvData.set_shortenedLocalName
         AdvData.shortenedLocalName AdvData.completeLocalName].
    destruct (AdvData.localName ad) as [name|] eqn:Hname.
    + case_bool_decide as Hempty;
        cbn [AdvData.localName AdvData.set_localName
             AdvData.set_shortenedLocalName
             AdvData.shortenedLocalName AdvData.completeLocalName].
      * split.
        -- intros c Hcomp Hne. specialize (Hc c Hcomp Hne). congruence.
        -- split; [discriminate | intros [? _]; discriminate].
      * rewrite Hname. split; [exact Hc|].
        split; [discriminate | intros [? _]; discriminate].
    + cbn [AdvData.localName AdvData.set_localName
           AdvData.set_shortenedLocalName
           AdvData.shortenedLocalName AdvData.completeLocalName].
      split.
      * intros c Hcomp Hne. specialize (Hc c Hcomp Hne). discriminate.
      * split; [discriminate | intros [? _]; discriminate].
  - (* 09 *) intros [= <-] _. unfold nameInvariant.
    cbn [AdvData.localName AdvData.set_localName
         AdvData.set_completeLocalName
         AdvData.shortenedLocalName AdvData.completeLocalName].
    split; [by intros c [= ->]|].
    split; [discriminate | intros [_ ?]; discriminate].
  - (* 0A *) destruct (Buffer.readInt8 d 0); cbn [mbind result_bind];
      intros [= <-]. by intros ?.
  - (* FF *) destruct (Buffer.readUInt16LE d 0); cbn [mbind result_bind];
      intros [= <-]. by intros ?.
Qed.

Lemma nameInvariant_parseFields ad fs ad' :
  parseFields ad fs = Ok ad' -> nameInvariant ad -> nameInvariant ad'.
Proof.
  revert ad. induction fs as [|f fs IH]; intros ad; cbn [parseFields].
  - by intros [= <-].
  - destruct (parseField ad f) as [ad1|e] eqn:H1; cbn [mbind result_bind];
      [|discriminate].
    intros H2 Hinv. eapply IH; [done|]. by eapply nameInvariant_parseField.
Qed.

(** Which records touch the three names. *)
Ltac parseField_cases H :=
  match type of H with
  | parseField _ {| AdvDataField.type := ?ty; AdvDataField.data := ?d |}
    = Ok _ =>
      unfold parseField in H;
      cbn [AdvDataField.type AdvDataField.data] in H; cbv zeta in H;
      destruct ty;
      try (destruct (Buffer.readInt8 d 0);
           cbn [mbind result_bind] in H; [|discriminate H]);
      try (destruct (Buffer.readUInt16LE d 0);
           cbn [mbind result_bind] in H; [|discriminate H]);
      injection H as <-
  end.

Lemma toUtf8_nonempty (value : list byte) :
  value ≠ [] -> Buffer.toUtf8 value ≠ EmptyString.
Proof. destruct value; [done|]. intros _. discriminate. Qed.

Lemma parseField_other_complete ad f ad' :
  parseField ad f = Ok ad' -> AdvDataField.type f ≠ x09 ->
  AdvData.completeLocalName ad' = AdvData.completeLocalName ad.
Proof.
  destruct f as [ty d]. cbn [AdvDataField.type]. intros H Hne.
  parseField_cases H; try done. by destruct (falsy _).
Qed.

Lemma parseField_other_shortened ad f ad' :
  parseField ad f = Ok ad' -> AdvDataField.type f ≠ x08 ->
  AdvData.shortenedLocalName ad' = AdvData.shortenedLocalName ad.
Proof.
  destruct f as [ty d]. cbn [AdvDataField.type]. intros H Hne.
  by parseField_cases H.
Qed.

Lemma parseField_other_localName ad f ad' :
  parseField ad f = Ok ad' ->
  AdvDataField.type f ≠ x08 -> AdvDataField.type f ≠ x09 ->
  AdvData.localName ad' = AdvData.localName ad.
Proof.
  destruct f as [ty d]. cbn [AdvDataField.type]. intros H Hne Hne'.
  by parseField_cases H.
Qed.

Lemma parseField_keeps_localName ad f ad' name :
  parseField ad f = Ok ad' -> AdvDataField.type f ≠ x09 ->
  AdvData.localName ad = Some name -> name ≠ EmptyString ->
  AdvData.localName ad' = Some name.
Proof.
  destruct f as [ty d]. cbn [AdvDataField.type]. intros H Hne Hname Hfull.
  parseField_cases H; try done.
  cbn [AdvData.localName AdvData.set_shortenedLocalName]. rewrite Hname.
  cbn [falsy]. by rewrite bool_decide_eq_false_2.
Qed.

Lemma parseField_complete ad (value : list byte) ad' :
  parseField ad {| AdvDataField.type := x09; AdvDataField.data := value |}
  = Ok ad' ->
  AdvData.completeLocalName ad' = Some (Buffer.toUtf8 value)
  /\ AdvData.localName ad' = Some (Buffer.toUtf8 value).
Proof. by intros [= <-]. Qed.

Lemma parseField_shortened ad (value : list byte) ad' :
  parseField ad {| AdvDataField.type := x08; AdvDataField.data := value |}
  = Ok ad' ->
  AdvData.shortenedLocalName ad' = Some (Buffer.toUtf8 value)
  /\ (AdvData.localName ad = None ->
      AdvData.localName ad' = Some (Buffer.toUtf8 value)).
Proof.
  intros [= <-]. split; [by destruct (falsy _)|].
  cbn [AdvData.localName AdvData.set_shortenedLocalName].
  by intros ->.
Qed.

Lemma parseField_names_back ad f ad' :
  parseField ad f = Ok ad' ->
  (AdvData.completeLocalName ad' = None ->
   AdvData.completeLocalName ad = None /\ AdvDataField.type f ≠ x09)
  /\ (AdvData.shortenedLocalName ad' = None ->
      AdvData.shortenedLocalName ad = None /\ AdvDataField.type f ≠ x08)
  /\ (AdvData.localName ad' = None ->
      AdvData.localName ad = None
      /\ AdvDataField.type f ≠ x08 /\ AdvDataField.type f ≠ x09).
Proof.
  destruct f as [ty d]. cbn [AdvDataField.type]. intros H.
  parseField_cases H;
    try (split; [|split]; intros Hnone;
         repeat split; (exact Hnone || discriminate)).
  - (* 08 *) split; [|split].
    + destruct (falsy _); intros Hnone; (split; [exact Hnone|discriminate]).
    + destruct (falsy _); discriminate.
    + destruct (AdvData.localName ad) as [name|] eqn:Hname; cbn [falsy];
        [case_bool_decide|];
        cbn [AdvData.localName AdvData.set_localName
             AdvData.set_shortenedLocalName];
        rewrite ?Hname; discriminate.
Qed.

Lemma parseFields_app ad fs fs' ad' :
  parseFields ad (fs ++ fs') = Ok ad' ->
  exists ad1, parseFields ad fs = Ok ad1 /\ parseFields ad1 fs' = Ok ad'.
Proof.
  revert ad. induction fs as [|f fs IH]; intros ad; cbn [app parseFields].
  - intros H. by exists ad.
  - destruct (parseField ad f) as [ad1|e]; cbn [mbind result_bind];
      [apply IH|discriminate].
Qed.

Lemma parseFields_names ad fs ad' :
  parseFields ad fs = Ok ad' ->
  (Forall (fun f => AdvDataField.type f ≠ x09) fs ->
   AdvData.completeLocalName ad' = AdvData.completeLocalName ad
   /\ forall name, AdvData.localName ad = Some name -> name ≠ EmptyString ->
                   AdvData.localName ad' = Some name)
  /\ (Forall (fun f => AdvDataField.type f ≠ x08) fs ->
      AdvData.shortenedLocalName ad' = AdvData.shortenedLocalName ad)
  /\ (Forall (fun f => AdvDataField.type f ≠ x08
                       /\ AdvDataField.type f ≠ x09) fs ->
      AdvData.localName ad' = AdvData.localName ad)
  /\ (AdvData.completeLocalName ad' = None ->
      Forall (fun f => AdvDataField.type f ≠ x09) fs)
  /\ (AdvData.shortenedLocalName ad' = None ->
      Forall (fun f => AdvDataField.type f ≠ x08) fs)
  /\ (AdvData.localName ad' = None ->
      Forall (fun f => AdvDataField.type f ≠ x08
                       /\ AdvDataField.type f ≠ x09) fs).
Proof.
  assert (Hback : forall fs ad ad',
    parseFields ad fs = Ok ad' ->
    (AdvData.completeLocalName ad' = None ->
     AdvData.completeLocalName ad = None
     /\ Forall (fun f => AdvDataField.type f ≠ x09) fs)
    /\ (AdvData.shortenedLocalName ad' = None ->
        AdvData.shortenedLocalName ad = None
        /\ Forall (fun f => AdvDataField.type f ≠ x08) fs)
    /\ (AdvData.localName ad' = None ->
        AdvData.localName ad = None
        /\ Forall (fun f => AdvDataField.type f ≠ x08
                            /\ AdvDataField.type f ≠ x09) fs)).
  { clear. intros fs. induction fs as [|f fs IH]; intros ad ad';
      cbn [parseFields].
    - intros [= <-]. by repeat split.
    - destruct (parseField ad f) as [ad1|e] eqn:H1; cbn [mbind result_bind];
        [|discriminate].
      intros H2. destruct (IH _ _ H2) as (Hc & Hs & Hl).
      destruct (parseField_names_back _ _ _ H1) as (Hc1 & Hs1 & Hl1).
      split; [|split]; intros Hnone.
      + destruct (Hc Hnone) as [Hn Hall]. destruct (Hc1 Hn). by split; [|constructor].
      + destruct (Hs Hnone) as [Hn Hall]. destruct (Hs1 Hn). by split; [|constructor].
      + destruct (Hl Hnone) as [Hn Hall]. destruct (Hl1 Hn) as (? & ? & ?).
        by split; [|constructor]. }
  intros Hparse. destruct (Hback _ _ _ Hparse) as (Hc & Hs & Hl).
  split; [|split; [|split; [|split; [|split]]]];
    [| | |intros H; by destruct (Hc H)|intros H; by destruct (Hs H)
     |intros H; by destruct (Hl H)]; clear Hback Hc Hs Hl.
  - intros Hall. revert ad Hparse.
    induction Hall as [|f fs Hf _ IH]; intros ad; cbn [parseFields].
    + by intros [= <-].
    + destruct (parseField ad f) as [ad1|e] eqn:H1; cbn [mbind result_bind];
        [|discriminate].
      intros H2. destruct (IH _ H2) as [Hc Hl].
      split; [rewrite Hc; by eapply parseField_other_complete|].
      intros name Hname Hfull. apply Hl; [|done].
      by eapply parseField_keeps_localName.
  - intros Hall. revert ad Hparse.
    induction Hall as [|f fs Hf _ IH]; intros ad; cbn [parseFields].
    + by intros [= <-].
    + destruct (parseField ad f) as [ad1|e] eqn:H1; cbn [mbind result_bind];
        [|discriminate].
      intros H2. rewrite (IH _ H2). by eapply parseField_other_shortened.
  - intros Hall. revert ad Hparse.
    induction Hall as [|f fs [Hf Hf'] _ IH]; intros ad; cbn [parseFields].
    + by intros [= <-].
    + destruct (parseField ad f) as [ad1|e] eqn:H1; cbn [mbind result_bind];
        [|discriminate].
      intros H2. rewrite (IH _ H2). by eapply parseField_other_localName.
Qed.

(** X21. The names in the [AdvData] that [parse] returns, from the
    records [fields] the scan finds in the buffer.  [completeLocalName]
    is the value of the last Complete Local Name record (type 09) and
    [shortenedLocalName] that of the last Shortened Local Name record
    (type 08); each is undefined exactly when the buffer has no such
    record.  [localName] is the last complete name when that is not
    empty, wherever the records with shortened names stand; without a
    complete name it is the first shortened name, when that is not
    empty; and it is undefined exactly when the buffer has neither kind
    of record. *)
Theorem complete_local_name_wins (adBuffer : list byte) fields ad :
  fieldsOf adBuffer = Done fields ->
  parse (Some adBuffer) = Done (Ok ad) ->
  (forall before value after,
     fields = before
              ++ {| AdvDataField.type := x09; AdvDataField.data := value |}
              :: after ->
     Forall (fun f => AdvDataField.type f ≠ x09) after ->
     AdvData.completeLocalName ad = Some (Buffer.toUtf8 value)
     /\ (value ≠ [] -> AdvData.localName ad = Some (Buffer.toUtf8 value)))
  /\ (forall before value after,
        fields = before
                 ++ {| AdvDataField.type := x08; AdvDataField.data := value |}
                 :: after ->
        Forall (fun f => AdvDataField.type f ≠ x08) after ->
        AdvData.shortenedLocalName ad = Some (Buffer.toUtf8 value))
  /\ (forall before value after,
        fields = before
                 ++ {| AdvDataField.type := x08; AdvDataField.data := value |}
                 :: after ->
        Forall (fun f => AdvDataField.type f ≠ x08
                         /\ AdvDataField.type f ≠ x09) before ->
        Forall (fun f => AdvDataField.type f ≠ x09) after ->
        value ≠ [] ->
        AdvData.localName ad = Some (Buffer.toUtf8 value))
  /\ (AdvData.completeLocalName ad = None
      <-> Forall (fun f => AdvDataField.type f ≠ x09) fields)
  /\ (AdvData.shortenedLocalName ad = None
      <-> Forall (fun f => AdvDataField.type f ≠ x08) fields)
  /\ (AdvData.localName ad = None
      <-> Forall (fun f => AdvDataField.type f ≠ x08
                           /\ AdvDataField.type f ≠ x09) fields)
  /\ (forall name, AdvData.completeLocalName ad = Some name ->
                   name ≠ EmptyString -> AdvData.localName ad = Some name)
  /\ (AdvData.localName ad = None
      <-> AdvData.shortenedLocalName ad = None
          /\ AdvData.completeLocalName ad = None).
Proof.
  intros Hscan. unfold parse. rewrite Hscan. intros [= Hparse].
  assert (Hsplit : forall before f after,
    fields = before ++ f :: after ->
    exists ad1 ad2,
      parseFields AdvData.empty before = Ok ad1
      /\ parseField ad1 f = Ok ad2 /\ parseFields ad2 after = Ok ad).
  { intros before f after ->.
    apply parseFields_app in Hparse as (ad1 & H1 & H2).
    cbn [parseFields] in H2.
    destruct (parseField ad1 f) as [ad2|e] eqn:Hf; cbn [mbind result_bind] in H2;
      [|discriminate].
    by exists ad1, ad2. }
  destruct (parseFields_names _ _ _ Hparse) as (Hc & Hs & Hl & Hc' & Hs' & Hl').
  split; [|split; [|split; [|split; [|split; [|split; [|split]]]]]].
  - intros before value after Hfields Hafter.
    destruct (Hsplit _ _ _ Hfields) as (ad1 & ad2 & _ & Hf & H2).
    apply parseField_complete in Hf as [Hcomp Hname].
    destruct (parseFields_names _ _ _ H2) as (Hkeep & _).
    destruct (Hkeep Hafter) as [Hsame Hlocal].
    split; [congruence|].
    intros Hfull. apply Hlocal; [done|]. by apply toUtf8_nonempty.
  - intros before value after Hfields Hafter.
    destruct (Hsplit _ _ _ Hfields) as (ad1 & ad2 & _ & Hf & H2).
    apply parseField_shortened in Hf as [Hshort _].
    destruct (parseFields_names _ _ _ H2) as (_ & Hkeep & _).
    rewrite (Hkeep Hafter). done.
  - intros before value after Hfields Hbefore Hafter Hfull.
    destruct (Hsplit _ _ _ Hfields) as (ad1 & ad2 & H1 & Hf & H2).
    destruct (parseFields_names _ _ _ H1) as (_ & _ & Hnone & _).
    apply parseField_shortened in Hf as [_ Hname].
    destruct (parseFields_names _ _ _ H2) as (Hkeep & _).
    destruct (Hkeep Hafter) as [_ Hlocal].
    apply Hlocal; [|by apply toUtf8_nonempty].
    apply Hname. by rewrite (Hnone Hbefore).
  - split; [done|]. intros Hall. by destruct (Hc Hall) as [-> _].
  - split; [done|]. intros Hall. by rewrite (Hs Hall).
  - split; [done|]. intros Hall. by rewrite (Hl Hall).
  - apply (nameInvariant_parseFields _ _ _ Hparse).
    split; [discriminate|]. by split.
  - apply (nameInvariant_parseFields _ _ _ Hparse).
    split; [discriminate|]. by split.
Qed.

Lemma complete_local_name_wins_witness :
  exists ad,
    parse (Some [x03; x09; x66; x6f; x02; x08; x66]) = Done (Ok ad)
    /\ AdvData.completeLocalName ad = Some "fo"%string
    /\ AdvData.shortenedLocalName ad = Some "f"%string
    /\ AdvData.localName ad = Some "fo"%string.
Proof.
  eexists. split; [reflexivity|].
  destruct (complete_local_name_wins [x03; x09; x66; x6f; x02; x08; x66]
              _ _ eq_refl eq_refl) as (Hc & Hs & _).
  destruct (Hc [] [x66; x6f]
              [ {| AdvDataField.type := x08; AdvDataField.data := [x66] |} ]
              eq_refl) as [Hcomp Hname].
  { repeat constructor. discriminate. }
  split; [exact Hcomp|]. split.
  - apply (Hs [ {| AdvDataField.type := x09;
                   AdvDataField.data := [x66; x6f] |} ] [x66] [] eq_refl).
    constructor.
  - apply Hname. discriminate.
Defined.

End AdvertisingData.

(** ** The parameters of the LE controller commands *)

Lemma le_value_app (bs cs : list byte) :
  Buffer.le_value (bs ++ cs)
  = Buffer.le_value bs + 256 ^ Z.of_nat (length bs) * Buffer.le_value cs.
Proof.
  induction bs as [|b bs IH]; cbn [app Buffer.le_value length].
  - change (256 ^ Z.of_nat 0) with 1. lia.
  - rewrite IH, Nat2Z.inj_succ, Z.pow_succ_r by lia. lia.
Qed.

Lemma readUIntLE_prefix (bs after : list byte) (n : nat) :
  length bs = n ->
  Buffer.readUIntLE (bs ++ after) 0 n = Ok (Buffer.le_value bs).
Proof. intros Hn. by apply (readUIntLE_app [] bs after 0 n). Qed.

Lemma fromBitmask_agree (m m' : Z) :
  (forall b, 0 <= b <= 41 -> Z.testbit m b = Z.testbit m' b) ->
  LeSupportedStates.fromBitmask m = LeSupportedStates.fromBitmask m'.
Proof.
  intros Hagree. rewrite !fromBitmask_setBits. f_equal.
  by apply setBits_agree.
Qed.

Lemma testbit_add_high (a c b : Z) :
  0 <= b < 48 -> Z.testbit (a + 2 ^ 48 * c) b = Z.testbit a b.
Proof.
  intros Hb. rewrite <- (Z.mod_pow2_bits_low (a + 2 ^ 48 * c) 48 b) by lia.
  rewrite (Z.mul_comm (2 ^ 48)), Z.mod_add by lia.
  apply Z.mod_pow2_bits_low. lia.
Qed.

(** X22. [LeSupportedStates.outParams] throws [InvalidPayloadSize]
    exactly when the parameters are absent or have fewer than 8 bytes
    (never a [RangeError]); otherwise the states it returns are those of
    the first six bytes, read little-endian: the bytes 6 and 7 of the
    bitmask and whatever follows them play no part. *)
Theorem supported_states_from_the_first_six_bytes
    (first upper tail : list byte) :
  length first = 6%nat -> length upper = 2%nat ->
  LeSupportedStates.outParams (Some (first ++ upper ++ tail))
  = Ok (LeSupportedStates.fromBitmask (Buffer.le_value first))
  /\ (forall params,
        LeSupportedStates.outParams params
        = Throw (ParserError InvalidPayloadSize)
        <-> params = None
            \/ exists p, params = Some p /\ (length p < 8)%nat)
  /\ (forall params, LeSupportedStates.outParams params ≠ Throw RangeError).
Proof.
  intros Hfirst Hupper.
  assert (Hread : forall p, ~ (length p < 8)%nat ->
            Buffer.readBigUInt64LE p 0
            = Ok (Buffer.le_value (Buffer.slice p 0 8))).
  { intros p Hp. unfold Buffer.readBigUInt64LE, Buffer.readUIntLE.
    by rewrite decide_True by lia. }
  split; [|split].
  - unfold LeSupportedStates.outParams.
    rewrite decide_False by (rewrite !length_app; lia).
    unfold Buffer.readBigUInt64LE.
    rewrite app_assoc, readUIntLE_prefix by (rewrite length_app; lia).
    cbn [mbind result_bind]. f_equal.
    apply fromBitmask_agree. intros b Hb.
    rewrite le_value_app, Hfirst. change (256 ^ Z.of_nat 6) with (2 ^ 48).
    apply testbit_add_high. lia.
  - intros [p|]; unfold LeSupportedStates.outParams.
    + case_decide as Hlen.
      * split; [|done]. intros _. right. eauto.
      * rewrite Hread by done. cbn [mbind result_bind].
        split; [discriminate|].
        intros [?|(p' & [= <-] & ?)]; [discriminate|lia].
    + split; [|done]. intros _. by left.
  - intros [p|]; unfold LeSupportedStates.outParams; [|discriminate].
    case_decide as Hlen; [discriminate|].
    rewrite Hread by done. discriminate.
Qed.

Lemma supported_states_from_the_first_six_bytes_witness :
  LeSupportedStates.outParams
    (Some ([x03; x00; x00; x00; x00; x02] ++ [xff; xff] ++ [x55]))
  = Ok [ [NonConnNonScanUndirectAdv]; [ScanUndirectAdv];
         [Initiating; ConnectionSlaveRole] ].
Proof.
  destruct (supported_states_from_the_first_six_bytes
              [x03; x00; x00; x00; x00; x02] [xff; xff] [x55])
    as (H & _); [reflexivity|reflexivity|].
  rewrite H. reflexivity.
Defined.

(** *** Extended advertising report: the event type *)

Section EventType.

Import LeExtAdvEventTypeParser.

Lemma sar_small (type k : Z) :
  0 <= type < 2 ^ 31 -> 0 <= k < 32 ->
  js_sar type k = type / 2 ^ k /\ 0 <= type / 2 ^ k < 2 ^ 31.
Proof.
  intros Ht Hk. unfold js_sar.
  rewrite int32_small, Z.mod_small, Z.shiftr_div_pow2 by lia.
  split; [done|]. split; [apply Z.div_pos; lia|].
  apply Z.div_lt_upper_bound; [lia|]. nia.
Qed.

Lemma field_bit (type k : Z) :
  0 <= type < 2 ^ 31 -> 0 <= k < 32 ->
  truthy (Some (js_and (js_sar type k) 1)) = Z.testbit type k.
Proof.
  intros Ht Hk. destruct (sar_small type k Ht Hk) as [-> Hrange].
  unfold js_and, truthy. rewrite !int32_small by lia.
  rewrite (Z.land_ones (type / 2 ^ k) 1 ltac:(lia) : Z.land _ 1 = _ mod 2).
  rewrite Z.testbit_odd, Z.shiftr_div_pow2, Zmod_odd by lia.
  destruct (Z.odd (type / 2 ^ k)); by apply bool_decide_eq_true_2
    || by apply bool_decide_eq_false_2; intros H; apply H.
Qed.

Lemma field_status (type : Z) :
  0 <= type < 2 ^ 31 -> js_and (js_sar type 5) 3 = (type / 32) mod 4.
Proof.
  intros Ht. destruct (sar_small type 5 Ht ltac:(lia)) as [-> Hrange].
  unfold js_and. rewrite !int32_small by lia.
  exact (Z.land_ones (type / 2 ^ 5) 2 ltac:(lia)).
Qed.

Lemma parse_bits (type : Z) :
  0 <= type < 2 ^ 31 ->
  parse type
  = {| ConnectableAdvertising := Z.testbit type 0;
       ScannableAdvertising   := Z.testbit type 1;
       DirectedAdvertising    := Z.testbit type 2;
       ScanResponse           := Z.testbit type 3;
       LegacyAdvertisingPDUs  := Z.testbit type 4;
       DataStatus             := Some ((type / 32) mod 4) |}.
Proof.
  intros Ht. unfold parse, fields, offsets, masks.
  cbn [length seq fmap list_fmap lookup list_lookup default from_option].
  unfold id. rewrite !field_bit, field_status by lia. done.
Qed.

(** X23. [LeExtAdvEventTypeParser.parse] on an event type of at most 31
    bits: the five flags are the bits 0 to 4, the data status is the
    number made of the bits 5 and 6, one of 0 to 3; the bits from 7 on
    are ignored. *)
Theorem event_type_reads_bits_0_to_6 (type : Z) :
  0 <= type < 2 ^ 31 ->
  parse type
  = {| ConnectableAdvertising := Z.testbit type 0;
       ScannableAdvertising   := Z.testbit type 1;
       DirectedAdvertising    := Z.testbit type 2;
       ScanResponse           := Z.testbit type 3;
       LegacyAdvertisingPDUs  := Z.testbit type 4;
       DataStatus             := Some ((type / 32) mod 4) |}
  /\ 0 <= (type / 32) mod 4 <= 3
  /\ parse type = parse (type mod 128).
Proof.
  intros Ht. split; [by apply parse_bits|].
  split; [pose proof (Z.mod_pos_bound (type / 32) 4 ltac:(lia)); lia|].
  pose proof (Z.mod_pos_bound type 128 ltac:(lia)) as Hlow.
  rewrite (parse_bits type), (parse_bits (type mod 128)) by lia.
  change 128 with (2 ^ 7). rewrite !Z.mod_pow2_bits_low by lia.
  do 2 f_equal. change (2 ^ 7) with 128.
  rewrite (Z.div_mod type 128) at 1 by lia.
  replace (128 * (type / 128) + type mod 128)
    with (type mod 128 + (4 * (type / 128)) * 32) by lia.
  rewrite Z.div_add by lia.
  rewrite (Z.mul_comm 4), Z.mod_add by lia. done.
Qed.

Lemma event_type_reads_bits_0_to_6_witness :
  parse 0x1b
  = {| ConnectableAdvertising := true; ScannableAdvertising := true;
       DirectedAdvertising := false; ScanResponse := true;
       LegacyAdvertisingPDUs := true; DataStatus := Some 0 |}.
Proof.
  destruct (event_type_reads_bits_0_to_6 0x1b) as (H & _); [lia|].
  rewrite H. reflexivity.
Defined.

End EventType.

(** *** Advertising and scan response data *)

(** X24. [LeSetAdvertisingScanResponseData.inParams] refuses data of
    more than 31 bytes with [InvalidCommandParameter]; for shorter data
    the payload has always 32 bytes: the length of the data, the data,
    and bytes 00 up to the end. *)
Theorem advertising_data_is_padded_to_32_bytes
    (InvalidCommandParameter : Z) (data : list byte) :
  ((31 < length data)%nat ->
   LeSetAdvertisingScanResponseData.inParams InvalidCommandParameter data
   = Throw (HciError InvalidCommandParameter))
  /\ ((length data <= 31)%nat ->
      LeSetAdvertisingScanResponseData.inParams InvalidCommandParameter data
      = Ok (byte_of_Z (Z.of_nat (length data))
            :: data ++ replicate (31 - length data) x00)
      /\ length (byte_of_Z (Z.of_nat (length data))
                 :: data ++ replicate (31 - length data) x00) = 32%nat).
Proof.
  unfold LeSetAdvertisingScanResponseData.inParams. split; intros Hlen.
  - by rewrite decide_True.
  - rewrite decide_False by lia. split.
    + unfold Buffer.writeUInt8, Buffer.alloc.
      rewrite writeUIntLE_ok;
        [|change (256 ^ Z.of_nat 1) with 256; lia
         |rewrite length_replicate; lia].
      cbn [mbind result_bind Nat.add]. rewrite take_0, drop_replicate.
      cbn [app Buffer.le_bytes Nat.sub].
      change (byte_of_Z (Z.of_nat (length data)) :: replicate 31 x00)
        with ([byte_of_Z (Z.of_nat (length data))] ++ replicate 31 x00).
      rewrite copy_append by done.
      rewrite length_replicate, take_ge, drop_replicate by lia.
      done.
    + cbn [length]. rewrite length_app, length_replicate. lia.
Qed.

Lemma advertising_data_is_padded_to_32_bytes_witness :
  LeSetAdvertisingScanResponseData.inParams 0x12 [x02; x01; x06]
  = Ok ([x03; x02; x01; x06] ++ replicate 28 x00).
Proof.
  destruct (advertising_data_is_padded_to_32_bytes 0x12 [x02; x01; x06])
    as (_ & H).
  destruct H as (H & _); [cbn; lia|].
  rewrite H. reflexivity.
Defined.

(** *** Channel map and buffer sizes *)

(** X25. [LeReadChannelMap]: [inParams] gives the two bytes of the
    connection handle, little-endian, and throws a [RangeError] for a
    handle that is not of 16 bits.  [outParams] throws
    [InvalidPayloadSize] exactly for absent parameters or fewer than 7
    bytes; otherwise it returns the five bytes after the first two,
    little-endian, a number below 2^40, whatever the first two bytes and
    the bytes after the seventh are. *)
Theorem channel_map_parameters (connHandle : Z)
    (handle map tail : list byte) :
  length handle = 2%nat -> length map = 5%nat ->
  LeReadChannelMap.outParams (Some (handle ++ map ++ tail))
  = Ok (Buffer.le_value map)
  /\ 0 <= Buffer.le_value map < 2 ^ 40
  /\ (forall params,
        LeReadChannelMap.outParams params
        = Throw (ParserError InvalidPayloadSize)
        <-> params = None
            \/ exists p, params = Some p /\ (length p < 7)%nat)
  /\ (forall params, LeReadChannelMap.outParams params ≠ Throw RangeError)
  /\ (0 <= connHandle <= 65535 ->
      LeReadChannelMap.inParams connHandle
      = Ok (Buffer.le_bytes 2 connHandle))
  /\ (~ 0 <= connHandle <= 65535 ->
      LeReadChannelMap.inParams connHandle = Throw RangeError).
Proof.
  intros Hhandle Hmap.
  assert (Hread : forall p, ~ (length p < 7)%nat ->
            Buffer.readUIntLE p 2 5
            = Ok (Buffer.le_value (Buffer.slice p 2 (2 + 5)))).
  { intros p Hp. unfold Buffer.readUIntLE. by rewrite decide_True by lia. }
  split; [|split; [|split; [|split; [|split]]]].
  - unfold LeReadChannelMap.outParams.
    rewrite decide_False by (rewrite !length_app; lia).
    by apply readUIntLE_app.
  - pose proof (le_value_range map) as Hr. rewrite Hmap in Hr.
    change (256 ^ Z.of_nat 5) with (2 ^ 40) in Hr. done.
  - intros [p|]; unfold LeReadChannelMap.outParams.
    + case_decide as Hlen.
      * split; [|done]. intros _. right. eauto.
      * rewrite Hread by done. split; [discriminate|].
        intros [?|(p' & [= <-] & ?)]; [discriminate|lia].
    + split; [|done]. intros _. by left.
  - intros [p|]; unfold LeReadChannelMap.outParams; [|discriminate].
    case_decide as Hlen; [discriminate|].
    rewrite Hread by done. discriminate.
  - intros Hc. unfold LeReadChannelMap.inParams, Buffer.alloc.
    rewrite writeUIntLE_ok;
      [|change (256 ^ Z.of_nat 2) with 65536; lia|cbn; lia].
    cbn [mbind result_bind Nat.add replicate take drop app].
    by rewrite app_nil_r.
  - intros Hc. unfold LeReadChannelMap.inParams, Buffer.writeUIntLE.
    rewrite decide_False; [done|].
    change (256 ^ Z.of_nat 2) with 65536. lia.
Qed.

Lemma channel_map_parameters_witness :
  LeReadChannelMap.outParams
    (Some ([x40; x00] ++ [xff; xff; xff; xff; x1f] ++ []))
  = Ok 0x1fffffffff.
Proof.
  destruct (channel_map_parameters 0 [x40; x00] [xff; xff; xff; xff; x1f] [])
    as (H & _); [reflexivity|reflexivity|].
  rewrite H. reflexivity.
Defined.

(** X26. [LeReadBufferSizeV2.outParams] on six bytes or more: the two
    packet lengths are the 16-bit little-endian numbers at 0 and at 3,
    the two packet counts the bytes at 2 and at 5, and the bytes after
    the sixth are ignored; on absent parameters and on fewer than six
    bytes, and only then, it throws [InvalidPayloadSize]. *)
Theorem buffer_size_v2_parameters
    (a0 a1 n i0 i1 m : byte) (tail : list byte) :
  LeReadBufferSizeV2.outParams (Some (a0 :: a1 :: n :: i0 :: i1 :: m :: tail))
  = Ok {| LeReadBufferSizeV2.leAclDataPacketLength := u8 a0 + 256 * u8 a1;
          LeReadBufferSizeV2.totalNumLeAclDataPackets := u8 n;
          LeReadBufferSizeV2.isoDataPacketLength := u8 i0 + 256 * u8 i1;
          LeReadBufferSizeV2.totalNumIsoDataPackets := u8 m |}
  /\ (forall params,
        LeReadBufferSizeV2.outParams params
        = Throw (ParserError InvalidPayloadSize)
        <-> params = None
            \/ exists p, params = Some p /\ (length p < 6)%nat).
Proof.
  split.
  - unfold LeReadBufferSizeV2.outParams.
    rewrite decide_False by (cbn [length]; lia).
    unfold Buffer.readUInt16LE, Buffer.readUInt8, Buffer.readUIntLE.
    rewrite !decide_True by (cbn [length]; lia).
    unfold Buffer.slice.
    cbn [mbind result_bind Nat.add Nat.sub drop take Buffer.le_value].
    rewrite !take_0. cbn [Buffer.le_value]. do 2 f_equal; lia.
  - intros [p|]; unfold LeReadBufferSizeV2.outParams.
    + case_decide as Hlen.
      * split; [|done]. intros _. right. eauto.
      * unfold Buffer.readUInt16LE, Buffer.readUInt8, Buffer.readUIntLE.
        rewrite !decide_True by lia. cbn [mbind result_bind].
        split; [discriminate|].
        intros [?|(p' & [= <-] & ?)]; [discriminate|lia].
    + split; [|done]. intros _. by left.
Qed.

(** *** Commands that take keys: the caller's buffers *)

Section Keys.

Implicit Types (h : gmap nat (list byte)) (r : nat).

Lemma Store_reverse_eq h r (b : list byte) :
  h !! r = Some b -> Store.reverse r h = <[r := reverse b]> h.
Proof.
  intros Hb. unfold Store.reverse. apply map_eq. intros i.
  destruct (decide (i = r)) as [->|Hne].
  - by rewrite lookup_alter_eq, lookup_insert_eq, Hb.
  - by rewrite lookup_alter_ne, lookup_insert_ne.
Qed.

Lemma Store_length_eq h r (b : list byte) :
  h !! r = Some b -> Store.length r h = length b.
Proof. intros Hb. unfold Store.length. by rewrite Hb. Qed.

Lemma Store_writeUIntLE_append h r (filled rest : list byte) (v : Z)
    (o n : nat) :
  h !! r = Some (filled ++ rest) -> length filled = o ->
  (n <= length rest)%nat -> 0 <= v < 256 ^ Z.of_nat n ->
  Store.writeUIntLE r v o n h
  = (<[r := (filled ++ Buffer.le_bytes n v) ++ drop n rest]> h,
     Ok (o + n)%nat).
Proof.
  intros Hr Ho Hn Hv. unfold Store.writeUIntLE. rewrite Hr.
  cbn [default from_option]. unfold id.
  by rewrite writeUIntLE_append.
Qed.

Lemma Store_writeUIntLE_refuses h r (v : Z) (o n : nat) :
  ~ 0 <= v < 256 ^ Z.of_nat n ->
  Store.writeUIntLE r v o n h = (h, Throw RangeError).
Proof.
  intros Hv. unfold Store.writeUIntLE, Buffer.writeUIntLE.
  by rewrite decide_False.
Qed.

Lemma fresh_unused h : h !! fresh (dom h) = None.
Proof. apply not_elem_of_dom. apply is_fresh. Qed.

(** The store after [LeEncrypt.inParams], buffer by buffer. *)
Lemma LeEncrypt_inParams_lookups (InvalidCommandParameter : Z) h
    (key plaintextData : nat) (k p : list byte) :
  h !! key = Some k -> h !! plaintextData = Some p ->
  length k = 16%nat -> length p = 16%nat -> key ≠ plaintextData ->
  let out := LeEncrypt.inParams InvalidCommandParameter key plaintextData h in
  let payload := fresh (dom h) in
  out.2 = Ok payload
  /\ out.1 !! payload = Some (reverse k ++ reverse p)
  /\ out.1 !! key = Some (reverse k)
  /\ out.1 !! plaintextData = Some (reverse p)
  /\ (forall r, r ≠ key -> r ≠ plaintextData -> r ≠ payload ->
                out.1 !! r = h !! r).
Proof.
  intros Hk Hp Hlk Hlp Hne out payload.
  pose proof (fresh_unused h) as Hfresh. fold payload in Hfresh.
  assert (Hfk : payload ≠ key) by congruence.
  assert (Hfp : payload ≠ plaintextData) by congruence.
  unfold out.
  rewrite (inParams_distinct InvalidCommandParameter h key plaintextData
             k p Hk Hp Hlk Hlp Hne).
  fold payload. cbn [fst snd].
  split; [done|]. split; [apply lookup_insert_eq|].
  split.
  { rewrite lookup_insert_ne, lookup_alter_ne, lookup_insert_ne,
      lookup_alter_eq, lookup_insert_ne, Hk by congruence.
    done. }
  split.
  { rewrite lookup_insert_ne, lookup_alter_eq, lookup_insert_ne,
      lookup_alter_ne, lookup_insert_ne, Hp by congruence.
    done. }
  intros r Hrk Hrp Hrf.
  by rewrite lookup_insert_ne, lookup_alter_ne, lookup_insert_ne,
    lookup_alter_ne, lookup_insert_ne by congruence.
Qed.

(** X27. Calling [LeEncrypt.inParams] a second time with the same two
    buffers does not give the same payload: the first call has left the
    key and the plaintext reversed, so the second payload is the key
    followed by the plaintext in their original byte order, and after it
    the caller's buffers are as they were before the first call.  The
    two payloads are different buffers, and the first one keeps its
    content. *)
Theorem LeEncrypt_second_call_sends_unreversed_bytes
    (InvalidCommandParameter : Z) h (key plaintextData : nat)
    (k p : list byte) :
  h !! key = Some k -> h !! plaintextData = Some p ->
  length k = 16%nat -> length p = 16%nat -> key ≠ plaintextData ->
  let first := LeEncrypt.inParams InvalidCommandParameter key plaintextData h in
  let second :=
    LeEncrypt.inParams InvalidCommandParameter key plaintextData first.1 in
  exists payload1 payload2,
    first.2 = Ok payload1 /\ second.2 = Ok payload2
    /\ payload1 ≠ payload2
    /\ second.1 !! payload1 = Some (reverse k ++ reverse p)
    /\ second.1 !! payload2 = Some (k ++ p)
    /\ second.1 !! key = Some k
    /\ second.1 !! plaintextData = Some p.
Proof.
  intros Hk Hp Hlk Hlp Hne first second.
  destruct (LeEncrypt_inParams_lookups InvalidCommandParameter h
              key plaintextData k p Hk Hp Hlk Hlp Hne)
    as (Hr1 & Hpay1 & Hk1 & Hp1 & _).
  fold first in Hr1, Hpay1, Hk1, Hp1.
  destruct (LeEncrypt_inParams_lookups InvalidCommandParameter first.1
              key plaintextData (reverse k) (reverse p) Hk1 Hp1)
    as (Hr2 & Hpay2 & Hk2 & Hp2 & Hframe);
    [by rewrite length_reverse|by rewrite length_reverse|done|].
  fold second in Hr2, Hpay2, Hk2, Hp2, Hframe.
  rewrite !reverse_involutive in *.
  pose proof (fresh_unused h) as Hf1.
  pose proof (fresh_unused first.1) as Hf2.
  exists (fresh (dom h)), (fresh (dom first.1)).
  assert (Hdiff : fresh (dom h) ≠ fresh (dom first.1)) by congruence.
  split; [done|]. split; [done|]. split; [done|].
  split; [|done].
  rewrite Hframe; [done|congruence|congruence|done].
Qed.

Lemma LeEncrypt_second_call_sends_unreversed_bytes_witness :
  let k := [x00; x01; x02; x03; x04; x05; x06; x07;
            x08; x09; x0a; x0b; x0c; x0d; x0e; x0f] in
  let p := [x10; x11; x12; x13; x14; x15; x16; x17;
            x18; x19; x1a; x1b; x1c; x1d; x1e; x1f] in
  let h : gmap nat (list byte) := <[0%nat := k]> (<[1%nat := p]> ∅) in
  let first := LeEncrypt.inParams 0x12 0 1 h in
  let second := LeEncrypt.inParams 0x12 0 1 first.1 in
  exists payload1 payload2,
    first.2 = Ok payload1 /\ second.2 = Ok payload2
    /\ payload1 ≠ payload2
    /\ second.1 !! payload1 = Some (reverse k ++ reverse p)
    /\ second.1 !! payload2 = Some (k ++ p)
    /\ second.1 !! 0%nat = Some k
    /\ second.1 !! 1%nat = Some p.
Proof.
  intros k p h.
  apply (LeEncrypt_second_call_sends_unreversed_bytes 0x12 h 0 1 k p);
    [reflexivity|reflexivity|reflexivity|reflexivity|lia].
Defined.

Import LeEnableEncryption.

(** The store after the first half of [LeEnableEncryption.inParams]:
    the handle written and the random number reversed and copied. *)
Lemma enable_encryption_first_half h (payload rn : nat) (connHandle : Z)
    (r : list byte) :
  h !! payload = Some (Buffer.alloc (2 + 8 + 2 + 16)) ->
  h !! rn = Some r -> length r = 8%nat -> payload ≠ rn ->
  0 <= connHandle <= 65535 ->
  exists h',
    Store.writeUIntLE payload connHandle 0 2 h = (h', Ok 2%nat)
    /\ let h2 := Store.copy rn payload 2 (Store.reverse rn h') in
       Store.length rn (Store.reverse rn h') = 8%nat
       /\ Store.length payload (Store.reverse rn h') = 28%nat
       /\ h2 !! payload
          = Some ((Buffer.le_bytes 2 connHandle ++ reverse r)
                  ++ replicate 18 x00)
       /\ h2 !! rn = Some (reverse r)
       /\ (forall i, i ≠ payload -> i ≠ rn -> h2 !! i = h !! i).
Proof.
  intros Hpay Hrn Hlen Hne Hc.
  eexists. split.
  { apply (Store_writeUIntLE_append h payload [] (Buffer.alloc 28));
      [done|done|unfold Buffer.alloc; rewrite length_replicate; lia|].
    change (256 ^ Z.of_nat 2) with 65536. lia. }
  cbn [app]. unfold Buffer.alloc. rewrite drop_replicate.
  change (28 - 2)%nat with 26%nat.
  set (h1 := <[payload := _]> h).
  assert (H1rn : h1 !! rn = Some r)
    by (unfold h1; by rewrite lookup_insert_ne).
  rewrite (Store_reverse_eq h1 rn r H1rn).
  set (h2 := <[rn := reverse r]> h1).
  assert (H2rn : h2 !! rn = Some (reverse r))
    by (unfold h2; by rewrite lookup_insert_eq).
  assert (H2pay : h2 !! payload
                  = Some (Buffer.le_bytes 2 connHandle ++ replicate 26 x00)).
  { unfold h2, h1. by rewrite lookup_insert_ne, lookup_insert_eq. }
  cbv zeta.
  rewrite (Store_length_eq h2 rn _ H2rn), (Store_length_eq h2 payload _ H2pay).
  rewrite (Store_copy_eq h2 rn payload 2 _ _ H2rn H2pay).
  rewrite length_reverse, length_app, le_bytes_length, length_replicate.
  split; [done|]. split; [done|].
  rewrite copy_append by apply le_bytes_length.
  rewrite length_replicate, take_ge, drop_replicate, length_reverse
    by (rewrite length_reverse; lia).
  rewrite Hlen. change (26 - 8)%nat with 18%nat.
  split; [by rewrite lookup_insert_eq, <- app_assoc|].
  split; [by rewrite lookup_insert_ne|].
  intros i Hip Hir. unfold h2, h1.
  by rewrite !lookup_insert_ne.
Qed.

(** X28. [LeEnableEncryption.inParams] with buffers of 8 and 16 bytes
    and a connection handle of 16 bits.  With an encrypted diversifier
    of 16 bits the payload is the handle, the random number reversed,
    the diversifier and the long-term key reversed, and both buffers of
    the caller are left reversed.  With a diversifier that is not of 16
    bits the call throws a [RangeError] half-way: the caller's random
    number is already reversed, the long-term key is not. *)
Theorem enable_encryption_throws_half_way
    (InvalidCommandParameter connHandle : Z) (params : t) h
    (r l : list byte) :
  h !! randomNumber params = Some r -> h !! longTermKey params = Some l ->
  length r = 8%nat -> length l = 16%nat -> 0 <= connHandle <= 65535 ->
  let out := inParams InvalidCommandParameter connHandle params h in
  (0 <= encryptedDiversifier params <= 65535 ->
   exists payload,
     out.2 = Ok payload /\ h !! payload = None
     /\ out.1 !! payload
        = Some (Buffer.le_bytes 2 connHandle ++ reverse r
                ++ Buffer.le_bytes 2 (encryptedDiversifier params)
                ++ reverse l)
     /\ out.1 !! randomNumber params = Some (reverse r)
     /\ out.1 !! longTermKey params = Some (reverse l))
  /\ (~ 0 <= encryptedDiversifier params <= 65535 ->
      out.2 = Throw RangeError
      /\ out.1 !! randomNumber params = Some (reverse r)
      /\ out.1 !! longTermKey params = Some l).
Proof.
  intros Hr Hl Hlr Hll Hc out.
  set (rn := randomNumber params) in *.
  set (ltk := longTermKey params) in *.
  set (ediv := encryptedDiversifier params) in *.
  pose proof (fresh_unused h) as Hfresh.
  set (payload := fresh (dom h)) in *.
  assert (Hpr : payload ≠ rn) by congruence.
  assert (Hpl : payload ≠ ltk) by congruence.
  assert (Hrl : rn ≠ ltk).
  { intros Heq. rewrite Heq, Hl in Hr. injection Hr as <-. lia. }
  destruct (enable_encryption_first_half
              (<[payload := Buffer.alloc (2 + 8 + 2 + 16)]> h)
              payload rn connHandle r)
    as (h' & Hw & Hlen_rn & Hlen_pay & Hpay & Hrn & Hframe);
    [apply lookup_insert_eq|by rewrite lookup_insert_ne|done|done|done|].
  cbv zeta in Hlen_rn, Hlen_pay, Hpay, Hrn, Hframe.
  assert (Hout : out
    = match Store.writeUIntLE payload ediv 10 2
              (Store.copy rn payload 2 (Store.reverse rn h')) with
      | (h, Throw e) => (h, Throw e)
      | (h, Ok o) =>
          (Store.copy ltk payload o (Store.reverse ltk h), Ok payload)
      end).
  { unfold out, inParams. fold rn ltk ediv.
    rewrite decide_False
      by (rewrite (Store_length_eq h rn r), (Store_length_eq h ltk l) by done;
          lia).
    unfold Store.allocUnsafe. fold payload. rewrite Hw.
    cbv zeta. rewrite Hlen_rn, Hlen_pay. done. }
  set (h2 := Store.copy rn payload 2 (Store.reverse rn h')) in *.
  assert (H2l : h2 !! ltk = Some l).
  { rewrite Hframe by done. by rewrite lookup_insert_ne. }
  split.
  - intros He. exists payload. split; [|split; [done|]].
    + rewrite Hout.
      by rewrite (Store_writeUIntLE_append h2 payload _ _ ediv 10 2 Hpay)
        by (rewrite ?length_app, ?le_bytes_length, ?length_reverse,
              ?length_replicate;
            change (256 ^ Z.of_nat 2) with 65536; lia).
    + rewrite Hout.
      rewrite (Store_writeUIntLE_append h2 payload _ _ ediv 10 2 Hpay)
        by (rewrite ?length_app, ?le_bytes_length, ?length_reverse,
              ?length_replicate;
            change (256 ^ Z.of_nat 2) with 65536; lia).
      cbn [fst snd]. rewrite drop_replicate. change (18 - 2)%nat with 16%nat.
      set (h3 := <[payload := _]> h2).
      assert (H3l : h3 !! ltk = Some l)
        by (unfold h3; by rewrite lookup_insert_ne).
      rewrite (Store_reverse_eq h3 ltk l H3l).
      set (h4 := <[ltk := reverse l]> h3).
      assert (H4l : h4 !! ltk = Some (reverse l))
        by (unfold h4; by rewrite lookup_insert_eq).
      assert (H4p : h4 !! payload
                    = Some (((Buffer.le_bytes 2 connHandle ++ reverse r)
                             ++ Buffer.le_bytes 2 ediv)
                            ++ replicate 16 x00)).
      { unfold h4, h3. by rewrite lookup_insert_ne, lookup_insert_eq. }
      rewrite (Store_copy_eq h4 ltk payload (10 + 2) _ _ H4l H4p).
      rewrite copy_append
        by (rewrite !length_app, !le_bytes_length, length_reverse; lia).
      rewrite length_replicate, take_ge, drop_replicate, length_reverse
        by (rewrite length_reverse; lia).
      rewrite Hll. change (16 - 16)%nat with 0%nat.
      cbn [replicate]. rewrite app_nil_r.
      split; [by rewrite lookup_insert_eq, <- !app_assoc|].
      split.
      * rewrite lookup_insert_ne by done. unfold h4, h3.
        by rewrite !lookup_insert_ne.
      * by rewrite lookup_insert_ne.
  - intros He. rewrite Hout.
    rewrite Store_writeUIntLE_refuses
      by (change (256 ^ Z.of_nat 2) with 65536; lia).
    cbn [fst snd]. done.
Qed.

Lemma enable_encryption_throws_half_way_witness :
  let r := [x01; x02; x03; x04; x05; x06; x07; x08] in
  let l := [x00; x01; x02; x03; x04; x05; x06; x07;
            x08; x09; x0a; x0b; x0c; x0d; x0e; x0f] in
  let h : gmap nat (list byte) := <[0%nat := r]> (<[1%nat := l]> ∅) in
  let out :=
    inParams 0x12 0x40
      {| randomNumber := 0; encryptedDiversifier := 0x10000;
         longTermKey := 1 |} h in
  out.2 = Throw RangeError
  /\ out.1 !! 0%nat = Some (reverse r)
  /\ out.1 !! 1%nat = Some l.
Proof.
  intros r l h.
  apply (enable_encryption_throws_half_way 0x12 0x40
           {| randomNumber := 0; encryptedDiversifier := 0x10000;
              longTermKey := 1 |} h r l);
    [reflexivity|reflexivity|reflexivity|reflexivity|lia|cbn; lia].
Defined.

End Keys.

(** ** The command engine: what goes to the transport *)

Lemma sent_onData (data : list byte) (s : Hci.t) :
  Hci.sent (Hci.onData data s) = Hci.sent s.
Proof.
  unfold Hci.onData.
  destruct data as [|eventCode [|payloadLength payload]]; try done.
  repeat case_decide; try done.
  destruct payload as [|? [|? [|? [|? ?]]]]; try done.
  destruct (Hci.onCmdComplete s); [|done].
  unfold Hci.handler. by repeat case_decide.
Qed.

Lemma sent_expire (id : nat) (s : Hci.t) :
  Hci.sent (Hci.expire id s) = Hci.sent s.
Proof. unfold Hci.expire. by destruct (Hci.timers s !! id) as [[?|]|]. Qed.

Lemma sent_send (cmd : HciCommand.t) (s : Hci.t) :
  Hci.sent (Hci.send cmd s).1 = Hci.sent s
  \/ (Hci.onCmdComplete s = None
      /\ exists buffer, Hci.buildBuffer cmd = Ok buffer
                        /\ Hci.sent (Hci.send cmd s).1 = Hci.sent s ++ [buffer]).
Proof.
  destruct (Hci.onCmdComplete s) as [c|] eqn:Hslot.
  - left. by rewrite (send_busy cmd s c).
  - destruct (Hci.buildBuffer cmd) as [buffer|e] eqn:Hbuf.
    + right. split; [done|]. exists buffer. split; [done|].
      by rewrite (send_idle _ _ Hslot), Hbuf.
    + left. by rewrite (send_idle_refused cmd s e).
Qed.

Lemma commandPacket_buildBuffer (cmd : HciCommand.t) (buffer : list byte) :
  Hci.buildBuffer cmd = Ok buffer -> commandPacket buffer.
Proof.
  intros Hbuf. destruct (buildBuffer_layout cmd buffer Hbuf) as (-> & Hop & Hlen).
  by exists (HciCommand.opcode cmd), (default [] (HciCommand.params cmd)).
Qed.

Lemma sent_act (s : Hci.t) (a : Hci.Action) :
  Hci.sent (Hci.act s a) = Hci.sent s
  \/ exists cmd buffer,
       a = Hci.Submit cmd /\ Hci.onCmdComplete s = None
       /\ Hci.buildBuffer cmd = Ok buffer
       /\ Hci.sent (Hci.act s a) = Hci.sent s ++ [buffer].
Proof.
  destruct a as [cmd|data|id]; cbn [Hci.act].
  - destruct (sent_send cmd s) as [?|(? & buffer & ? & ?)]; [by left|].
    right. by exists cmd, buffer.
  - left. apply sent_onData.
  - left. apply sent_expire.
Qed.

(** X29. Whatever is submitted to the engine, every packet it has
    handed to the transport is a command packet: three bytes of header
    and as many parameter bytes as the third byte says, at most 255.
    In every state, whether or not anything was sent before, an event
    and a timer expiry send nothing; a submission to a busy engine and a
    submission [buildBuffer] refuses send nothing; a submission to an
    idle engine that [buildBuffer] accepts sends exactly one packet, the
    one [buildBuffer] gives. *)
Theorem every_packet_sent_is_a_command_packet (s : Hci.t) :
  (Hci.reachable s ->
   forall packet, packet ∈ Hci.sent s ->
     commandPacket packet
     /\ exists lo hi n parameters,
          packet = lo :: hi :: n :: parameters
          /\ u8 n = Z.of_nat (length parameters))
  /\ (forall data, Hci.sent (Hci.act s (Hci.Deliver data)) = Hci.sent s)
  /\ (forall id, Hci.sent (Hci.act s (Hci.Expire id)) = Hci.sent s)
  /\ (forall cmd, Hci.onCmdComplete s ≠ None ->
                  Hci.sent (Hci.act s (Hci.Submit cmd)) = Hci.sent s)
  /\ (forall cmd e, Hci.buildBuffer cmd = Throw e ->
                    Hci.sent (Hci.act s (Hci.Submit cmd)) = Hci.sent s)
  /\ (forall cmd buffer,
        Hci.onCmdComplete s = None -> Hci.buildBuffer cmd = Ok buffer ->
        Hci.sent (Hci.act s (Hci.Submit cmd)) = Hci.sent s ++ [buffer])
  /\ (forall a,
        Hci.sent (Hci.act s a) = Hci.sent s
        \/ exists cmd buffer,
             a = Hci.Submit cmd /\ Hci.onCmdComplete s = None
             /\ Hci.buildBuffer cmd = Ok buffer
             /\ Hci.sent (Hci.act s a) = Hci.sent s ++ [buffer]).
Proof.
  split; [|split; [|split; [|split; [|split; [|split]]]]].
  - intros (init & actions & ->) packet Hin.
    assert (Hpacket : commandPacket packet).
    { revert packet Hin.
      induction actions as [|a' actions IH] using rev_ind; intros packet Hin.
      - cbn in Hin. by apply elem_of_nil in Hin.
      - rewrite foldl_snoc in Hin.
        destruct (sent_act (foldl Hci.act (Hci.new init) actions) a')
          as [Hsame|(cmd & buffer & _ & _ & Hbuf & Hsent)].
        + rewrite Hsame in Hin. by apply IH.
        + rewrite Hsent in Hin. apply elem_of_app in Hin as [Hin|Hin].
          * by apply IH.
          * apply list_elem_of_singleton in Hin as ->.
            by eapply commandPacket_buildBuffer. }
    split; [done|].
    destruct Hpacket as (opcode & parameters & Hop & Hlen & ->).
    eexists _, _, _, parameters. split; [done|].
    apply u8_byte_of_Z. lia.
  - intros data. apply sent_onData.
  - intros id. apply sent_expire.
  - intros cmd Hbusy. cbn [Hci.act].
    destruct (Hci.onCmdComplete s) as [c|] eqn:Hslot; [|done].
    by rewrite (send_busy cmd s c).
  - intros cmd e Hthrow. cbn [Hci.act].
    destruct (sent_send cmd s) as [?|(_ & buffer & Hbuf & _)]; [done|].
    congruence.
  - intros cmd buffer Hidle Hbuf. cbn [Hci.act].
    by rewrite (send_idle _ _ Hidle), Hbuf.
  - apply sent_act.
Qed.

Lemma every_packet_sent_is_a_command_packet_witness :
  commandPacket [x03; x0c; x00]
  /\ Hci.sent (Hci.act (Hci.new None) (Hci.Submit Hci.resetCommand))
     = [[x03; x0c; x00]].
Proof.
  destruct (every_packet_sent_is_a_command_packet
              (foldl Hci.act (Hci.new None) [Hci.Submit Hci.resetCommand]))
    as (Hsent & _).
  destruct (every_packet_sent_is_a_command_packet (Hci.new None))
    as (_ & _ & _ & _ & _ & Hfirst & _).
  split.
  - apply Hsent.
    + exists None, [Hci.Submit Hci.resetCommand]. reflexivity.
    + vm_compute. apply list_elem_of_here.
  - apply (Hfirst Hci.resetCommand [x03; x0c; x00]); reflexivity.
Defined.
